(** * Sentinel deque (lec18/src/Sentinel.h) and persistent environment
    (lec20/src/env.h): a shallow embedding over an explicit heap.

    Both structures are pointer structures, so the embedding keeps the
    pointers: a heap is a finite map from addresses to cells, every member
    function is a computation over that heap, and the links the code reads
    and writes are read and written in the same order here.  *)

From stdpp Require Import gmap list fin_maps strings.
From Stdlib Require Import NArith Lia.

Set Default Proof Using "Type".
Set Warnings "-clear-no-such-hyp".

Declare Scope heap_scope.
Delimit Scope heap_scope with heap.

(** ** Pointers, exceptions and the allocator *)

(** A pointer is a 64-bit address; [nullptr] is address 0. *)
Definition nullptr : N := 0.
Definition ptr_bound : N := 2 ^ 64.
Definition valid_ptr (p : N) : Prop := (0 < p < ptr_bound)%N.

(** [operator new]: given the set of live addresses it either returns the
    address of fresh storage or fails (std::bad_alloc).  Nothing else is
    known of it. *)
Record allocator := {
  alloc : gset N → option N;
  alloc_fresh : ∀ X p, alloc X = Some p → (p ∉ X) ∧ valid_ptr p
}.

(** What a computation can end in: a normal return, an exception (both with
    the heap they leave behind), undefined behaviour, or a loop of the model
    that ran out of fuel. *)
Inductive outcome (H E A : Type) :=
  | Ret (a : A) (h : H)
  | Throw (e : E) (h : H)
  | UB
  | OutOfFuel.
Arguments Ret {H E A} a h.
Arguments Throw {H E A} e h.
Arguments UB {H E A}.
Arguments OutOfFuel {H E A}.

Definition ret {H E A} (a : A) : H → outcome H E A := λ h, Ret a h.
Definition throw {H E A} (e : E) : H → outcome H E A := λ h, Throw e h.
Definition bind {H E A B} (c : H → outcome H E A) (k : A → H → outcome H E B)
  : H → outcome H E B :=
  λ h, match c h with
       | Ret a h' => k a h'
       | Throw e h' => Throw e h'
       | UB => UB
       | OutOfFuel => OutOfFuel
       end.

Notation "x <- c1 ;; c2" := (bind c1 (λ x, c2))
  (at level 100, c1 at next level, right associativity) : heap_scope.
Notation "c1 ;; c2" := (bind c1 (λ _, c2))
  (at level 100, right associativity) : heap_scope.
Open Scope heap_scope.

(** A concrete allocator, used to run the model on examples: a bump
    allocator over an arena of [cap] addresses.  It hands out the address
    above every live one and fails once the arena is used up. *)
Module Arena.

Definition top (X : gset N) : N := foldr N.max 0%N (elements X).

Definition bump (cap : N) (X : gset N) : option N :=
  let p := N.succ (top X) in
  if decide (p < N.min cap ptr_bound)%N then Some p else None.

Lemma foldr_max_ge (l : list N) (x : N) : x ∈ l → (x ≤ foldr N.max 0 l)%N.
Proof.
  induction l as [|y l IH]; intros Hin; [by apply elem_of_nil in Hin|].
  apply elem_of_cons in Hin as [->|Hin]; cbn; [lia|].
  specialize (IH Hin). lia.
Qed.

Lemma bump_fresh (cap : N) (X : gset N) (p : N) :
  bump cap X = Some p → (p ∉ X) ∧ valid_ptr p.
Proof.
  unfold bump. case_decide as Hlt; [|done]. intros [= <-]. split.
  - intros Hin. apply elem_of_elements, foldr_max_ge in Hin.
    unfold top in Hin. lia.
  - unfold valid_ptr. lia.
Qed.

Definition allocator_of (cap : N) : allocator :=
  {| alloc := bump cap; alloc_fresh := bump_fresh cap |}.

(** The arenas the examples run in: one with room, and one with none (only
    address 1 lies below 2, and the examples keep an object there). *)
Definition roomy : allocator := allocator_of 100.
Definition full : allocator := allocator_of 2.

End Arena.

(** ** namespace sentinel *)

Module Sentinel.

(** Exceptions a deque operation can propagate: [operator new] failing, or
    the element type's constructor throwing. *)
Inductive exn := bad_alloc | element_exn (tag : N).

(** struct node_base_ { node_base_* prev; node_base_* next; } *)
Record node_base_ := { prev : N; next : N }.

(** size_t arithmetic: [++size_] and [--size_] wrap at 2^64. *)
Definition size_incr (n : N) : N := ((n + 1) mod 2 ^ 64)%N.
Definition size_decr (n : N) : N := ((n + 2 ^ 64 - 1) mod 2 ^ 64)%N.

(** class Deque_iterator { node_base_* current_; } (the const iterator has
    the same shape and the same operations). *)
Record Deque_iterator := { current_ : N }.

Section deque.
Context {T : Type}.
(** [operator new]. *)
Context (A : allocator).
(** T's copy constructor: [copy_throws v] is the exception it throws when
    copying [v], if it throws; the copy otherwise equals [v]. *)
Context (copy_throws : T → option exn).

(** What lives at an address: a [Deque] object (its embedded [sentinel_] and
    its [size_], which is indeterminate until a constructor assigns it), or a
    heap-allocated [node_] (a [node_base_] followed by [data]).  A
    [node_base_*] is the address of either. *)
Inductive cell :=
  | CDeque (sentinel_ : node_base_) (size_ : option N)
  | CNode (base : node_base_) (data : T).

Abbreviation heap := (gmap N cell).
Definition M (R : Type) : Type := heap → outcome heap exn R.

Definition base_of (c : cell) : node_base_ :=
  match c with CDeque b _ => b | CNode b _ => b end.
Definition with_base (c : cell) (b : node_base_) : cell :=
  match c with CDeque _ s => CDeque b s | CNode _ v => CNode b v end.

(** *** Memory accesses *)

(** [p->prev], [p->next] through a [node_base_*]. *)
Definition load_base (p : N) : M node_base_ :=
  λ h, match h !! p with Some c => Ret (base_of c) h | None => UB end.
Definition store_base (p : N) (b : node_base_) : M unit :=
  λ h, match h !! p with
       | Some c => Ret tt (<[p := with_base c b]> h)
       | None => UB
       end.
Definition load_prev (p : N) : M N := b <- load_base p ;; ret (prev b).
Definition load_next (p : N) : M N := b <- load_base p ;; ret (next b).
Definition store_prev (p q : N) : M unit :=
  b <- load_base p ;; store_base p {| prev := q; next := next b |}.
Definition store_next (p q : N) : M unit :=
  b <- load_base p ;; store_base p {| prev := prev b; next := q |}.

(** [this->size_]. *)
Definition load_size (this : N) : M N :=
  λ h, match h !! this with
       | Some (CDeque _ (Some n)) => Ret n h
       | _ => UB
       end.
Definition store_size (this : N) (n : N) : M unit :=
  λ h, match h !! this with
       | Some (CDeque b _) => Ret tt (<[this := CDeque b (Some n)]> h)
       | _ => UB
       end.

(** [node_base_::as_node]: the static_cast down to [node_*] is defined only
    when the pointee is a node. *)
Definition as_node (p : N) : M N :=
  λ h, match h !! p with Some (CNode _ _) => Ret p h | _ => UB end.
(** [p->data] through a [node_*]. *)
Definition load_data (p : N) : M T :=
  λ h, match h !! p with Some (CNode _ v) => Ret v h | _ => UB end.

(** [new node_(args...)]: storage is obtained first, then the element is
    constructed in it; [c] is the outcome of T's constructor on the
    arguments.  If the constructor throws, the storage is released and the
    exception propagates.  The links start as [nullptr]. *)
Definition new_node_ (c : exn + T) : M N :=
  λ h, match alloc A (dom h) with
       | None => Throw bad_alloc h
       | Some p =>
           match c with
           | inl e => Throw e h
           | inr v =>
               Ret p (<[p := CNode {| prev := nullptr; next := nullptr |} v]> h)
           end
       end.
(** [delete p] for a [node_* p]. *)
Definition delete_ (p : N) : M unit :=
  λ h, match h !! p with
       | Some (CNode _ _) => Ret tt (delete p h)
       | _ => UB
       end.
(** Storage for a [Deque] object at address [this], before a constructor
    body runs: the links take their default member initializers and [size_]
    is indeterminate. *)
Definition object_ (this : N) : M unit :=
  λ h, match h !! this with
       | Some _ => UB
       | None =>
           Ret tt (<[this := CDeque {| prev := nullptr; next := nullptr |} None]> h)
       end.

Definition copy_ctor (v : T) : exn + T :=
  match copy_throws v with Some e => inl e | None => inr v end.

(** *** Deque<T> member functions; [this] is the address of the object, which
    is also [&sentinel_]. *)

Definition head_ (this : N) : M N := n <- load_next this ;; as_node n.
Definition tail_ (this : N) : M N := p <- load_prev this ;; as_node p.

Definition set_empty_ (this : N) : M unit :=
  store_size this 0%N ;;
  store_prev this this ;;
  store_next this this.

Definition empty (this : N) : M bool :=
  n <- load_size this ;; ret (bool_decide (n = 0%N)).
Definition size (this : N) : M N := load_size this.

Definition move_from_ (this other : N) : M unit :=
  e <- empty other ;;
  if e then set_empty_ this
  else
    b <- load_base other ;; store_base this b ;;
    n <- load_size other ;; store_size this n ;;
    set_empty_ other.

Definition front (this : N) : M T := p <- head_ this ;; load_data p.
Definition back (this : N) : M T := p <- tail_ this ;; load_data p.

Definition push_front_ (this new_node : N) : M unit :=
  n <- load_next this ;; store_next new_node n ;;
  store_prev new_node this ;;
  nn <- load_next new_node ;; store_prev nn new_node ;;
  np <- load_prev new_node ;; store_next np new_node ;;
  s <- load_size this ;; store_size this (size_incr s).

Definition push_back_ (this new_node : N) : M unit :=
  p <- load_prev this ;; store_prev new_node p ;;
  store_next new_node this ;;
  nn <- load_next new_node ;; store_prev nn new_node ;;
  np <- load_prev new_node ;; store_next np new_node ;;
  s <- load_size this ;; store_size this (size_incr s).

(** [emplace_front(args...)] / [emplace_back(args...)]: [c] is the outcome of
    constructing a T from the arguments.  (emplace_front is modelled as it is
    laid out, a [new node_] followed by [push_front_]; its [std::forward]
    lacks the template argument that emplace_back's has.)  The overloads
    [push_front(T&&)] / [push_back(T&&)] are these with the outcome of T's
    move constructor. *)
Definition emplace_front (this : N) (c : exn + T) : M unit :=
  p <- new_node_ c ;; push_front_ this p.
Definition emplace_back (this : N) (c : exn + T) : M unit :=
  p <- new_node_ c ;; push_back_ this p.
(** [push_front(const T&)] / [push_back(const T&)]. *)
Definition push_front (this : N) (v : T) : M unit :=
  p <- new_node_ (copy_ctor v) ;; push_front_ this p.
Definition push_back (this : N) (v : T) : M unit :=
  p <- new_node_ (copy_ctor v) ;; push_back_ this p.

Definition pop_front (this : N) : M unit :=
  head <- head_ this ;;
  new_head <- load_next head ;;
  delete_ head ;;
  store_next this new_head ;;
  store_prev new_head this ;;
  s <- load_size this ;; store_size this (size_decr s).

Definition pop_back (this : N) : M unit :=
  tail <- tail_ this ;;
  new_tail <- load_prev tail ;;
  delete_ tail ;;
  store_prev this new_tail ;;
  store_next new_tail this ;;
  s <- load_size this ;; store_size this (size_decr s).

(** [while (!empty()) pop_front();] *)
Fixpoint clear (fuel : nat) (this : N) : M unit :=
  match fuel with
  | O => λ _, OutOfFuel
  | S fuel' =>
      e <- empty this ;;
      if e then ret tt else (pop_front this ;; clear fuel' this)
  end.

Definition swap (this other : N) : M unit :=
  e <- empty this ;;
  if e then move_from_ this other
  else
    e' <- empty other ;;
    if e' then move_from_ other this
    else
      tmp <- load_base this ;; b <- load_base other ;;
      store_base this b ;; store_base other tmp ;;
      stmp <- load_size this ;; s <- load_size other ;;
      store_size this s ;; store_size other stmp ;;
      n <- load_next this ;; store_prev n this ;;
      p <- load_prev this ;; store_next p this ;;
      n' <- load_next other ;; store_prev n' other ;;
      p' <- load_prev other ;; store_next p' other.

(** *** Iterators *)

Definition begin (this : N) : M Deque_iterator :=
  n <- load_next this ;; ret {| current_ := n |}.
Definition end_ (this : N) : M Deque_iterator := ret {| current_ := this |}.
Definition iter_eq (i j : Deque_iterator) : bool :=
  bool_decide (current_ i = current_ j).
Definition iter_ne (i j : Deque_iterator) : bool := negb (iter_eq i j).
(** operator* *)
Definition deref (i : Deque_iterator) : M T :=
  p <- as_node (current_ i) ;; load_data p.
(** operator++ and operator-- (prefix) *)
Definition incr (i : Deque_iterator) : M Deque_iterator :=
  n <- load_next (current_ i) ;; ret {| current_ := n |}.
Definition decr (i : Deque_iterator) : M Deque_iterator :=
  p <- load_prev (current_ i) ;; ret {| current_ := p |}.

(** [for (auto it = first; it != last; ++it) { const auto& elt = *it; body }]
    threading an accumulator [s] through the body. *)
Fixpoint for_loop {S : Type} (fuel : nat) (it last : Deque_iterator)
    (body : T → S → M S) (s : S) : M S :=
  match fuel with
  | O => λ _, OutOfFuel
  | Datatypes.S fuel' =>
      if iter_ne it last then
        elt <- deref it ;;
        s' <- body elt s ;;
        it' <- incr it ;;
        for_loop fuel' it' last body s'
      else ret s
  end.

(** [for (const auto& elt : d) body]. *)
Definition range_for {S : Type} (fuel : nat) (d : N) (body : T → S → M S)
    (s : S) : M S :=
  first <- begin d ;; last <- end_ d ;; for_loop fuel first last body s.

(** A full forward traversal from [begin()] to [end()], collecting the
    elements visited. *)
Definition collect (elt : T) (acc : list T) : M (list T) := ret (acc ++ [elt]).
Definition traverse (fuel : nat) (d : N) : M (list T) :=
  range_for fuel d collect [].

(** *** Constructors and assignment *)

(** Deque() *)
Definition Deque_default (this : N) : M unit :=
  object_ this ;; set_empty_ this.

Fixpoint push_back_all (this : N) (args : list T) : M unit :=
  match args with
  | [] => ret tt
  | arg :: args' => push_back this arg ;; push_back_all this args'
  end.
Fixpoint push_front_all (this : N) (args : list T) : M unit :=
  match args with
  | [] => ret tt
  | arg :: args' => push_front this arg ;; push_front_all this args'
  end.

(** The body of the copy loops: [push_back(elt)]. *)
Definition copy_body (this : N) : T → unit → M unit :=
  λ elt _, push_back this elt.

(** operator=(const Deque&) *)
Definition copy_assign (fuel : nat) (this other : N) : M unit :=
  clear fuel this ;;
  range_for fuel other (copy_body this) tt.

(** Deque(Deque&&) and operator=(Deque&&) have no run to model: their bodies
    call [move_from_(other)] with [other] as it stands, an lvalue, where
    [move_from_] takes a [Deque&&], so neither member can be instantiated.
    [move_from_] is reached through [swap], which passes [std::move(other)]. *)

(** ~Deque(): [clear()], after which the storage of the object, the
    embedded sentinel with it, ends. *)
Definition release_ (this : N) : M unit :=
  λ h, match h !! this with
       | Some (CDeque _ _) => Ret tt (delete this h)
       | _ => UB
       end.
Definition Deque_dtor (fuel : nat) (this : N) : M unit :=
  clear fuel this ;; release_ this.

(** The constructors [Deque(std::initializer_list<T>)] and
    [Deque(const Deque&)] delegate to [Deque()].  Once the delegated-to
    constructor has returned the object counts as constructed, so when the
    body of the delegating constructor then throws, the destructor runs
    before the exception leaves the constructor: [unwind] is that step, and
    the two definitions below are the whole constructor calls. *)
Definition unwind (fuel : nat) (this : N) (body : M unit) : M unit :=
  λ h, match body h with
       | Throw e h1 =>
           match Deque_dtor fuel this h1 with
           | Ret _ h2 => Throw e h2
           | o => o
           end
       | o => o
       end.
Definition Deque_init_list_unwinding (fuel : nat) (this : N) (args : list T)
    : M unit :=
  Deque_default this ;; unwind fuel this (push_back_all this args).
Definition Deque_copy_unwinding (fuel : nat) (this other : N) : M unit :=
  Deque_default this ;;
  unwind fuel this (range_for fuel other (copy_body this) tt).

(** std::swap(Deque&, Deque&): [a.swap(b)]. *)
Definition std_swap (a b : N) : M unit := swap a b.

(** *** The rest of the iterator protocol *)

(** operator->: the address of the element, which is that of its node. *)
Definition arrow (i : Deque_iterator) : M N := as_node (current_ i).
(** operator++(int) and operator--(int): copy the iterator, step it, return
    the copy.  The pair is the value returned and the iterator variable
    afterwards. *)
Definition incr_post (i : Deque_iterator) : M (Deque_iterator * Deque_iterator) :=
  i' <- incr i ;; ret (i, i').
Definition decr_post (i : Deque_iterator) : M (Deque_iterator * Deque_iterator) :=
  i' <- decr i ;; ret (i, i').
(** Deque_const_iterator(Deque_iterator other) : current_(other.current_) *)
Definition to_const (i : Deque_iterator) : Deque_iterator :=
  {| current_ := current_ i |}.
(** cbegin() and cend(): [return begin();] and [return end();]. *)
Definition cbegin (this : N) : M Deque_iterator := begin this.
Definition cend (this : N) : M Deque_iterator := end_ this.

(** std::reverse_iterator over a deque iterator.  The adapter is the
    standard library's, and it is modelled as the standard defines it: it
    holds an iterator [current]; [*r] is [*--tmp] for a copy [tmp] of
    [current]; [++r] is [--current]; [r == s] compares the two [current]. *)
Record reverse_iterator := { current : Deque_iterator }.
Definition riter_eq (r s : reverse_iterator) : bool :=
  iter_eq (current r) (current s).
Definition riter_ne (r s : reverse_iterator) : bool := negb (riter_eq r s).
Definition rderef (r : reverse_iterator) : M T :=
  tmp <- decr (current r) ;; deref tmp.
Definition rincr (r : reverse_iterator) : M reverse_iterator :=
  c <- decr (current r) ;; ret {| current := c |}.
Definition rdecr (r : reverse_iterator) : M reverse_iterator :=
  c <- incr (current r) ;; ret {| current := c |}.

(** rbegin(): [reverse_iterator(end())]; rend(): [reverse_iterator(begin())];
    crbegin() and crend() return these. *)
Definition rbegin (this : N) : M reverse_iterator :=
  e <- end_ this ;; ret {| current := e |}.
Definition rend (this : N) : M reverse_iterator :=
  b <- begin this ;; ret {| current := b |}.
Definition crbegin (this : N) : M reverse_iterator := rbegin this.
Definition crend (this : N) : M reverse_iterator := rend this.

(** [for (auto r = first; r != last; ++r) { const auto& elt = *r; body }]
    over reverse iterators. *)
Fixpoint rfor_loop {S : Type} (fuel : nat) (r last : reverse_iterator)
    (body : T → S → M S) (s : S) : M S :=
  match fuel with
  | O => λ _, OutOfFuel
  | Datatypes.S fuel' =>
      if riter_ne r last then
        elt <- rderef r ;;
        s' <- body elt s ;;
        r' <- rincr r ;;
        rfor_loop fuel' r' last body s'
      else ret s
  end.

(** A full reverse traversal from [rbegin()] to [rend()], collecting the
    elements visited. *)
Definition rtraverse (fuel : nat) (d : N) : M (list T) :=
  first <- rbegin d ;; last <- rend d ;; rfor_loop fuel first last collect [].

(** Writing through the references [front()], [back()] and [operator*]
    return: [d.front() = v], [d.back() = v], [*it = v].  The store is T's
    assignment, taken here as one that does not throw. *)
Definition store_data (p : N) (v : T) : M unit :=
  λ h, match h !! p with
       | Some (CNode b _) => Ret tt (<[p := CNode b v]> h)
       | _ => UB
       end.
Definition set_front (this : N) (v : T) : M unit :=
  p <- head_ this ;; store_data p v.
Definition set_back (this : N) (v : T) : M unit :=
  p <- tail_ this ;; store_data p v.
Definition assign_through (i : Deque_iterator) (v : T) : M unit :=
  p <- as_node (current_ i) ;; store_data p v.

(** *** Client code the properties are about *)

(** [d.push_back(x); y = d.front(); d.pop_front(); return y;] and its dual
    [d.push_front(x); y = d.back(); d.pop_back(); return y;]. *)
Definition fifo_round_trip (d : N) (x : T) : M T :=
  push_back d x ;; y <- front d ;; pop_front d ;; ret y.
Definition lifo_round_trip (d : N) (x : T) : M T :=
  push_front d x ;; y <- back d ;; pop_back d ;; ret y.

(** Used as a stack at either end:
    [d.push_back(x); y = d.back(); d.pop_back(); return y;] and
    [d.push_front(x); y = d.front(); d.pop_front(); return y;]. *)
Definition stack_back (d : N) (x : T) : M T :=
  push_back d x ;; y <- back d ;; pop_back d ;; ret y.
Definition stack_front (d : N) (x : T) : M T :=
  push_front d x ;; y <- front d ;; pop_front d ;; ret y.

(** [{ Deque d(args); }]: a deque built from an initializer list and
    destroyed at the end of its scope. *)
Definition scoped_deque (fuel : nat) (d : N) (args : list T) : M unit :=
  Deque_init_list_unwinding fuel d args ;; Deque_dtor fuel d.

(** *** The ring a well-formed deque owns *)

(** [xs] lists the nodes of a ring front to back, each with its address and
    its element. *)
Definition head_ptr (xs : list (N * T)) (q : N) : N :=
  match xs with [] => q | x :: _ => x.1 end.
Definition last_ptr (pp : N) (xs : list (N * T)) : N :=
  match last xs with Some x => x.1 | None => pp end.

(** The cells of the nodes [xs] when they are chained between [pp] (the cell
    before the first) and [q] (the cell after the last). *)
Fixpoint node_cells (pp : N) (xs : list (N * T)) (q : N) : list (N * cell) :=
  match xs with
  | [] => []
  | x :: xs' =>
      (x.1, CNode {| prev := pp; next := head_ptr xs' q |} x.2)
        :: node_cells x.1 xs' q
  end.

Definition holds (h : heap) (cs : list (N * cell)) : Prop :=
  Forall (λ pc, h !! pc.1 = Some pc.2) cs.

(** The deque at [d] is the ring sentinel, xs, sentinel: following [next]
    from the sentinel visits [xs] in order and comes back to the sentinel,
    [prev] is the inverse of [next] on every adjacent pair, [size_] is the
    number of nodes, and no cell occurs twice.  With [xs = []] the sentinel's
    links both point at the sentinel. *)
Record ring (h : heap) (d : N) (xs : list (N * T)) : Prop := {
  ring_sentinel :
    h !! d = Some (CDeque {| prev := last_ptr d xs; next := head_ptr xs d |}
                          (Some (N.of_nat (length xs))));
  ring_nodes : holds h (node_cells d xs d);
  ring_nodup : NoDup (d :: xs.*1);
  ring_valid : Forall valid_ptr (d :: xs.*1)
}.

(** *** What the properties are stated with *)

(** A full forward traversal of [d] ends at [d.end()] having visited exactly
    [vs], given enough fuel for its loop. *)
Definition visits (h : heap) (d : N) (vs : list T) : Prop :=
  ∀ fuel, length vs < fuel → traverse fuel d h = Ret vs h.

(** [new node_] fails with [e] in heap [h]: there is no storage, or there is
    and the element's constructor, whose outcome is [c], throws [e]. *)
Definition creation_fails (c : exn + T) (h : heap) (e : exn) : Prop :=
  (alloc A (dom h) = None ∧ e = bad_alloc)
  ∨ (is_Some (alloc A (dom h)) ∧ c = inl e).

(** [Deque d; for (v : args) d.push_back(v);] and the same with
    [push_front], run in the heap [h]. *)
Definition pushes_back (d : N) (h : heap) (args : list T)
    : outcome heap exn unit :=
  (Deque_default d ;; push_back_all d args) h.
Definition pushes_front (d : N) (h : heap) (args : list T)
    : outcome heap exn unit :=
  (Deque_default d ;; push_front_all d args) h.

(** The one way a run of pushes of [args] ends by an exception [e]: the
    pushes of the values before some [v] of [args] returned, [run vs1] being
    that part of the run, and in the heap [h1] they left the node for [v]
    could not be created. *)
Definition push_fails (run : list T → outcome heap exn unit) (args : list T)
    (h1 : heap) (e : exn) : Prop :=
  ∃ vs1 v vs2,
    args = vs1 ++ v :: vs2 ∧ run vs1 = Ret tt h1
    ∧ creation_fails (copy_ctor v) h1 e.

(** How a run of pushes of [args] onto [d] ends: normally, with [d]
    traversed as [expected]; or by an exception, for the reason above and
    with the heap the failed push found. *)
Definition push_outcome (run : list T → outcome heap exn unit) (d : N)
    (args expected : list T) : Prop :=
  match run args with
  | Ret _ h' => visits h' d expected
  | Throw e h' => push_fails run args h' e
  | _ => False
  end.

(** The strong guarantee of an insertion [op] whose element is constructed
    with outcome [c]: a failure to create the node is propagated with the
    heap untouched, nothing else makes [op] throw, and without such a failure
    [op] returns. *)
Definition strong_guarantee (op : M unit) (c : exn + T) (h : heap) : Prop :=
  (∀ e, creation_fails c h e → op h = Throw e h)
  ∧ (∀ e h', op h = Throw e h' → creation_fails c h e ∧ h' = h)
  ∧ ((∀ e, ¬ creation_fails c h e) → ∃ h', op h = Ret tt h').

(** [p->prev = q] and [p->next = q] as heap updates. *)
Definition set_prev_at (p q : N) (h : heap) : heap :=
  alter (λ c, with_base c {| prev := q; next := next (base_of c) |}) p h.
Definition set_next_at (p q : N) (h : heap) : heap :=
  alter (λ c, with_base c {| prev := prev (base_of c); next := q |}) p h.

(** What [move_from_] leaves behind when [other] is not empty: the links of
    [other]'s sentinel are copied into [this], [other] is reset, and no node
    is written. *)
Definition moved (h : heap) (this other : N) (xs : list (N * T)) : heap :=
  <[other := CDeque {| prev := other; next := other |} (Some 0%N)]>
    (<[this := CDeque {| prev := last_ptr other xs; next := head_ptr xs other |}
                      (Some (N.of_nat (length xs)))]> h).

End deque.
End Sentinel.

(** Concrete deques the properties are run on.  Elements are numbers whose
    copy constructor never throws. *)
Module SentinelExamples.
Import Sentinel.

Definition no_throw : N → option exn := λ _, None.
Definition base (p n : N) : node_base_ := {| prev := p; next := n |}.

(** An empty deque at address 1. *)
Definition heap_empty : gmap N (@cell N) :=
  {[ 1%N := CDeque (base 1 1) (Some 0%N) ]}.
(** The deque {7} at address 1, its node at address 2. *)
Definition heap_one : gmap N (@cell N) :=
  <[ 1%N := CDeque (base 2 2) (Some 1%N) ]>
    {[ 2%N := CNode (base 1 1) 7%N ]}.
(** An empty deque at address 1 and the deque {9} at address 2, its node at
    address 3. *)
Definition heap_two : gmap N (@cell N) :=
  <[ 1%N := CDeque (base 1 1) (Some 0%N) ]>
    (<[ 2%N := CDeque (base 3 3) (Some 1%N) ]>
       {[ 3%N := CNode (base 2 2) 9%N ]}).

(** The deque {1,2} at address 1 (nodes at 2 and 3) and the deque {9} at
    address 10 (node at 11). *)
Definition heap_pair : gmap N (@cell N) :=
  list_to_map
    [ (1%N, CDeque (base 3 2) (Some 2%N));
      (2%N, CNode (base 1 3) 1%N);
      (3%N, CNode (base 2 1) 2%N);
      (10%N, CDeque (base 11 11) (Some 1%N));
      (11%N, CNode (base 10 10) 9%N) ].
Definition nodes_12 : list (N * N) := [(2%N, 1%N); (3%N, 2%N)].
Definition nodes_9 : list (N * N) := [(11%N, 9%N)].

End SentinelExamples.

(** ** namespace islpp *)

Module Islpp.

Section env.
(** symbol.h is not among the sources: a [Symbol] is taken as a type whose
    [operator==] decides equality. *)
Context {Symbol : Type} `{EqDecision Symbol}.
Context {V : Type}.
(** The allocator behind [std::make_shared]. *)
Context (A : allocator).

Inductive exn := bad_alloc | binding_not_found (sym : Symbol).

(** struct node { Symbol key; V value; node_ptr next; }.  A [node_ptr] is a
    [shared_ptr]; none of the operations below releases one, so the
    reference counts are left out and a [node_ptr] is the address it holds. *)
Record node := { key : Symbol; value : V; next : N }.

(** class env_ptr { node_ptr head_; } *)
Record env_ptr := { head_ : N }.

Abbreviation heap := (gmap N node).
Definition M (R : Type) : Type := heap → outcome heap exn R.

(** env_ptr() *)
Definition empty_env : env_ptr := {| head_ := nullptr |}.

(** The loop of [lookup]:
    [for (curr = head_.get(); curr != nullptr; curr = curr->next.get())
       if (curr->key == key) return curr->value;
     throw binding_not_found{key};] *)
Fixpoint lookup_from (fuel : nat) (curr : N) (k : Symbol) : M V :=
  match fuel with
  | O => λ _, OutOfFuel
  | S fuel' =>
      if decide (curr = nullptr) then throw (binding_not_found k)
      else λ h,
        match h !! curr with
        | None => UB
        | Some n =>
            if decide (key n = k) then Ret (value n) h
            else lookup_from fuel' (next n) k h
        end
  end.
Definition lookup (fuel : nat) (e : env_ptr) (k : Symbol) : M V :=
  lookup_from fuel (head_ e) k.

(** [extend]: a new handle whose head is a fresh node in front of [head_]. *)
Definition extend (e : env_ptr) (k : Symbol) (v : V) : M env_ptr :=
  λ h, match alloc A (dom h) with
       | None => Throw bad_alloc h
       | Some p =>
           Ret {| head_ := p |}
               (<[p := {| key := k; value := v; next := head_ e |}]> h)
       end.

(** The loop of [update]:
    [for (curr = head_.get(); curr != nullptr; curr = curr->next.get())
       if (curr->key == key) { curr->value = value; return; }
     throw binding_not_found{key};] *)
Fixpoint update_from (fuel : nat) (curr : N) (k : Symbol) (v : V) : M unit :=
  match fuel with
  | O => λ _, OutOfFuel
  | S fuel' =>
      if decide (curr = nullptr) then throw (binding_not_found k)
      else λ h,
        match h !! curr with
        | None => UB
        | Some n =>
            if decide (key n = k)
            then Ret tt (<[curr := {| key := key n; value := v; next := next n |}]> h)
            else update_from fuel' (next n) k v h
        end
  end.
Definition update (fuel : nat) (e : env_ptr) (k : Symbol) (v : V) : M unit :=
  update_from fuel (head_ e) k v.

(** *** The binding list an environment denotes *)

(** [bs] lists the nodes reachable from a handle, newest first, each with
    its address and its binding. *)
Definition env_head (bs : list (N * (Symbol * V))) : N :=
  match bs with [] => nullptr | b :: _ => b.1 end.
Fixpoint env_cells (bs : list (N * (Symbol * V))) : list (N * node) :=
  match bs with
  | [] => []
  | b :: bs' =>
      (b.1, {| key := b.2.1; value := b.2.2; next := env_head bs' |})
        :: env_cells bs'
  end.
Record env_rep (h : heap) (e : env_ptr) (bs : list (N * (Symbol * V))) : Prop := {
  env_rep_head : head_ e = env_head bs;
  env_rep_cells : Forall (λ pc, h !! pc.1 = Some pc.2) (env_cells bs);
  env_rep_nodup : NoDup bs.*1;
  env_rep_valid : Forall valid_ptr bs.*1
}.

(** The nearest (newest) binding of [k]: its address and its value. *)
Fixpoint nearest (k : Symbol) (bs : list (N * (Symbol * V))) : option (N * V) :=
  match bs with
  | [] => None
  | b :: bs' => if decide (b.2.1 = k) then Some (b.1, b.2.2) else nearest k bs'
  end.
(** The binding list with the value of the nearest binding of [k] replaced. *)
Fixpoint set_nearest (k : Symbol) (v : V) (bs : list (N * (Symbol * V)))
  : list (N * (Symbol * V)) :=
  match bs with
  | [] => []
  | b :: bs' =>
      if decide (b.2.1 = k) then (b.1, (b.2.1, v)) :: bs'
      else b :: set_nearest k v bs'
  end.

(** In-place assignment to the [value] field of the node at [p]. *)
Definition set_value (p : N) (w : V) (h : heap) : heap :=
  alter (λ n, {| key := key n; value := w; next := next n |}) p h.
Definition keys (bs : list (N * (Symbol * V))) : list Symbol := (bs.*2).*1.
Definition cells_hold (h : heap) (cs : list (N * node)) : Prop :=
  Forall (λ pc, h !! pc.1 = Some pc.2) cs.

(** What a computation answered, without the heap it left. *)
Definition answer {R} (o : outcome heap exn R) : option (exn + R) :=
  match o with
  | Ret r _ => Some (inr r)
  | Throw e _ => Some (inl e)
  | _ => None
  end.

(** [e = env_ptr(); for (k, v) in kvs: e = e.extend(k, v);] starting from
    [e]. *)
Fixpoint extend_all (e : env_ptr) (kvs : list (Symbol * V)) : M env_ptr :=
  match kvs with
  | [] => ret e
  | kv :: kvs' => e' <- extend e kv.1 kv.2 ;; extend_all e' kvs'
  end.

(** The association list [kvs], oldest binding first, read as a map: the
    value of the last binding of [k]. *)
Fixpoint assoc_last (k : Symbol) (kvs : list (Symbol * V)) : option V :=
  match kvs with
  | [] => None
  | kv :: kvs' =>
      match assoc_last k kvs' with
      | Some v => Some v
      | None => if decide (kv.1 = k) then Some kv.2 else None
      end
  end.

(** [e2 = e1.extend(k2, v2); e2.update(k, w); return e1.lookup(k);] *)
Definition update_through_extension (fuel : nat) (e1 : env_ptr)
    (k2 : Symbol) (v2 : V) (k : Symbol) (w : V) : M V :=
  e2 <- extend e1 k2 v2 ;; update fuel e2 k w ;; lookup fuel e1 k.

End env.
End Islpp.

(** A concrete environment the properties are run on: symbols are strings,
    values are numbers. *)
Module IslppExamples.
Import Islpp.

(** The environment x = 1, y = 2 (x bound last): the node of x at address 2,
    the node of y at address 1. *)
Definition env_heap : gmap N (@node string N) :=
  <[ 2%N := {| key := "x"; value := 1%N; next := 1%N |} ]>
    {[ 1%N := {| key := "y"; value := 2%N; next := nullptr |} ]}.
Definition env_xy : env_ptr := {| head_ := 2%N |}.
Definition bindings_xy : list (N * (string * N)) :=
  [(2%N, ("x", 1%N)); (1%N, ("y", 2%N))].

End IslppExamples.

(** * Properties of the deque *)

Module SentinelSpec.
Import Sentinel.

(** *** Addresses and the size counter

    Distinct addresses below a bound are at most that many, so the nodes of
    a ring are fewer than 2^64 and [size_] never wraps. *)
Lemma NoDup_below (b : N) : ∀ l : list N,
  NoDup l → Forall (λ p, (p < b)%N) l → (N.of_nat (length l) ≤ b)%N.
Proof.
  induction b as [|b IH] using N.peano_ind; intros l Hnd Hlt.
  - destruct l as [|x l]; [simpl; lia|].
    apply Forall_cons in Hlt as [Hx _]. lia.
  - destruct (decide (b ∈ l)) as [Hin|Hin].
    + apply list_elem_of_split in Hin as (l1 & l2 & ->).
      apply NoDup_app in Hnd as (Hnd1 & Hd & Hnd2).
      apply NoDup_cons in Hnd2 as [Hb2 Hnd2].
      apply Forall_app in Hlt as [Hlt1 Hlt2].
      apply Forall_cons in Hlt2 as [_ Hlt2].
      assert (N.of_nat (length (l1 ++ l2)) ≤ b)%N as Hle.
      { apply IH.
        - apply NoDup_app. split_and!; [done| |done].
          intros x Hx1 Hx2. apply (Hd x Hx1). by right.
        - apply Forall_app. split.
          + apply Forall_forall. intros x Hx.
            pose proof (proj1 (Forall_forall _ _) Hlt1 x Hx) as Hxb. cbn in Hxb.
            assert (x ≠ b); [|lia].
            intros ->. apply (Hd b Hx). by left.
          + apply Forall_forall. intros x Hx.
            pose proof (proj1 (Forall_forall _ _) Hlt2 x Hx) as Hxb. cbn in Hxb.
            assert (x ≠ b); [|lia].
            by intros ->. }
      rewrite length_app in *. simpl. lia.
    + assert (N.of_nat (length l) ≤ b)%N; [|lia].
      apply IH; [done|].
      apply Forall_forall. intros x Hx.
      pose proof (proj1 (Forall_forall _ _) Hlt x Hx) as Hxb. cbn in Hxb.
      assert (x ≠ b); [|lia].
      by intros ->.
Qed.

Lemma valid_ptrs_length (l : list N) :
  NoDup l → Forall valid_ptr l → (N.of_nat (length l) < ptr_bound)%N.
Proof.
  intros Hnd Hv.
  assert (N.of_nat (length (0%N :: l)) ≤ ptr_bound)%N as Hle.
  { apply NoDup_below.
    - apply NoDup_cons. split; [|done].
      intros H0. apply (proj1 (Forall_forall _ _) Hv) in H0.
      unfold valid_ptr in H0. lia.
    - apply Forall_cons. split; [unfold ptr_bound; lia|].
      eapply Forall_impl; [exact Hv|]. unfold valid_ptr. intros; lia. }
  simpl length in Hle. lia.
Qed.

Lemma size_incr_of_nat (n : nat) :
  (N.of_nat (S n) < ptr_bound)%N → size_incr (N.of_nat n) = N.of_nat (S n).
Proof.
  unfold size_incr, ptr_bound. intros Hlt.
  rewrite N.mod_small; lia.
Qed.

Lemma size_decr_of_nat (n : nat) :
  (N.of_nat (S n) < ptr_bound)%N → size_decr (N.of_nat (S n)) = N.of_nat n.
Proof.
  unfold size_decr, ptr_bound. intros Hlt.
  replace (N.of_nat (S n) + 2 ^ 64 - 1)%N with (N.of_nat n + 1 * 2 ^ 64)%N by lia.
  rewrite N.Div0.mod_add. rewrite N.mod_small; lia.
Qed.

(** Unfolds the member functions down to heap lookups and updates. *)
Ltac exec :=
  unfold front, back, push_back_, push_front_, pop_front, pop_back, move_from_,
    head_, tail_, set_empty_, empty, begin, end_, deref, incr, decr,
    load_prev, load_next, store_prev, store_next, load_size, store_size,
    load_base, store_base, as_node, load_data, delete_, object_, bind, ret.

Section ring_facts.
Context {T : Type}.
Abbreviation heap := (gmap N (@cell T)).
Implicit Types (h : heap) (xs : list (N * T)) (p q d : N) (t x : N * T).

(** *** Chains of nodes *)

Lemma head_ptr_app xs ys q : head_ptr (xs ++ ys) q = head_ptr xs (head_ptr ys q).
Proof. by destruct xs. Qed.
Lemma last_ptr_snoc pp xs t : last_ptr pp (xs ++ [t]) = t.1.
Proof. unfold last_ptr. by rewrite last_snoc. Qed.
Lemma last_ptr_cons pp x xs : last_ptr pp (x :: xs) = last_ptr x.1 xs.
Proof.
  unfold last_ptr. destruct xs as [|y xs _] using rev_ind; [done|].
  by rewrite app_comm_cons, !last_snoc.
Qed.
Lemma node_cells_app pp xs ys q :
  node_cells pp (xs ++ ys) q =
  node_cells pp xs (head_ptr ys q) ++ node_cells (last_ptr pp xs) ys q.
Proof.
  revert pp. induction xs as [|x xs IH]; intros pp; [done|].
  cbn [app node_cells]. rewrite IH, head_ptr_app, last_ptr_cons. done.
Qed.
Lemma node_cells_snoc pp xs t q :
  node_cells pp (xs ++ [t]) q =
  node_cells pp xs t.1 ++
    [(t.1, CNode {| prev := last_ptr pp xs; next := q |} t.2)].
Proof. by rewrite node_cells_app. Qed.
Lemma node_cells_fst pp xs q : (node_cells pp xs q).*1 = xs.*1.
Proof.
  revert pp. induction xs as [|x xs IH]; intros pp; [done|].
  cbn. by rewrite IH.
Qed.

Lemma holds_cons h k c (cs : list (N * cell)) :
  holds h ((k, c) :: cs) ↔ h !! k = Some c ∧ holds h cs.
Proof. unfold holds. by rewrite Forall_cons. Qed.
Lemma holds_app h (cs cs' : list (N * cell)) :
  holds h (cs ++ cs') ↔ holds h cs ∧ holds h cs'.
Proof. unfold holds. by rewrite Forall_app. Qed.
Lemma holds_singleton h k c : holds h [(k, c)] ↔ h !! k = Some c.
Proof. unfold holds. by rewrite Forall_singleton. Qed.

Lemma holds_frame h h' (cs : list (N * cell)) :
  (∀ k, k ∈ cs.*1 → h' !! k = h !! k) → holds h cs → holds h' cs.
Proof.
  unfold holds. intros Hfr Hh. apply Forall_forall. intros [k c] Hin.
  rewrite Hfr; [by apply (proj1 (Forall_forall _ _) Hh (k, c))|].
  apply list_elem_of_fmap. by exists (k, c).
Qed.
Lemma holds_nodes_frame h h' pp xs q :
  (∀ k, k ∈ xs.*1 → h' !! k = h !! k) →
  holds h (node_cells pp xs q) → holds h' (node_cells pp xs q).
Proof. intros Hfr. apply holds_frame. by rewrite node_cells_fst. Qed.
Lemma holds_lookup h (cs : list (N * cell)) k c :
  holds h cs → (k, c) ∈ cs → h !! k = Some c.
Proof. intros Hh Hin. by apply (proj1 (Forall_forall _ _) Hh (k, c)). Qed.
Lemma holds_is_Some h pp xs q k :
  holds h (node_cells pp xs q) → k ∈ xs.*1 → is_Some (h !! k).
Proof.
  intros Hh Hin. rewrite <- (node_cells_fst pp xs q) in Hin.
  apply list_elem_of_fmap in Hin as ([k' c] & -> & Hin).
  exists c. by eapply holds_lookup.
Qed.

Lemma ring_fresh h d xs p : ring h d xs → h !! p = None → p ∉ d :: xs.*1.
Proof.
  intros [Hd Hn _ _] Hp Hin. apply elem_of_cons in Hin as [->|Hin].
  - congruence.
  - eapply holds_is_Some in Hin as [c Hc]; [|done]. congruence.
Qed.

Lemma ring_size_incr h d xs p :
  ring h d xs → h !! p = None → valid_ptr p →
  size_incr (N.of_nat (length xs)) = N.of_nat (S (length xs)).
Proof.
  intros Hr Hp Hvp. apply size_incr_of_nat.
  pose proof (ring_fresh _ _ _ _ Hr Hp) as Hfr.
  destruct Hr as [_ _ Hnd Hv].
  assert (N.of_nat (length (p :: d :: xs.*1)) < ptr_bound)%N as Hlt.
  { apply valid_ptrs_length; [by apply NoDup_cons|by apply Forall_cons]. }
  simpl length in Hlt. rewrite length_fmap in Hlt. lia.
Qed.

Lemma ring_size_decr h d x xs :
  ring h d (x :: xs) →
  size_decr (N.of_nat (length (x :: xs))) = N.of_nat (length xs).
Proof.
  intros [_ _ Hnd Hv]. apply size_decr_of_nat.
  apply valid_ptrs_length in Hv; [|done].
  simpl length in *. rewrite length_fmap in Hv. lia.
Qed.

Lemma NoDup_snoc_fresh (l : list N) p : NoDup l → p ∉ l → NoDup (l ++ [p]).
Proof. intros Hnd Hp. rewrite <- Permutation_cons_append. by apply NoDup_cons. Qed.

Lemma ring_snoc_ptrs d xs p v :
  NoDup (d :: xs.*1) → Forall valid_ptr (d :: xs.*1) →
  p ∉ d :: xs.*1 → valid_ptr p →
  NoDup (d :: (xs ++ [(p, v)]).*1) ∧ Forall valid_ptr (d :: (xs ++ [(p, v)]).*1).
Proof.
  intros Hnd Hv Hp Hvp. rewrite fmap_app. cbn. split.
  - by apply (NoDup_snoc_fresh (d :: xs.*1)).
  - apply (Forall_app _ (d :: xs.*1)). split; [done|by apply Forall_singleton].
Qed.

Lemma ring_cons_ptrs d xs p v :
  NoDup (d :: xs.*1) → Forall valid_ptr (d :: xs.*1) →
  p ∉ d :: xs.*1 → valid_ptr p →
  NoDup (d :: ((p, v) :: xs).*1) ∧ Forall valid_ptr (d :: ((p, v) :: xs).*1).
Proof.
  intros Hnd Hv Hp Hvp. cbn. split.
  - eapply (NoDup_Permutation_proper _ _ (Permutation_swap _ _ _)).
    by apply NoDup_cons.
  - apply Forall_cons in Hv as [??]. by repeat apply Forall_cons_2.
Qed.

(** [push_back_] splices a fresh node after the last one: the ring grows at
    the back, [size_] does not wrap, and no cell outside the ring and the
    new node is written. *)
Lemma push_back__spec h d xs p v :
  ring h d xs → h !! p = None → valid_ptr p →
  ∃ h', push_back_ d p (<[p := CNode {| prev := nullptr; next := nullptr |} v]> h)
          = Ret tt h'
        ∧ ring h' d (xs ++ [(p, v)])
        ∧ ∀ k, k ∉ p :: d :: xs.*1 → h' !! k = h !! k.
Proof.
  intros Hr Hp Hvp.
  pose proof (ring_fresh _ _ _ _ Hr Hp) as Hfr.
  pose proof (ring_size_incr _ _ _ _ Hr Hp Hvp) as Hsz.
  destruct Hr as [Hd Hn Hnd Hv].
  destruct (ring_snoc_ptrs d xs p v Hnd Hv Hfr Hvp) as [Hnd' Hv'].
  assert (p ≠ d) as Hpd by set_solver.
  destruct xs as [|t xs _] using rev_ind.
  - cbn in *. revert Hd Hsz. generalize (N.of_nat 0). intros n Hd Hsz.
    eexists. split_and!.
    + exec. simplify_map_eq. cbn. simplify_map_eq. cbn. reflexivity.
    + rewrite Hsz. split; [|  |done|done]; cbn.
      * by simplify_map_eq.
      * apply holds_singleton. by simplify_map_eq.
    + intros k Hk. assert (k ≠ p ∧ k ≠ d) as [??] by set_solver.
      by simplify_map_eq.
  - rewrite last_ptr_snoc, head_ptr_app in Hd. cbn in Hd.
    rewrite node_cells_snoc, holds_app, holds_singleton in Hn.
    destruct Hn as [Hn Ht].
    assert (t.1 ≠ d ∧ t.1 ≠ p ∧ (t.1 ∉ xs.*1) ∧ (d ∉ xs.*1) ∧ (p ∉ xs.*1))
      as (Htd & Htp & Htx & Hdx & Hpx).
    { rewrite fmap_app in Hnd, Hfr. cbn in Hnd, Hfr.
      apply NoDup_cons in Hnd as [Hd1 Hnd]. apply NoDup_app in Hnd as (_ & Hnd & _).
      split_and!; [set_solver|set_solver| |set_solver|set_solver].
      intros Hin. apply (Hnd _ Hin). by left. }
    revert Hd Hsz.
    match goal with |- context [Some (N.of_nat ?l)] => generalize (N.of_nat l) end.
    intros n Hd Hsz. eexists. split_and!.
    + exec. simplify_map_eq. cbn. simplify_map_eq. cbn. simplify_map_eq. cbn. reflexivity.
    + rewrite Hsz. split; [| |done|done].
      * rewrite last_ptr_snoc, !head_ptr_app. cbn. simplify_map_eq.
        do 3 f_equal. rewrite !length_app. cbn. lia.
      * rewrite node_cells_snoc, node_cells_snoc, last_ptr_snoc. cbn.
        rewrite !holds_app, !holds_singleton. split_and!.
        -- eapply holds_nodes_frame; [|exact Hn].
           intros k Hk. assert (k ≠ d ∧ k ≠ p ∧ k ≠ t.1) as (?&?&?) by set_solver.
           by simplify_map_eq.
        -- by simplify_map_eq.
        -- by simplify_map_eq.
    + intros k Hk. rewrite fmap_app in Hk. cbn in Hk.
      assert (k ≠ p ∧ k ≠ d ∧ k ≠ t.1) as (?&?&?) by set_solver.
      by simplify_map_eq.
Qed.

(** [push_front_] splices a fresh node before the first one. *)
Lemma push_front__spec h d xs p v :
  ring h d xs → h !! p = None → valid_ptr p →
  ∃ h', push_front_ d p (<[p := CNode {| prev := nullptr; next := nullptr |} v]> h)
          = Ret tt h'
        ∧ ring h' d ((p, v) :: xs)
        ∧ ∀ k, k ∉ p :: d :: xs.*1 → h' !! k = h !! k.
Proof.
  intros Hr Hp Hvp.
  pose proof (ring_fresh _ _ _ _ Hr Hp) as Hfr.
  pose proof (ring_size_incr _ _ _ _ Hr Hp Hvp) as Hsz.
  destruct Hr as [Hd Hn Hnd Hv].
  destruct (ring_cons_ptrs d xs p v Hnd Hv Hfr Hvp) as [Hnd' Hv'].
  assert (p ≠ d) as Hpd by set_solver.
  destruct xs as [|t xs].
  - cbn in *. revert Hd Hsz. generalize (N.of_nat 0). intros n Hd Hsz.
    eexists. split_and!.
    + exec. simplify_map_eq. cbn. simplify_map_eq. cbn. reflexivity.
    + rewrite Hsz. split; [|  |done|done]; cbn.
      * by simplify_map_eq.
      * apply holds_singleton. by simplify_map_eq.
    + intros k Hk. assert (k ≠ p ∧ k ≠ d) as [??] by set_solver.
      by simplify_map_eq.
  - cbn [head_ptr node_cells] in Hd, Hn. rewrite holds_cons in Hn.
    rewrite last_ptr_cons in Hd. destruct Hn as [Ht Hn].
    assert (t.1 ≠ d ∧ t.1 ≠ p ∧ (t.1 ∉ xs.*1) ∧ (d ∉ xs.*1) ∧ (p ∉ xs.*1))
      as (Htd & Htp & Htx & Hdx & Hpx).
    { cbn in Hnd, Hfr. apply NoDup_cons in Hnd as [Hd1 Hnd].
      apply NoDup_cons in Hnd as [Ht1 Hnd]. set_solver. }
    revert Hd Hsz.
    match goal with |- context [Some (N.of_nat ?l)] => generalize (N.of_nat l) end.
    intros n Hd Hsz. eexists. split_and!.
    + exec. simplify_map_eq. cbn. simplify_map_eq. cbn. simplify_map_eq. cbn. reflexivity.
    + rewrite Hsz. split; [| |done|done].
      * rewrite !last_ptr_cons. cbn. by simplify_map_eq.
      * cbn [head_ptr node_cells fst snd]. rewrite !holds_cons. split_and!.
        -- by simplify_map_eq.
        -- by simplify_map_eq.
        -- eapply holds_nodes_frame; [|exact Hn].
           intros k Hk. assert (k ≠ d ∧ k ≠ p ∧ k ≠ t.1) as (?&?&?) by set_solver.
           by simplify_map_eq.
    + intros k Hk. cbn in Hk.
      assert (k ≠ p ∧ k ≠ d ∧ k ≠ t.1) as (?&?&?) by set_solver.
      by simplify_map_eq.
Qed.

Lemma ring_tail_ptrs d t xs :
  NoDup (d :: (t :: xs).*1) → Forall valid_ptr (d :: (t :: xs).*1) →
  NoDup (d :: xs.*1) ∧ Forall valid_ptr (d :: xs.*1).
Proof.
  cbn. intros Hnd Hv. split.
  - apply NoDup_cons in Hnd as [Hd Hnd]. apply NoDup_cons in Hnd as [Ht Hnd].
    apply NoDup_cons. set_solver.
  - apply Forall_cons in Hv as [? Hv]. apply Forall_cons in Hv as [? Hv].
    by apply Forall_cons.
Qed.

Lemma ring_init_ptrs d xs t :
  NoDup (d :: (xs ++ [t]).*1) → Forall valid_ptr (d :: (xs ++ [t]).*1) →
  NoDup (d :: xs.*1) ∧ Forall valid_ptr (d :: xs.*1).
Proof.
  rewrite fmap_app. cbn. intros Hnd Hv. split.
  - apply (NoDup_app (d :: xs.*1)) in Hnd. tauto.
  - apply (Forall_app _ (d :: xs.*1)) in Hv. tauto.
Qed.

(** [pop_front] on a ring that is not empty unlinks and frees the first
    node. *)
Lemma pop_front_spec h d t xs :
  ring h d (t :: xs) →
  ∃ h', pop_front d h = Ret tt h'
        ∧ ring h' d xs
        ∧ h' !! t.1 = None
        ∧ ∀ k, k ∉ d :: (t :: xs).*1 → h' !! k = h !! k.
Proof.
  intros Hr. pose proof (ring_size_decr _ _ _ _ Hr) as Hsz.
  destruct Hr as [Hd Hn Hnd Hv].
  destruct (ring_tail_ptrs d t xs Hnd Hv) as [Hnd' Hv'].
  cbn [head_ptr node_cells] in Hd, Hn. rewrite holds_cons in Hn.
  destruct Hn as [Ht Hn].
  assert (t.1 ≠ d ∧ (t.1 ∉ xs.*1) ∧ (d ∉ xs.*1)) as (Htd & Htx & Hdx).
  { cbn in Hnd. apply NoDup_cons in Hnd as [Hd1 Hnd].
    apply NoDup_cons in Hnd as [Ht1 Hnd]. set_solver. }
  destruct xs as [|u xs].
  - cbn in *. revert Hd Hsz. generalize (N.of_nat 0). intros n Hd Hsz.
    eexists. split_and!.
    + exec. simplify_map_eq. cbn. simplify_map_eq. cbn. reflexivity.
    + rewrite Hsz. split; [| |done|done]; cbn.
      * by simplify_map_eq.
      * constructor.
    + by simplify_map_eq.
    + intros k Hk. assert (k ≠ d ∧ k ≠ t.1) as [??] by set_solver.
      by simplify_map_eq.
  - cbn [head_ptr node_cells] in Ht, Hn. rewrite holds_cons in Hn.
    destruct Hn as [Hu Hn]. rewrite !last_ptr_cons in Hd.
    assert (u.1 ≠ d ∧ u.1 ≠ t.1 ∧ (u.1 ∉ xs.*1)) as (Hud & Hut & Hux).
    { cbn in Hnd'. apply NoDup_cons in Hnd' as [Hd1 Hnd'].
      apply NoDup_cons in Hnd' as [Ht1 Hnd']. set_solver. }
    revert Hd Hsz.
    match goal with |- context [Some (N.of_nat ?l)] => generalize (N.of_nat l) end.
    intros n Hd Hsz. eexists. split_and!.
    + exec. simplify_map_eq. cbn. simplify_map_eq. cbn. simplify_map_eq. cbn. reflexivity.
    + rewrite Hsz. split; [| |done|done].
      * rewrite last_ptr_cons. cbn. by simplify_map_eq.
      * cbn [head_ptr node_cells fst snd]. rewrite !holds_cons. split.
        -- by simplify_map_eq.
        -- eapply holds_nodes_frame; [|exact Hn].
           intros k Hk. assert (k ≠ d ∧ k ≠ u.1 ∧ k ≠ t.1) as (?&?&?) by set_solver.
           by simplify_map_eq.
    + by simplify_map_eq.
    + intros k Hk. cbn in Hk.
      assert (k ≠ d ∧ k ≠ t.1 ∧ k ≠ u.1) as (?&?&?) by set_solver.
      by simplify_map_eq.
Qed.

(** [pop_back] on a ring that is not empty unlinks and frees the last
    node. *)
Lemma pop_back_spec h d xs t :
  ring h d (xs ++ [t]) →
  ∃ h', pop_back d h = Ret tt h'
        ∧ ring h' d xs
        ∧ h' !! t.1 = None
        ∧ ∀ k, k ∉ d :: (xs ++ [t]).*1 → h' !! k = h !! k.
Proof.
  intros Hr.
  assert (size_decr (N.of_nat (length (xs ++ [t]))) = N.of_nat (length xs)) as Hsz.
  { destruct Hr as [_ _ Hnd Hv]. rewrite length_app. cbn.
    replace (length xs + 1)%nat with (S (length xs)) by lia.
    apply size_decr_of_nat. apply valid_ptrs_length in Hv; [|done].
    cbn in Hv. rewrite length_fmap, length_app in Hv. cbn in Hv. lia. }
  destruct Hr as [Hd Hn Hnd Hv].
  destruct (ring_init_ptrs d xs t Hnd Hv) as [Hnd' Hv'].
  rewrite last_ptr_snoc, head_ptr_app in Hd. cbn in Hd.
  rewrite node_cells_snoc, holds_app, holds_singleton in Hn.
  destruct Hn as [Hn Ht].
  assert (t.1 ≠ d ∧ (t.1 ∉ xs.*1) ∧ (d ∉ xs.*1)) as (Htd & Htx & Hdx).
  { rewrite fmap_app in Hnd. cbn in Hnd.
    apply NoDup_cons in Hnd as [Hd1 Hnd]. apply NoDup_app in Hnd as (_ & Hnd & _).
    split_and!; [set_solver| |set_solver].
    intros Hin. apply (Hnd _ Hin). by left. }
  destruct xs as [|u xs _] using rev_ind.
  - cbn in *. revert Hd Hsz. generalize (N.of_nat 0). intros n Hd Hsz.
    eexists. split_and!.
    + exec. simplify_map_eq. cbn. simplify_map_eq. cbn. reflexivity.
    + rewrite Hsz. split; [| |done|done]; cbn.
      * by simplify_map_eq.
      * constructor.
    + by simplify_map_eq.
    + intros k Hk. assert (k ≠ d ∧ k ≠ t.1) as [??] by set_solver.
      by simplify_map_eq.
  - rewrite last_ptr_snoc in Ht. rewrite head_ptr_app in Hd. cbn in Hd.
    rewrite node_cells_snoc, holds_app, holds_singleton in Hn.
    destruct Hn as [Hn Hu].
    assert (u.1 ≠ d ∧ u.1 ≠ t.1 ∧ (u.1 ∉ xs.*1)) as (Hud & Hut & Hux).
    { rewrite fmap_app in Hnd', Htx. cbn in Hnd', Htx.
      apply NoDup_cons in Hnd' as [Hd1 Hnd']. apply NoDup_app in Hnd' as (_ & Hnd' & _).
      split_and!; [set_solver|set_solver|].
      intros Hin. apply (Hnd' _ Hin). by left. }
    revert Hd Hsz.
    match goal with |- context [Some (N.of_nat ?l)] => generalize (N.of_nat l) end.
    intros n Hd Hsz. eexists. split_and!.
    + exec. simplify_map_eq. cbn. simplify_map_eq. cbn. simplify_map_eq. cbn. reflexivity.
    + rewrite Hsz. split; [| |done|done].
      * rewrite last_ptr_snoc, head_ptr_app. cbn. by simplify_map_eq.
      * rewrite node_cells_snoc, holds_app, holds_singleton. split.
        -- eapply holds_nodes_frame; [|exact Hn].
           intros k Hk. rewrite fmap_app in Hdx, Htx.
           assert (k ≠ d ∧ k ≠ u.1 ∧ k ≠ t.1) as (?&?&?) by set_solver.
           by simplify_map_eq.
        -- by simplify_map_eq.
    + by simplify_map_eq.
    + intros k Hk. rewrite !fmap_app in Hk. cbn in Hk.
      assert (k ≠ d ∧ k ≠ t.1 ∧ k ≠ u.1) as (?&?&?) by set_solver.
      by simplify_map_eq.
Qed.


(** *** Traversal and the queries *)

(** The traversal loop walks a chain of nodes, collecting their elements,
    and goes on from the cell the chain ends in. *)
Lemma for_loop_nodes h pp xs q last fuel acc :
  holds h (node_cells pp xs q) → last ∉ xs.*1 →
  for_loop (length xs + fuel) {| current_ := head_ptr xs q |}
    {| current_ := last |} collect acc h
  = for_loop fuel {| current_ := q |} {| current_ := last |} collect
      (acc ++ xs.*2) h.
Proof.
  revert pp acc. induction xs as [|x xs IH]; intros pp acc Hn Hl.
  - cbn. by rewrite app_nil_r.
  - cbn [node_cells] in Hn. rewrite holds_cons in Hn. destruct Hn as [Hx Hn].
    cbn [length Nat.add for_loop head_ptr].
    unfold iter_ne, iter_eq. cbn [current_].
    rewrite bool_decide_eq_false_2 by set_solver. cbn [negb].
    unfold collect at 1. exec. cbn [current_]. repeat (rewrite Hx; cbn).
    rewrite (IH x.1 (acc ++ [x.2])); [|done|set_solver].
    by rewrite <- app_assoc.
Qed.

(** On a ring a traversal with more fuel than nodes returns the elements
    in order. *)
Lemma traverse_spec h d xs fuel :
  ring h d xs → length xs < fuel → traverse fuel d h = Ret xs.*2 h.
Proof.
  intros [Hd Hn Hnd Hv] Hf.
  replace fuel with (length xs + S (fuel - length xs - 1)) by lia.
  unfold traverse, range_for, begin, end_, load_next, load_base, bind, ret.
  rewrite Hd. cbn [base_of next].
  rewrite (for_loop_nodes h d xs d d); [|done|].
  - cbn. unfold iter_ne, iter_eq. by rewrite bool_decide_eq_true_2.
  - by apply NoDup_cons in Hnd as [? _].
Qed.

(** A chain of nodes that ends in a cell that is neither the [last] iterator
    nor a node: the loop walks off the chain. *)
Lemma for_loop_off_chain h pp xs q last :
  holds h (node_cells pp xs q) → last ∉ xs.*1 → q ≠ last →
  as_node q h = UB →
  ∀ fuel acc,
    for_loop fuel {| current_ := head_ptr xs q |} {| current_ := last |}
      collect acc h
    = if decide (fuel ≤ length xs) then OutOfFuel else UB.
Proof.
  intros Hn Hl Hq Hub. revert pp Hn Hl.
  induction xs as [|x xs IH]; intros pp Hn Hl fuel acc.
  - destruct fuel as [|fuel]; [done|]. cbn [length head_ptr for_loop].
    unfold iter_ne, iter_eq. cbn [current_].
    rewrite bool_decide_eq_false_2 by done. cbn [negb].
    unfold deref, bind. cbn [current_]. rewrite Hub.
    by rewrite decide_False by lia.
  - cbn [node_cells] in Hn. rewrite holds_cons in Hn. destruct Hn as [Hx Hn].
    destruct fuel as [|fuel]; [done|]. cbn [length head_ptr for_loop].
    unfold iter_ne, iter_eq. cbn [current_].
    rewrite bool_decide_eq_false_2 by set_solver. cbn [negb].
    unfold collect at 1. exec. cbn [current_]. repeat (rewrite Hx; cbn).
    rewrite (IH x.1); [|done|set_solver].
    destruct (decide (fuel ≤ length xs)), (decide (S fuel ≤ S (length xs)));
      done || lia.
Qed.

Lemma length_zero_iff_nil xs : N.of_nat (length xs) = 0%N ↔ xs = [].
Proof. destruct xs; cbn; split; (done || lia). Qed.

Lemma empty_spec h d xs :
  ring h d xs → empty d h = Ret (bool_decide (xs = [])) h.
Proof.
  intros [Hd _ _ _]. exec. rewrite Hd. do 2 f_equal.
  apply bool_decide_ext, length_zero_iff_nil.
Qed.

Lemma size_spec h d xs : ring h d xs → size d h = Ret (N.of_nat (length xs)) h.
Proof. intros [Hd _ _ _]. unfold Sentinel.size, load_size. by rewrite Hd. Qed.

Lemma front_spec h d t xs : ring h d (t :: xs) → front d h = Ret t.2 h.
Proof.
  intros [Hd Hn _ _]. cbn [node_cells head_ptr] in Hd, Hn.
  rewrite holds_cons in Hn. destruct Hn as [Ht _].
  exec. rewrite Hd. cbn. by rewrite !Ht.
Qed.

Lemma back_spec h d xs t : ring h d (xs ++ [t]) → back d h = Ret t.2 h.
Proof.
  intros [Hd Hn _ _]. rewrite last_ptr_snoc in Hd.
  rewrite node_cells_snoc, holds_app, holds_singleton in Hn. destruct Hn as [_ Ht].
  exec. rewrite Hd. cbn. by rewrite !Ht.
Qed.

(** [clear] with more fuel than nodes frees every node and leaves the empty
    ring. *)
Lemma clear_spec d xs : ∀ h fuel,
  ring h d xs → length xs < fuel →
  ∃ h', clear fuel d h = Ret tt h'
        ∧ ring h' d []
        ∧ (∀ k, k ∈ xs.*1 → h' !! k = None)
        ∧ (∀ k, k ∉ d :: xs.*1 → h' !! k = h !! k).
Proof.
  induction xs as [|x xs IH]; intros h fuel Hr Hf.
  - destruct fuel as [|fuel]; [cbn in Hf; lia|].
    exists h. cbn [clear]. unfold bind at 1. rewrite (empty_spec _ _ _ Hr).
    rewrite bool_decide_eq_true_2 by done. split_and!; [done|done| |done].
    intros k Hk. cbn in Hk. by apply elem_of_nil in Hk.
  - destruct fuel as [|fuel]; [cbn in Hf; lia|].
    cbn [clear]. unfold bind at 1. rewrite (empty_spec _ _ _ Hr).
    rewrite bool_decide_eq_false_2 by done.
    destruct (pop_front_spec _ _ _ _ Hr) as (h1 & Hpop & Hr1 & Hx1 & Hfr1).
    unfold bind. rewrite Hpop.
    destruct (IH h1 fuel Hr1) as (h2 & Hcl & Hr2 & Hx2 & Hfr2); [cbn in Hf; lia|].
    exists h2. split_and!; [done|done| |].
    + intros k Hk. cbn in Hk. apply elem_of_cons in Hk as [->|Hk]; [|by apply Hx2].
      destruct (decide (x.1 ∈ d :: xs.*1)) as [Hin|Hin].
      * destruct Hr as [_ _ Hnd _]. cbn in Hnd.
        apply NoDup_cons in Hnd as [Hd1 Hnd]. apply NoDup_cons in Hnd as [Ht1 Hnd].
        set_solver.
      * by rewrite Hfr2.
    + intros k Hk. cbn in Hk. rewrite Hfr2 by set_solver. by apply Hfr1.
Qed.

Lemma Deque_default_eq h d :
  h !! d = None →
  Deque_default d h
  = Ret tt (<[d := CDeque {| prev := d; next := d |} (Some 0%N)]> h).
Proof.
  intros Hd. unfold Deque_default. exec. rewrite Hd. simplify_map_eq. cbn.
  simplify_map_eq. cbn. by rewrite !insert_insert_eq.
Qed.

Lemma ring_empty_intro h d :
  h !! d = Some (CDeque {| prev := d; next := d |} (Some 0%N)) → valid_ptr d →
  ring h d [].
Proof.
  intros Hd Hv. split; cbn; [done|constructor|apply NoDup_singleton|].
  by apply Forall_singleton.
Qed.

Lemma Deque_default_spec h d :
  h !! d = None → valid_ptr d →
  ∃ h', Deque_default d h = Ret tt h' ∧ ring h' d []
        ∧ ∀ k, k ≠ d → h' !! k = h !! k.
Proof.
  intros Hd Hv. eexists. split; [by apply Deque_default_eq|]. split.
  - apply ring_empty_intro; [|done]. by simplify_map_eq.
  - intros k Hk. by simplify_map_eq.
Qed.


Section ops.
Context (A : allocator) (copy_throws : T → option exn).

(** [new node_(...)] either throws, leaving the heap as it was, or returns
    fresh storage holding the element with null links. *)
Lemma new_node__cases h (c : exn + T) :
  match new_node_ A c h with
  | Ret p h' =>
      ∃ v, c = inr v ∧ alloc A (dom h) = Some p ∧ h !! p = None ∧ valid_ptr p
           ∧ h' = <[p := CNode {| prev := nullptr; next := nullptr |} v]> h
  | Throw e h' =>
      h' = h ∧ ((alloc A (dom h) = None ∧ e = bad_alloc)
                ∨ (is_Some (alloc A (dom h)) ∧ c = inl e))
  | _ => False
  end.
Proof.
  unfold new_node_. destruct (alloc A (dom h)) as [p|] eqn:Ha.
  - destruct c as [e|v].
    + split; [done|]. right. eauto.
    + destruct (alloc_fresh A _ _ Ha) as [Hfr Hv].
      exists v. split_and!; [done|done| |done|done].
      by apply not_elem_of_dom.
  - split; [done|]. by left.
Qed.

Lemma emplace_back_spec h d xs (c : exn + T) :
  ring h d xs →
  match emplace_back A d c h with
  | Ret _ h' =>
      ∃ p v, c = inr v ∧ h !! p = None ∧ ring h' d (xs ++ [(p, v)])
             ∧ ∀ k, k ∉ p :: d :: xs.*1 → h' !! k = h !! k
  | Throw e h' => h' = h ∧ new_node_ A c h = Throw e h
  | _ => False
  end.
Proof.
  intros Hr. unfold emplace_back, bind.
  pose proof (new_node__cases h c) as Hnew.
  destruct (new_node_ A c h) as [p h1|e h1| |]; [| |done|done].
  - destruct Hnew as (v & -> & Ha & Hp & Hvp & ->).
    destruct (push_back__spec h d xs p v Hr Hp Hvp) as (h' & -> & Hr' & Hfr).
    by exists p, v.
  - by destruct Hnew as [-> _].
Qed.

Lemma emplace_front_spec h d xs (c : exn + T) :
  ring h d xs →
  match emplace_front A d c h with
  | Ret _ h' =>
      ∃ p v, c = inr v ∧ h !! p = None ∧ ring h' d ((p, v) :: xs)
             ∧ ∀ k, k ∉ p :: d :: xs.*1 → h' !! k = h !! k
  | Throw e h' => h' = h ∧ new_node_ A c h = Throw e h
  | _ => False
  end.
Proof.
  intros Hr. unfold emplace_front, bind.
  pose proof (new_node__cases h c) as Hnew.
  destruct (new_node_ A c h) as [p h1|e h1| |]; [| |done|done].
  - destruct Hnew as (v & -> & Ha & Hp & Hvp & ->).
    destruct (push_front__spec h d xs p v Hr Hp Hvp) as (h' & -> & Hr' & Hfr).
    by exists p, v.
  - by destruct Hnew as [-> _].
Qed.

Lemma copy_ctor_inr v w : copy_ctor copy_throws v = inr w → w = v ∧ copy_throws v = None.
Proof. unfold copy_ctor. destruct (copy_throws v); naive_solver. Qed.

Lemma push_back_spec h d xs v :
  ring h d xs →
  match push_back A copy_throws d v h with
  | Ret _ h' =>
      ∃ p, h !! p = None ∧ ring h' d (xs ++ [(p, v)])
           ∧ ∀ k, k ∉ p :: d :: xs.*1 → h' !! k = h !! k
  | Throw e h' => h' = h ∧ new_node_ A (copy_ctor copy_throws v) h = Throw e h
  | _ => False
  end.
Proof.
  intros Hr. pose proof (emplace_back_spec h d xs (copy_ctor copy_throws v) Hr) as H.
  change (push_back A copy_throws d v h)
    with (emplace_back A d (copy_ctor copy_throws v) h).
  destruct (emplace_back A d (copy_ctor copy_throws v) h); [|done..].
  destruct H as (p & w & Hc & Hp & Hr' & Hfr).
  apply copy_ctor_inr in Hc as [-> _]. by exists p.
Qed.

Lemma push_front_spec h d xs v :
  ring h d xs →
  match push_front A copy_throws d v h with
  | Ret _ h' =>
      ∃ p, h !! p = None ∧ ring h' d ((p, v) :: xs)
           ∧ ∀ k, k ∉ p :: d :: xs.*1 → h' !! k = h !! k
  | Throw e h' => h' = h ∧ new_node_ A (copy_ctor copy_throws v) h = Throw e h
  | _ => False
  end.
Proof.
  intros Hr. pose proof (emplace_front_spec h d xs (copy_ctor copy_throws v) Hr) as H.
  change (push_front A copy_throws d v h)
    with (emplace_front A d (copy_ctor copy_throws v) h).
  destruct (emplace_front A d (copy_ctor copy_throws v) h); [|done..].
  destruct H as (p & w & Hc & Hp & Hr' & Hfr).
  apply copy_ctor_inr in Hc as [-> _]. by exists p.
Qed.


End ops.
End ring_facts.

Section moving.
Context {T : Type}.
Abbreviation heap := (gmap N (@cell T)).
Implicit Types (h : heap) (xs : list (N * T)) (p q d : N) (t x : N * T).

(** *** Moving a ring to another sentinel *)

Lemma set_empty__eq h d b s :
  h !! d = Some (CDeque b s) →
  set_empty_ d h = Ret tt (<[d := CDeque {| prev := d; next := d |} (Some 0%N)]> h).
Proof.
  intros Hd. exec. rewrite Hd. simplify_map_eq. cbn. simplify_map_eq. cbn.
  by rewrite !insert_insert_eq.
Qed.

Lemma move_from__nonempty h this other xs b s :
  ring h other xs → xs ≠ [] → h !! this = Some (CDeque b s) → this ≠ other →
  move_from_ this other h = Ret tt (moved h this other xs).
Proof.
  intros Hr Hne Ht Hto. unfold move_from_. unfold bind at 1.
  rewrite (empty_spec _ _ _ Hr), bool_decide_eq_false_2 by done.
  destruct Hr as [Hd _ _ _].
  unfold bind at 1. unfold load_base. rewrite Hd. cbn [base_of].
  unfold bind at 1. unfold store_base at 1. rewrite Ht. cbn [with_base].
  unfold bind at 1. unfold load_size. rewrite lookup_insert_ne, Hd by done.
  unfold bind at 1. unfold store_size. rewrite lookup_insert_eq.
  rewrite insert_insert_eq.
  erewrite set_empty__eq; [done|]. by rewrite lookup_insert_ne, Hd.
Qed.

Lemma move_from__empty h this other b s :
  ring h other [] → h !! this = Some (CDeque b s) →
  move_from_ this other h
  = Ret tt (<[this := CDeque {| prev := this; next := this |} (Some 0%N)]> h).
Proof.
  intros Hr Ht. unfold move_from_. unfold bind at 1.
  rewrite (empty_spec _ _ _ Hr), bool_decide_eq_true_2 by done.
  by erewrite set_empty__eq.
Qed.

Lemma moved_source_empty h this other xs :
  valid_ptr other → ring (moved h this other xs) other [].
Proof.
  intros Hv. apply ring_empty_intro; [|done]. unfold moved. by simplify_map_eq.
Qed.

Lemma moved_nodes h this other xs :
  ring h other xs → this ∉ other :: xs.*1 →
  holds (moved h this other xs) (node_cells other xs other).
Proof.
  intros [_ Hn Hnd _] Hfr. eapply holds_nodes_frame; [|exact Hn].
  intros k Hk. unfold moved. apply NoDup_cons in Hnd as [Hd _].
  assert (k ≠ other ∧ k ≠ this) as [??] by set_solver. by simplify_map_eq.
Qed.

(** The traversal of the destination walks the nodes and then steps onto the
    source's sentinel, which is not [this->end()] and is not a node. *)
Lemma moved_traverse h this other xs fuel :
  ring h other xs → this ∉ other :: xs.*1 →
  traverse fuel this (moved h this other xs)
  = if decide (fuel ≤ length xs) then OutOfFuel else UB.
Proof.
  intros Hr Hfr. pose proof (moved_nodes _ _ _ _ Hr Hfr) as Hn.
  assert (this ≠ other) as Hto by set_solver.
  unfold traverse, range_for, begin, end_, load_next, load_base, bind, ret.
  unfold moved at 1. rewrite lookup_insert_ne, lookup_insert_eq by done.
  cbn [base_of next].
  apply (for_loop_off_chain _ other); [done|set_solver|done|].
  unfold as_node, moved. by rewrite lookup_insert_eq.
Qed.

Lemma moved_not_ring h this other xs ys :
  ring h other xs → this ∉ other :: xs.*1 →
  ¬ ring (moved h this other xs) this ys.
Proof.
  intros Hr Hfr Hring.
  pose proof (traverse_spec _ _ _ (S (length xs + length ys)) Hring) as Htr.
  rewrite moved_traverse in Htr by done.
  rewrite decide_False in Htr by lia. discriminate Htr. lia.
Qed.

Lemma moved_size h this other xs :
  this ≠ other →
  Sentinel.size this (moved h this other xs)
  = Ret (N.of_nat (length xs)) (moved h this other xs).
Proof.
  intros Hto. unfold Sentinel.size, load_size, moved.
  by rewrite lookup_insert_ne, lookup_insert_eq.
Qed.

Lemma moved_front h this other t xs :
  ring h other (t :: xs) → this ∉ other :: (t :: xs).*1 →
  front this (moved h this other (t :: xs))
  = Ret t.2 (moved h this other (t :: xs)).
Proof.
  intros Hr Hfr. pose proof (moved_nodes _ _ _ _ Hr Hfr) as Hn.
  cbn [node_cells] in Hn. rewrite holds_cons in Hn. destruct Hn as [Ht _].
  assert (this ≠ other) as Hto by set_solver.
  exec. unfold moved at 1. rewrite lookup_insert_ne, lookup_insert_eq by done.
  cbn. by rewrite !Ht.
Qed.

End moving.

(** *** Sequences of pushes, failure, self-assignment *)

Section pushing.
Context {T : Type}.
Abbreviation heap := (gmap N (@cell T)).
Implicit Types (h : heap) (xs : list (N * T)) (p q d : N) (t x : N * T).

Lemma ring_visits h d xs : ring h d xs → visits h d xs.*2.
Proof.
  intros Hr fuel Hf. apply traverse_spec; [done|]. by rewrite length_fmap in Hf.
Qed.

Section ops.
Context (A : allocator) (copy_throws : T → option exn).

Lemma new_node__throw_cause h v e :
  new_node_ A (copy_ctor copy_throws v) h = Throw e h →
  e = bad_alloc ∨ copy_throws v = Some e.
Proof.
  intros Hnew. pose proof (new_node__cases A h (copy_ctor copy_throws v)) as Hc.
  rewrite Hnew in Hc. destruct Hc as [_ [[_ ->]|[_ Hc]]]; [by left|right].
  unfold copy_ctor in Hc. destruct (copy_throws v); naive_solver.
Qed.

Lemma push_back_all_spec d (vs : list T) : ∀ h xs,
  ring h d xs →
  match push_back_all A copy_throws d vs h with
  | Ret _ h' => ∃ ys, ys.*2 = vs ∧ ring h' d (xs ++ ys)
  | Throw e h' =>
      (e = bad_alloc ∨ ∃ v, v ∈ vs ∧ copy_throws v = Some e)
      ∧ ∃ ys, ring h' d (xs ++ ys) ∧ ys.*2 `prefix_of` vs
  | _ => False
  end.
Proof.
  induction vs as [|v vs IH]; intros h xs Hr.
  - cbn. exists []. by rewrite app_nil_r.
  - cbn [push_back_all]. unfold bind.
    pose proof (push_back_spec A copy_throws h d xs v Hr) as Hpush.
    destruct (push_back A copy_throws d v h) as [[] h1|e h1| |]; [| |done..].
    + destruct Hpush as (p & Hp & Hr1 & _).
      specialize (IH h1 _ Hr1).
      destruct (push_back_all A copy_throws d vs h1) as [[] h2|e h2| |]; [| |done..].
      * destruct IH as (ys & Hys & Hr2). exists ((p, v) :: ys).
        rewrite <- app_assoc in Hr2. split; [cbn; by f_equal|done].
      * destruct IH as ([->|(w & Hw & He)] & ys & Hr2 & Hpre).
        -- split; [by left|]. exists ((p, v) :: ys).
           rewrite <- app_assoc in Hr2. split; [done|]. cbn. by apply prefix_cons.
        -- split; [right; exists w; split; [by right|done]|].
           exists ((p, v) :: ys).
           rewrite <- app_assoc in Hr2. split; [done|]. cbn. by apply prefix_cons.
    + destruct Hpush as [-> Hnew]. split.
      * apply new_node__throw_cause in Hnew as [->|He]; [by left|].
        right. exists v. split; [by left|done].
      * exists []. rewrite app_nil_r. split; [done|]. apply prefix_nil.
Qed.

Lemma push_front_all_spec d (vs : list T) : ∀ h xs,
  ring h d xs →
  match push_front_all A copy_throws d vs h with
  | Ret _ h' => ∃ ys, ys.*2 = rev vs ∧ ring h' d (ys ++ xs)
  | Throw e h' =>
      (e = bad_alloc ∨ ∃ v, v ∈ vs ∧ copy_throws v = Some e)
      ∧ ∃ ys, ring h' d (ys ++ xs)
  | _ => False
  end.
Proof.
  induction vs as [|v vs IH]; intros h xs Hr.
  - cbn. by exists [].
  - cbn [push_front_all]. unfold bind.
    pose proof (push_front_spec A copy_throws h d xs v Hr) as Hpush.
    destruct (push_front A copy_throws d v h) as [[] h1|e h1| |]; [| |done..].
    + destruct Hpush as (p & Hp & Hr1 & _).
      specialize (IH h1 _ Hr1).
      destruct (push_front_all A copy_throws d vs h1) as [[] h2|e h2| |]; [| |done..].
      * destruct IH as (ys & Hys & Hr2). exists (ys ++ [(p, v)]).
        rewrite <- app_assoc. split; [|done].
        rewrite fmap_app, Hys. cbn. done.
      * destruct IH as ([->|(w & Hw & He)] & ys & Hr2).
        -- split; [by left|]. exists (ys ++ [(p, v)]). by rewrite <- app_assoc.
        -- split; [right; exists w; split; [by right|done]|].
           exists (ys ++ [(p, v)]). by rewrite <- app_assoc.
    + destruct Hpush as [-> Hnew]. split.
      * apply new_node__throw_cause in Hnew as [->|He]; [by left|].
        right. exists v. split; [by left|done].
      * by exists [].
Qed.

Lemma creation_fails_iff h (c : exn + T) e :
  creation_fails A c h e ↔ new_node_ A c h = Throw e h.
Proof.
  unfold creation_fails, new_node_. destruct (alloc A (dom h)) as [p|].
  - destruct c as [e'|v]; split.
    + intros [[? _]|[_ [= ->]]]; done.
    + intros [= ->]. right. eauto.
    + intros [[? _]|[_ ?]]; done.
    + done.
  - split.
    + intros [[_ ->]|[[? ?] _]]; done.
    + intros [= <-]. by left.
Qed.

Lemma strong_guarantee_intro h (c : exn + T) (op : @M T unit) :
  match op h with
  | Ret _ h' => ∃ v, c = inr v
  | Throw e h' => h' = h ∧ new_node_ A c h = Throw e h
  | _ => False
  end →
  (∀ e, new_node_ A c h = Throw e h → op h = Throw e h) →
  strong_guarantee A op c h.
Proof.
  intros Hop Hfail. split_and!.
  - intros e He. apply Hfail. by apply creation_fails_iff.
  - intros e h' Hthrow. rewrite Hthrow in Hop. destruct Hop as [-> Hnew].
    split; [|done]. by apply creation_fails_iff.
  - intros Hnofail. destruct (op h) as [[] h'|e h'| |]; [by eauto| |done..].
    destruct Hop as [_ Hnew]. apply creation_fails_iff in Hnew.
    by destruct (Hnofail e).
Qed.

(** C6.  Strong guarantee of [emplace_front], [emplace_back], [push_front]
    and [push_back] on a well-formed deque: when obtaining the node's storage
    or constructing its element fails, the operation throws that exception
    and leaves the heap, hence every link and [size_], exactly as it was;
    it throws in no other case; and when neither fails it returns. *)
Theorem push_strong_guarantee h d xs (c : exn + T) (v : T) :
  ring h d xs →
  strong_guarantee A (emplace_front A d c) c h
  ∧ strong_guarantee A (emplace_back A d c) c h
  ∧ strong_guarantee A (push_front A copy_throws d v) (copy_ctor copy_throws v) h
  ∧ strong_guarantee A (push_back A copy_throws d v) (copy_ctor copy_throws v) h.
Proof.
  intros Hr. split_and!; apply strong_guarantee_intro.
  - pose proof (emplace_front_spec A h d xs c Hr) as H.
    destruct (emplace_front A d c h); [|done..]. destruct H as (p & w & ? & _). eauto.
  - intros e He. unfold emplace_front, bind. by rewrite He.
  - pose proof (emplace_back_spec A h d xs c Hr) as H.
    destruct (emplace_back A d c h); [|done..]. destruct H as (p & w & ? & _). eauto.
  - intros e He. unfold emplace_back, bind. by rewrite He.
  - pose proof (emplace_front_spec A h d xs (copy_ctor copy_throws v) Hr) as H.
    change (push_front A copy_throws d v h)
      with (emplace_front A d (copy_ctor copy_throws v) h).
    destruct (emplace_front A d _ h); [|done..]. destruct H as (p & w & ? & _). eauto.
  - intros e He. unfold push_front, bind. by rewrite He.
  - pose proof (emplace_back_spec A h d xs (copy_ctor copy_throws v) Hr) as H.
    change (push_back A copy_throws d v h)
      with (emplace_back A d (copy_ctor copy_throws v) h).
    destruct (emplace_back A d _ h); [|done..]. destruct H as (p & w & ? & _). eauto.
  - intros e He. unfold push_back, bind. by rewrite He.
Qed.

(** C9.  Copy-assigning a deque to itself leaves it empty: [clear()] runs
    first, so the loop over the source, which is the same object, finds
    [begin() == end()] and copies nothing; the result is the heap [clear()]
    leaves. *)
Theorem self_copy_assign h d xs fuel :
  ring h d xs → length xs < fuel →
  ∃ h', copy_assign A copy_throws fuel d d h = Ret tt h'
        ∧ clear fuel d h = Ret tt h'
        ∧ ring h' d []
        ∧ empty d h' = Ret true h'.
Proof.
  intros Hr Hf.
  destruct (clear_spec d xs h fuel Hr Hf) as (h' & Hcl & Hr' & _).
  exists h'. split_and!; [|done|done|by rewrite (empty_spec _ _ _ Hr')].
  unfold copy_assign, bind. rewrite Hcl.
  destruct Hr' as [Hd _ _ _]. cbn in Hd.
  unfold range_for, begin, end_, load_next, load_base, bind, ret. rewrite Hd.
  destruct fuel as [|fuel]; [lia|]. cbn.
  unfold iter_ne, iter_eq. by rewrite bool_decide_eq_true_2.
Qed.

End ops.
End pushing.

(** *** Swapping with an empty side, round trips *)

Section swapping.
Context {T : Type}.
Abbreviation heap := (gmap N (@cell T)).
Implicit Types (h : heap) (xs : list (N * T)) (p q d : N) (t x : N * T).

Lemma holds_is_node h pp xs q k :
  holds h (node_cells pp xs q) → k ∈ xs.*1 → ∃ b v, h !! k = Some (CNode b v).
Proof.
  revert pp. induction xs as [|x xs IH]; intros pp Hn Hk.
  - by apply elem_of_nil in Hk.
  - cbn [node_cells] in Hn. rewrite holds_cons in Hn. destruct Hn as [Hx Hn].
    cbn in Hk. apply elem_of_cons in Hk as [->|Hk]; [eauto|].
    by apply (IH x.1).
Qed.

(** The sentinel of one ring is not a node of another. *)
Lemma ring_sentinel_not_node h a b xs ys :
  ring h a ys → ring h b xs → a ∉ xs.*1.
Proof.
  intros [Ha _ _ _] [_ Hn _ _] Hin.
  eapply holds_is_node in Hin as (c & v & Hc); [|exact Hn]. congruence.
Qed.

(** Two heaps that hold the same ring agree on its cells. *)
Lemma ring_agree h h' d xs k :
  ring h d xs → ring h' d xs → k ∈ d :: xs.*1 → h !! k = h' !! k.
Proof.
  intros [Hd Hn _ _] [Hd' Hn' _ _] Hk.
  apply elem_of_cons in Hk as [->|Hk]; [congruence|].
  rewrite <- (node_cells_fst d xs d) in Hk.
  apply list_elem_of_fmap in Hk as ([k' c] & -> & Hin). cbn.
  rewrite (holds_lookup _ _ _ _ Hn Hin). by rewrite (holds_lookup _ _ _ _ Hn' Hin).
Qed.

Lemma swap_empty_left h a b xs :
  ring h a [] → ring h b xs → xs ≠ [] →
  swap a b h = Ret tt (moved h a b xs) ∧ (a ∉ b :: xs.*1).
Proof.
  intros Ha Hb Hne.
  assert (a ∉ b :: xs.*1) as Hfr.
  { apply not_elem_of_cons. split; [|by eapply ring_sentinel_not_node].
    intros ->. destruct Ha as [Ha _ _ _], Hb as [Hb _ _ _].
    rewrite Ha in Hb. destruct xs; [done|]. cbn in Hb. injection Hb. lia. }
  split; [|done]. unfold swap. unfold bind at 1.
  rewrite (empty_spec _ _ _ Ha), bool_decide_eq_true_2 by done.
  destruct Ha as [Ha _ _ _].
  eapply move_from__nonempty; [done|done|exact Ha|set_solver].
Qed.

Lemma swap_empty_right h a b xs :
  ring h a [] → ring h b xs → xs ≠ [] →
  swap b a h = Ret tt (moved h a b xs).
Proof.
  intros Ha Hb Hne.
  destruct (swap_empty_left h a b xs Ha Hb Hne) as [_ Hfr].
  unfold swap. unfold bind at 1.
  rewrite (empty_spec _ _ _ Hb), bool_decide_eq_false_2 by done.
  unfold bind at 1.
  rewrite (empty_spec _ _ _ Ha), bool_decide_eq_true_2 by done.
  destruct Ha as [Ha _ _ _].
  eapply move_from__nonempty; [done|done|exact Ha|set_solver].
Qed.

(** C2.  [swap] with exactly one empty side, called either way
    round, goes through [move_from_]: the side that was not empty ends
    empty, but the traversal of the side that received the nodes never
    reaches its [end()]. *)
Theorem swap_with_empty_side h a b xs :
  ring h a [] → ring h b xs → xs ≠ [] →
  ∃ h', swap a b h = Ret tt h' ∧ swap b a h = Ret tt h'
        ∧ visits h' b []
        ∧ ∀ fuel, traverse fuel a h'
                  = if decide (fuel ≤ length xs) then OutOfFuel else UB.
Proof.
  intros Ha Hb Hne.
  destruct (swap_empty_left h a b xs Ha Hb Hne) as [Hswap Hfr].
  assert (valid_ptr b) as Hvb.
  { destruct Hb as [_ _ _ Hv]. by apply Forall_cons in Hv as [? _]. }
  exists (moved h a b xs). split_and!.
  - done.
  - by apply swap_empty_right.
  - apply (ring_visits _ _ []). by apply moved_source_empty.
  - intros fuel. by apply moved_traverse.
Qed.

(** C3.  The deque that [swap] fills from an empty state is
    reachable by public operations and breaks the invariant: [size()] is the
    number of nodes, yet no traversal of it returns, it is the ring of no
    node list, and its first node's [prev] is the other deque's sentinel. *)
Theorem swap_breaks_ring h a b xs :
  ring h a [] → ring h b xs → xs ≠ [] →
  ∃ h', swap a b h = Ret tt h'
        ∧ Sentinel.size a h' = Ret (N.of_nat (length xs)) h'
        ∧ (∀ fuel vs, traverse fuel a h' ≠ Ret vs h')
        ∧ (∀ ys, ¬ ring h' a ys)
        ∧ (∃ c, h' !! head_ptr xs b = Some c ∧ prev (base_of c) = b ∧ b ≠ a).
Proof.
  intros Ha Hb Hne.
  destruct (swap_empty_left h a b xs Ha Hb Hne) as [Hswap Hfr].
  exists (moved h a b xs). split_and!.
  - done.
  - apply moved_size. set_solver.
  - intros fuel vs. rewrite moved_traverse by done. by case_decide.
  - intros ys. by apply moved_not_ring.
  - pose proof (moved_nodes _ _ _ _ Hb Hfr) as Hn.
    destruct xs as [|t xs]; [done|]. cbn [node_cells head_ptr] in *.
    rewrite holds_cons in Hn. destruct Hn as [Ht _].
    eexists. split; [exact Ht|]. split; [done|set_solver].
Qed.

Section ops.
Context (A : allocator) (copy_throws : T → option exn).

(** C5, as the code has it.  On an empty deque,
    [push_back(x); pop_front()] removes [x] and leaves the heap exactly as
    it was, and so does [push_front(x); pop_back()].  On a deque that is not
    empty, [push_back(x); pop_front()] removes the old front element and
    leaves [x] at the back, and [push_front(x); pop_back()] removes the old
    back element and leaves [x] at the front.  If the push throws, the heap
    is unchanged, whatever the deque holds. *)
Theorem round_trip_cases h d xs (x : T) :
  ring h d xs →
  match fifo_round_trip A copy_throws d x h with
  | Ret y h' =>
      (xs = [] → y = x ∧ h' = h)
      ∧ (∀ t xs', xs = t :: xs' →
           y = t.2 ∧ ∃ p, h !! p = None ∧ ring h' d (xs' ++ [(p, x)]))
  | Throw e h' => h' = h ∧ new_node_ A (copy_ctor copy_throws x) h = Throw e h
  | _ => False
  end
  ∧ match lifo_round_trip A copy_throws d x h with
    | Ret y h' =>
        (xs = [] → y = x ∧ h' = h)
        ∧ (∀ xs' t, xs = xs' ++ [t] →
             y = t.2 ∧ ∃ p, h !! p = None ∧ ring h' d ((p, x) :: xs'))
    | Throw e h' => h' = h ∧ new_node_ A (copy_ctor copy_throws x) h = Throw e h
    | _ => False
    end.
Proof.
  intros Hr. split.
  - unfold fifo_round_trip. unfold bind at 1.
    pose proof (push_back_spec A copy_throws h d xs x Hr) as Hpush.
    destruct (push_back A copy_throws d x h) as [[] h1|e h1| |]; [|done..].
    destruct Hpush as (p & Hp & Hr1 & Hfr1).
    destruct xs as [|t xs'].
    + cbn [app] in Hr1.
      unfold bind at 1. rewrite (front_spec _ _ _ _ Hr1).
      destruct (pop_front_spec _ _ _ _ Hr1) as (h2 & Hpop & Hr2 & Hp2 & Hfr2).
      unfold bind. rewrite Hpop. split; [|done]. intros _. split; [done|].
      apply map_eq. intros k. cbn in Hfr1, Hfr2, Hp2.
      destruct (decide (k = p)) as [->|Hkp]; [congruence|].
      destruct (decide (k = d)) as [->|Hkd].
      * symmetry. apply (ring_agree h h2 d []); [done|done|by left].
      * rewrite Hfr2 by set_solver. apply Hfr1. set_solver.
    + cbn [app] in Hr1.
      unfold bind at 1. rewrite (front_spec _ _ _ _ Hr1).
      destruct (pop_front_spec _ _ _ _ Hr1) as (h2 & Hpop & Hr2 & _).
      unfold bind. rewrite Hpop. split; [done|].
      intros t0 xs0 [= <- <-]. split; [done|]. by exists p.
  - unfold lifo_round_trip. unfold bind at 1.
    pose proof (push_front_spec A copy_throws h d xs x Hr) as Hpush.
    destruct (push_front A copy_throws d x h) as [[] h1|e h1| |]; [|done..].
    destruct Hpush as (p & Hp & Hr1 & Hfr1).
    destruct xs as [|t xs' _] using rev_ind.
    + unfold bind at 1. rewrite (back_spec _ _ [] _ Hr1).
      destruct (pop_back_spec _ _ [] _ Hr1) as (h2 & Hpop & Hr2 & Hp2 & Hfr2).
      unfold bind. rewrite Hpop. split.
      * intros _. split; [done|].
        apply map_eq. intros k. cbn in Hfr1, Hfr2, Hp2.
        destruct (decide (k = p)) as [->|Hkp]; [congruence|].
        destruct (decide (k = d)) as [->|Hkd].
        -- symmetry. apply (ring_agree h h2 d []); [done|done|by left].
        -- rewrite Hfr2 by set_solver. apply Hfr1. set_solver.
      * intros xs0 t0 Heq. by destruct xs0.
    + rewrite app_comm_cons in Hr1.
      unfold bind at 1. rewrite (back_spec _ _ _ _ Hr1).
      destruct (pop_back_spec _ _ _ _ Hr1) as (h2 & Hpop & Hr2 & _).
      unfold bind. rewrite Hpop. split.
      * intros Heq. by destruct xs'.
      * intros xs0 t0 [<- <-]%app_inj_tail. split; [done|]. by exists p.
Qed.

(** X8.  On a deque that is not empty, [push_back(x); pop_front()] removes
    the old front element and leaves [x] at the back. *)
Lemma fifo_round_trip_nonempty h d t xs (x : T) :
  ring h d (t :: xs) →
  match fifo_round_trip A copy_throws d x h with
  | Ret y h' => y = t.2 ∧ ∃ p, ring h' d (xs ++ [(p, x)])
  | Throw e h' => h' = h ∧ new_node_ A (copy_ctor copy_throws x) h = Throw e h
  | _ => False
  end.
Proof.
  intros Hr. unfold fifo_round_trip. unfold bind at 1.
  pose proof (push_back_spec A copy_throws h d _ x Hr) as Hpush.
  destruct (push_back A copy_throws d x h) as [[] h1|e h1| |]; [|done..].
  destruct Hpush as (p & Hp & Hr1 & Hfr1). cbn [app] in Hr1.
  unfold bind at 1. rewrite (front_spec _ _ _ _ Hr1).
  destruct (pop_front_spec _ _ _ _ Hr1) as (h2 & Hpop & Hr2 & Hp2 & Hfr2).
  unfold bind. rewrite Hpop. split; [done|]. by exists p.
Qed.

End ops.
End swapping.

(** *** Re-pointing the ends of a chain; rings do not overlap *)

Section relinking.
Context {T : Type}.
Abbreviation heap := (gmap N (@cell T)).
Implicit Types (h : heap) (xs ys : list (N * T)) (p q d a b : N) (t x : N * T).

Lemma store_prev_eq h p q c :
  h !! p = Some c → store_prev p q h = Ret tt (set_prev_at p q h).
Proof.
  intros Hp. unfold store_prev, load_base, store_base, bind, set_prev_at.
  rewrite Hp. cbn. rewrite Hp. f_equal.
  apply map_eq. intros k. destruct (decide (p = k)) as [<-|Hne].
  - by rewrite lookup_insert_eq, lookup_alter_eq, Hp.
  - by rewrite lookup_insert_ne, lookup_alter_ne.
Qed.
Lemma store_next_eq h p q c :
  h !! p = Some c → store_next p q h = Ret tt (set_next_at p q h).
Proof.
  intros Hp. unfold store_next, load_base, store_base, bind, set_next_at.
  rewrite Hp. cbn. rewrite Hp. f_equal.
  apply map_eq. intros k. destruct (decide (p = k)) as [<-|Hne].
  - by rewrite lookup_insert_eq, lookup_alter_eq, Hp.
  - by rewrite lookup_insert_ne, lookup_alter_ne.
Qed.

Lemma head_ptr_elem xs q : xs ≠ [] → head_ptr xs q ∈ xs.*1.
Proof. destruct xs; [done|]. intros _. cbn. by left. Qed.
Lemma last_ptr_elem pp xs : xs ≠ [] → last_ptr pp xs ∈ xs.*1.
Proof.
  destruct xs as [|t xs _] using rev_ind; [done|]. intros _.
  rewrite last_ptr_snoc, fmap_app. cbn. set_solver.
Qed.
Lemma head_ptr_indep xs q q' : xs ≠ [] → head_ptr xs q = head_ptr xs q'.
Proof. by destruct xs. Qed.
Lemma last_ptr_indep pp pp' xs : xs ≠ [] → last_ptr pp xs = last_ptr pp' xs.
Proof.
  destruct xs as [|t xs _] using rev_ind; [done|]. intros _.
  by rewrite !last_ptr_snoc.
Qed.

(** Re-pointing the two ends of a chain: the first node's [prev] and the
    last node's [next]. *)
Lemma holds_relink h pp q pp' q' xs :
  holds h (node_cells pp xs q) → NoDup xs.*1 → xs ≠ [] →
  holds (set_next_at (last_ptr pp xs) q' (set_prev_at (head_ptr xs q) pp' h))
        (node_cells pp' xs q').
Proof.
  intros Hn Hnd Hne. destruct xs as [|x xs]; [done|]. clear Hne.
  cbn [head_ptr]. rewrite last_ptr_cons.
  cbn [node_cells] in *. rewrite holds_cons in Hn. destruct Hn as [Hx Hn].
  cbn in Hnd. apply NoDup_cons in Hnd as [Hx1 Hnd].
  destruct xs as [|z xs _] using rev_ind.
  - cbn. apply holds_singleton. unfold set_next_at, set_prev_at.
    rewrite !lookup_alter_eq. cbn in Hx. by rewrite Hx.
  - rewrite last_ptr_snoc.
    rewrite node_cells_snoc, holds_app, holds_singleton in Hn.
    destruct Hn as [Hn Hz].
    rewrite fmap_app in Hx1, Hnd. cbn in Hx1, Hnd.
    assert (z.1 ≠ x.1 ∧ (z.1 ∉ xs.*1) ∧ (x.1 ∉ xs.*1)) as (Hzx & Hzm & Hxm).
    { apply NoDup_app in Hnd as (_ & Hd & _). split_and!; [set_solver| |set_solver].
      intros Hin. apply (Hd _ Hin). by left. }
    rewrite holds_cons, node_cells_snoc, holds_app, holds_singleton.
    unfold set_next_at, set_prev_at. split_and!.
    + rewrite lookup_alter_ne, lookup_alter_eq by done. rewrite Hx.
      cbn. by rewrite !head_ptr_app.
    + eapply holds_nodes_frame; [|exact Hn]. intros k Hk.
      rewrite !lookup_alter_ne; [done|set_solver|set_solver].
    + rewrite lookup_alter_eq, lookup_alter_ne by done. by rewrite Hz.
Qed.

Lemma set_at_frame h p q q' k :
  k ≠ p → set_next_at p q h !! k = h !! k ∧ set_prev_at p q' h !! k = h !! k.
Proof.
  intros Hk. unfold set_next_at, set_prev_at.
  by rewrite !lookup_alter_ne.
Qed.

(** Two chains in one heap that start at the same cell and end in cells that
    are not nodes end in the same cell. *)
Lemma chains_same_end h : ∀ xs ys pp pp' q q',
  holds h (node_cells pp xs q) → holds h (node_cells pp' ys q') →
  head_ptr xs q = head_ptr ys q' →
  as_node q h = UB → as_node q' h = UB → q = q'.
Proof.
  induction xs as [|x xs IH]; intros ys pp pp' q q' Hx Hy Hhd Hq Hq'.
  - destruct ys as [|y ys]; [done|]. cbn in Hhd, Hy.
    rewrite holds_cons in Hy. destruct Hy as [Hy _].
    unfold as_node in Hq. rewrite Hhd, Hy in Hq. done.
  - cbn [node_cells] in Hx. rewrite holds_cons in Hx. destruct Hx as [Hx Hxs].
    destruct ys as [|y ys].
    + cbn in Hhd. unfold as_node in Hq'. rewrite <- Hhd, Hx in Hq'. done.
    + cbn [node_cells] in Hy. rewrite holds_cons in Hy. destruct Hy as [Hy Hys].
      cbn in Hhd. rewrite Hhd, Hy in Hx. injection Hx as Hp Hnx Hv.
      by eapply (IH ys); [exact Hxs|exact Hys|..].
Qed.

Lemma ring_sentinel_as_node h d xs : ring h d xs → as_node d h = UB.
Proof. intros [Hd _ _ _]. unfold as_node. by rewrite Hd. Qed.

(** Rings with different sentinels share no node. *)
Lemma rings_disjoint h a b xs ys k :
  ring h a xs → ring h b ys → a ≠ b → k ∈ xs.*1 → k ∉ ys.*1.
Proof.
  intros Ha Hb Hab Hx Hy.
  pose proof (ring_sentinel_as_node _ _ _ Ha) as Hua.
  pose proof (ring_sentinel_as_node _ _ _ Hb) as Hub.
  destruct Ha as [_ Hna _ _], Hb as [_ Hnb _ _].
  apply list_elem_of_fmap in Hx as (x & -> & Hx).
  apply list_elem_of_fmap in Hy as (y & Hxy & Hy).
  apply list_elem_of_split in Hx as (xs1 & xs2 & ->).
  apply list_elem_of_split in Hy as (ys1 & ys2 & ->).
  rewrite node_cells_app, holds_app in Hna, Hnb.
  destruct Hna as [_ Hna], Hnb as [_ Hnb].
  apply Hab. eapply chains_same_end; [exact Hna|exact Hnb| |done|done].
  done.
Qed.

End relinking.

(** *** Swapping two rings *)

Section swapping_rings.
Context {T : Type}.
Abbreviation heap := (gmap N (@cell T)).
Implicit Types (h : heap) (xs ys : list (N * T)) (p q d a b : N) (t x : N * T).

Lemma load_base_eq h p c : h !! p = Some c → load_base p h = Ret (base_of c) h.
Proof. intros Hp. unfold load_base. by rewrite Hp. Qed.
Lemma load_prev_eq h p c : h !! p = Some c → load_prev p h = Ret (prev (base_of c)) h.
Proof. intros Hp. unfold load_prev, bind. by rewrite (load_base_eq _ _ _ Hp). Qed.
Lemma load_next_eq h p c : h !! p = Some c → load_next p h = Ret (next (base_of c)) h.
Proof. intros Hp. unfold load_next, bind. by rewrite (load_base_eq _ _ _ Hp). Qed.
Lemma store_base_eq h p c (b0 : node_base_) :
  h !! p = Some c → store_base p b0 h = Ret tt (<[p := with_base c b0]> h).
Proof. intros Hp. unfold store_base. by rewrite Hp. Qed.
Lemma load_size_eq h p (b0 : node_base_) n :
  h !! p = Some (CDeque b0 (Some n)) → load_size p h = Ret n h.
Proof. intros Hp. unfold load_size. by rewrite Hp. Qed.
Lemma store_size_eq h p (b0 : node_base_) s n :
  h !! p = Some (CDeque b0 s) →
  store_size p n h = Ret tt (<[p := CDeque b0 (Some n)]> h).
Proof. intros Hp. unfold store_size. by rewrite Hp. Qed.

Lemma ring_with_sentinel h' d d' xs :
  xs ≠ [] →
  h' !! d' = Some (CDeque {| prev := last_ptr d xs; next := head_ptr xs d |}
                          (Some (N.of_nat (length xs)))) →
  holds h' (node_cells d' xs d') →
  NoDup (d' :: xs.*1) → Forall valid_ptr (d' :: xs.*1) →
  ring h' d' xs.
Proof.
  intros Hne Hd Hn Hnd Hv. split; [|done..].
  by rewrite (last_ptr_indep d' d), (head_ptr_indep _ d' d).
Qed.

(** Both sides hold nodes: [swap] exchanges the rings, node for node, and
    touches no cell outside the two rings. *)
Theorem swap_nonempty h a b xs ys :
  ring h a xs → ring h b ys → xs ≠ [] → ys ≠ [] → a ≠ b →
  ∃ h', swap a b h = Ret tt h' ∧ ring h' a ys ∧ ring h' b xs
        ∧ ∀ k, k ∉ a :: b :: xs.*1 ++ ys.*1 → h' !! k = h !! k.
Proof.
  intros Ha Hb Hxs Hys Hab.
  pose proof (ring_sentinel_not_node _ _ _ _ _ Ha Hb) as Hay.
  pose proof (ring_sentinel_not_node _ _ _ _ _ Hb Ha) as Hbx.
  assert (∀ k, k ∈ xs.*1 → k ∉ ys.*1) as Hdisj.
  { intros k. by apply (rings_disjoint h a b). }
  pose proof (empty_spec _ _ _ Ha) as Hea.
  pose proof (empty_spec _ _ _ Hb) as Heb.
  rewrite bool_decide_eq_false_2 in Hea, Heb by done.
  destruct Ha as [Had Han Hand Hav], Hb as [Hbd Hbn Hbnd Hbv].
  assert ((a ∉ xs.*1) ∧ (b ∉ ys.*1)) as [Hax Hby].
  { apply NoDup_cons in Hand as [? _], Hbnd as [? _]. done. }
  set (la := last_ptr a xs) in *. set (ha := head_ptr xs a) in *.
  set (lb := last_ptr b ys) in *. set (hb := head_ptr ys b) in *.
  set (na := N.of_nat (length xs)) in *. set (nb := N.of_nat (length ys)) in *.
  assert (la ∈ xs.*1 ∧ ha ∈ xs.*1 ∧ lb ∈ ys.*1 ∧ hb ∈ ys.*1)
    as (Hla & Hha & Hlb & Hhb).
  { split_and!; by (apply last_ptr_elem || apply head_ptr_elem). }
  set (h4 := <[b := CDeque {| prev := la; next := ha |} (Some na)]>
               (<[a := CDeque {| prev := lb; next := hb |} (Some nb)]> h)).
  assert (h4 !! a = Some (CDeque {| prev := lb; next := hb |} (Some nb))) as H4a.
  { unfold h4. by rewrite lookup_insert_ne, lookup_insert_eq. }
  assert (h4 !! b = Some (CDeque {| prev := la; next := ha |} (Some na))) as H4b.
  { unfold h4. by rewrite lookup_insert_eq. }
  assert (∀ k, k ≠ a → k ≠ b → h4 !! k = h !! k) as H4fr.
  { intros k ??. unfold h4. by rewrite !lookup_insert_ne. }
  set (h5 := set_prev_at hb a h4). set (h6 := set_next_at lb a h5).
  set (h7 := set_prev_at ha b h6). set (h8 := set_next_at la b h7).
  assert (∀ k, k ∉ ys.*1 → h6 !! k = h4 !! k) as H6fr.
  { intros k Hk. unfold h6, h5, set_next_at, set_prev_at.
    rewrite !lookup_alter_ne; [done|set_solver|set_solver]. }
  assert (∀ k, k ∉ xs.*1 → h8 !! k = h6 !! k) as H8fr.
  { intros k Hk. unfold h8, h7, set_next_at, set_prev_at.
    rewrite !lookup_alter_ne; [done|set_solver|set_solver]. }
  assert (holds h4 (node_cells a xs a)) as H4x.
  { eapply holds_nodes_frame; [|exact Han]. intros k Hk. apply H4fr; set_solver. }
  assert (holds h4 (node_cells b ys b)) as H4y.
  { eapply holds_nodes_frame; [|exact Hbn]. intros k Hk. apply H4fr; set_solver. }
  assert (holds h6 (node_cells a ys a)) as H6y.
  { apply holds_relink; [done| |done]. by apply NoDup_cons in Hbnd as [_ ?]. }
  assert (holds h6 (node_cells a xs a)) as H6x.
  { eapply holds_nodes_frame; [|exact H4x]. intros k Hk. apply H6fr. by apply Hdisj. }
  assert (holds h8 (node_cells b xs b)) as H8x.
  { apply holds_relink; [done| |done]. by apply NoDup_cons in Hand as [_ ?]. }
  assert (holds h8 (node_cells a ys a)) as H8y.
  { eapply holds_nodes_frame; [|exact H6y]. intros k Hk. apply H8fr.
    intros Hkx. by apply (Hdisj k). }
  exists h8. split_and!.
  - unfold swap. unfold bind at 1. rewrite Hea. unfold bind at 1. rewrite Heb.
    unfold bind at 1. rewrite (load_base_eq _ _ _ Had). cbn [base_of].
    unfold bind at 1. rewrite (load_base_eq _ _ _ Hbd). cbn [base_of].
    unfold bind at 1. rewrite (store_base_eq _ _ _ _ Had). cbn [with_base].
    unfold bind at 1. erewrite store_base_eq by by rewrite lookup_insert_ne.
    cbn [with_base].
    unfold bind at 1. erewrite load_size_eq
      by by rewrite lookup_insert_ne, lookup_insert_eq.
    unfold bind at 1. erewrite load_size_eq by by rewrite lookup_insert_eq.
    unfold bind at 1. erewrite store_size_eq
      by by rewrite lookup_insert_ne, lookup_insert_eq.
    unfold bind at 1. erewrite store_size_eq
      by by rewrite lookup_insert_ne, lookup_insert_eq.
    match goal with |- _ ?hh = _ => replace hh with h4 end.
    2:{ unfold h4. apply map_eq. intros k.
        destruct (decide (k = a)) as [->|?]; [by simplify_map_eq|].
        destruct (decide (k = b)) as [->|?]; by simplify_map_eq. }
    unfold bind at 1. rewrite (load_next_eq _ _ _ H4a). cbn [base_of next].
    destruct (holds_is_Some _ _ _ _ _ H4y Hhb) as [c1 Hc1].
    unfold bind at 1. rewrite (store_prev_eq _ _ _ _ Hc1). fold h5.
    assert (h5 !! a = h4 !! a) as H5a.
    { unfold h5, set_prev_at. rewrite lookup_alter_ne; [done|set_solver]. }
    rewrite H4a in H5a.
    unfold bind at 1. rewrite (load_prev_eq _ _ _ H5a). cbn [base_of prev].
    assert (is_Some (h5 !! lb)) as [c2 Hc2].
    { unfold h5, set_prev_at. apply lookup_alter_is_Some.
      by eapply holds_is_Some. }
    unfold bind at 1. rewrite (store_next_eq _ _ _ _ Hc2). fold h6.
    assert (h6 !! b = Some (CDeque {| prev := la; next := ha |} (Some na))) as H6b.
    { by rewrite H6fr. }
    unfold bind at 1. rewrite (load_next_eq _ _ _ H6b). cbn [base_of next].
    destruct (holds_is_Some _ _ _ _ _ H6x Hha) as [c3 Hc3].
    unfold bind at 1. rewrite (store_prev_eq _ _ _ _ Hc3). fold h7.
    assert (h7 !! b = h6 !! b) as H7b.
    { unfold h7, set_prev_at. rewrite lookup_alter_ne; [done|set_solver]. }
    rewrite H6b in H7b.
    unfold bind at 1. rewrite (load_prev_eq _ _ _ H7b). cbn [base_of prev].
    assert (is_Some (h7 !! la)) as [c4 Hc4].
    { unfold h7, set_prev_at. apply lookup_alter_is_Some.
      by eapply holds_is_Some. }
    by rewrite (store_next_eq _ _ _ _ Hc4).
  - apply (ring_with_sentinel _ b); [done| |done| |].
    + rewrite H8fr, H6fr by done. exact H4a.
    + apply NoDup_cons. split; [done|]. by apply NoDup_cons in Hbnd as [_ ?].
    + apply Forall_cons. split.
      * by apply Forall_cons in Hav as [? _].
      * by apply Forall_cons in Hbv as [_ ?].
  - apply (ring_with_sentinel _ a); [done| |done| |].
    + rewrite H8fr, H6fr by done. exact H4b.
    + apply NoDup_cons. split; [done|]. by apply NoDup_cons in Hand as [_ ?].
    + apply Forall_cons. split.
      * by apply Forall_cons in Hbv as [? _].
      * by apply Forall_cons in Hav as [_ ?].
  - intros k Hk. rewrite H8fr, H6fr, H4fr; [done|set_solver..].
Qed.

End swapping_rings.

(** *** Further properties of one deque *)

Section more.
Context {T : Type}.
Abbreviation heap := (gmap N (@cell T)).
Implicit Types (h : heap) (xs ys : list (N * T)) (p q d a b : N) (t x : N * T).

Lemma swap_both_empty h a b :
  ring h a [] → ring h b [] → swap a b h = Ret tt h.
Proof.
  intros Ha Hb. unfold swap. unfold bind at 1.
  rewrite (empty_spec _ _ _ Ha), bool_decide_eq_true_2 by done.
  destruct Ha as [Ha _ _ _]. cbn in Ha.
  erewrite move_from__empty; [|done|exact Ha]. f_equal. by apply insert_id.
Qed.

(** X1.  For two deques that are both empty or both not empty, [swap]
    exchanges the contents: afterwards [a] is the ring of [b]'s nodes and
    [b] the ring of [a]'s, and each is traversed as the other was. *)
Theorem swap_exchanges h a b xs ys :
  ring h a xs → ring h b ys → a ≠ b → (xs = [] ↔ ys = []) →
  ∃ h', swap a b h = Ret tt h' ∧ ring h' a ys ∧ ring h' b xs
        ∧ visits h' a ys.*2 ∧ visits h' b xs.*2.
Proof.
  intros Ha Hb Hab Hsame. destruct xs as [|x xs].
  - rewrite (proj1 Hsame eq_refl) in *. exists h.
    split_and!; [by apply swap_both_empty|done|done|by apply ring_visits..].
  - assert (ys ≠ []) as Hys by (intros Hy; by apply Hsame in Hy).
    destruct (swap_nonempty h a b (x :: xs) ys Ha Hb) as (h' & Hs & Ha' & Hb' & _);
      [done..|].
    exists h'. split_and!; [done|done|done|by apply ring_visits..].
Qed.

(** X2.  [swap(a,b); swap(a,b)] restores the heap, for two deques that are
    both empty or both not empty. *)
Theorem swap_twice h a b xs ys :
  ring h a xs → ring h b ys → a ≠ b → (xs = [] ↔ ys = []) →
  (swap a b ;; swap a b) h = Ret tt h.
Proof.
  intros Ha Hb Hab Hsame. unfold bind. destruct xs as [|x xs].
  - rewrite (proj1 Hsame eq_refl) in *.
    rewrite (swap_both_empty _ _ _ Ha Hb). by apply swap_both_empty.
  - assert (ys ≠ []) as Hys by (intros Hy; by apply Hsame in Hy).
    destruct (swap_nonempty h a b (x :: xs) ys Ha Hb) as (h1 & Hs1 & Ha1 & Hb1 & Hfr1);
      [done..|].
    rewrite Hs1.
    destruct (swap_nonempty h1 a b ys (x :: xs) Ha1 Hb1) as (h2 & Hs2 & Ha2 & Hb2 & Hfr2);
      [done..|].
    rewrite Hs2. f_equal. apply map_eq. intros k.
    destruct (decide (k ∈ a :: (x :: xs).*1)) as [Hka|Hka].
    { symmetry. by apply (ring_agree h h2 a (x :: xs)). }
    destruct (decide (k ∈ b :: ys.*1)) as [Hkb|Hkb].
    { symmetry. by apply (ring_agree h h2 b ys). }
    rewrite Hfr2, Hfr1; [done|set_solver..].
Qed.

(** X4.  For a deque that is not empty, [front()] is [*begin()], the first
    element, and [back()] is [*--end()], the last. *)
Theorem front_back_iterators h d xs :
  ring h d xs → xs ≠ [] →
  front d h = (i <- begin d ;; deref i) h
  ∧ back d h = (e <- end_ d ;; i <- decr e ;; deref i) h
  ∧ ∃ v w, head xs.*2 = Some v ∧ last xs.*2 = Some w
           ∧ front d h = Ret v h ∧ back d h = Ret w h.
Proof.
  intros Hr Hne. split_and!.
  - unfold front, head_, begin, deref, bind, ret.
    destruct (load_next d h); [|done..]. cbn [current_].
    by destruct (as_node a h0).
  - unfold back, tail_, end_, decr, deref, bind, ret. cbn [current_].
    destruct (load_prev d h); [|done..]. cbn [current_].
    by destruct (as_node a h0).
  - assert (∃ t xs1, xs = t :: xs1) as (t & xs1 & Hhd).
    { destruct xs; [done|eauto]. }
    assert (∃ ys z, xs = ys ++ [z]) as (ys & z & Hlst).
    { destruct xs as [|z ys _] using rev_ind; [done|eauto]. }
    exists t.2, z.2. split_and!.
    + by rewrite Hhd.
    + rewrite Hlst, fmap_app. apply last_snoc.
    + rewrite Hhd in Hr. by apply (front_spec _ _ _ _ Hr).
    + rewrite Hlst in Hr. by apply (back_spec _ _ _ _ Hr).
Qed.

(** X5.  [clear()] returns, given fuel for one pop per element, and leaves
    the deque empty: [empty()], [size() == 0], [begin() == end()]. *)
Theorem clear_empties h d xs fuel :
  ring h d xs → length xs < fuel →
  ∃ h', clear fuel d h = Ret tt h'
        ∧ empty d h' = Ret true h'
        ∧ Sentinel.size d h' = Ret 0%N h'
        ∧ (i <- begin d ;; e <- end_ d ;; ret (iter_eq i e)) h' = Ret true h'
        ∧ visits h' d [].
Proof.
  intros Hr Hf.
  destruct (clear_spec d xs h fuel Hr Hf) as (h' & Hcl & Hr' & _).
  exists h'. split_and!; [done| | | |].
  - by rewrite (empty_spec _ _ _ Hr').
  - by rewrite (size_spec _ _ _ Hr').
  - destruct Hr' as [Hd _ _ _]. cbn in Hd.
    unfold begin, end_, load_next, load_base, bind, ret. rewrite Hd. cbn.
    unfold iter_eq. cbn. by rewrite bool_decide_eq_true_2.
  - by apply (ring_visits _ _ []).
Qed.

Section ops.
Context (A : allocator) (copy_throws : T → option exn).

(** X3.  On a well-formed ring [size()] is the number of elements a full
    forward traversal visits, and push, emplace, pop (on a deque that is not
    empty) and clear each leave a well-formed ring: the old one with the new
    node at its end, without its boundary node, or empty.  A push that throws
    leaves the heap as it was. *)
Theorem ring_preserved h d xs :
  ring h d xs →
  Sentinel.size d h = Ret (N.of_nat (length xs.*2)) h
  ∧ visits h d xs.*2
  ∧ (∀ v, match push_back A copy_throws d v h with
          | Ret _ h' => ∃ p, ring h' d (xs ++ [(p, v)])
          | Throw _ h' => h' = h
          | _ => False
          end)
  ∧ (∀ v, match push_front A copy_throws d v h with
          | Ret _ h' => ∃ p, ring h' d ((p, v) :: xs)
          | Throw _ h' => h' = h
          | _ => False
          end)
  ∧ (∀ c, match emplace_back A d c h with
          | Ret _ h' => ∃ p v, c = inr v ∧ ring h' d (xs ++ [(p, v)])
          | Throw _ h' => h' = h
          | _ => False
          end)
  ∧ (∀ c, match emplace_front A d c h with
          | Ret _ h' => ∃ p v, c = inr v ∧ ring h' d ((p, v) :: xs)
          | Throw _ h' => h' = h
          | _ => False
          end)
  ∧ (∀ t xs', xs = t :: xs' → ∃ h', pop_front d h = Ret tt h' ∧ ring h' d xs')
  ∧ (∀ xs' t, xs = xs' ++ [t] → ∃ h', pop_back d h = Ret tt h' ∧ ring h' d xs')
  ∧ (∀ fuel, length xs < fuel → ∃ h', clear fuel d h = Ret tt h' ∧ ring h' d []).
Proof.
  intros Hr. split_and!.
  - rewrite length_fmap. by apply size_spec.
  - by apply ring_visits.
  - intros v. pose proof (push_back_spec A copy_throws h d xs v Hr) as H.
    destruct (push_back A copy_throws d v h); naive_solver.
  - intros v. pose proof (push_front_spec A copy_throws h d xs v Hr) as H.
    destruct (push_front A copy_throws d v h); naive_solver.
  - intros c. pose proof (emplace_back_spec A h d xs c Hr) as H.
    destruct (emplace_back A d c h); naive_solver.
  - intros c. pose proof (emplace_front_spec A h d xs c Hr) as H.
    destruct (emplace_front A d c h); naive_solver.
  - intros t xs' ->. destruct (pop_front_spec _ _ _ _ Hr) as (h' & ? & ? & _).
    eauto.
  - intros xs' t ->. destruct (pop_back_spec _ _ _ _ Hr) as (h' & ? & ? & _).
    eauto.
  - intros fuel Hf. destruct (clear_spec d xs h fuel Hr Hf) as (h' & ? & ? & _).
    eauto.
Qed.

End ops.
End more.

(** *** Copies *)

Section copying.
Context {T : Type}.
Abbreviation heap := (gmap N (@cell T)).
Implicit Types (h : heap) (xs ys : list (N * T)) (p q d a b : N) (t x : N * T).

Lemma ring_frame h h' d xs :
  ring h d xs → (∀ k, k ∈ d :: xs.*1 → h' !! k = h !! k) → ring h' d xs.
Proof.
  intros [Hd Hn Hnd Hv] Hfr. split; [| |done|done].
  - rewrite Hfr; [done|by left].
  - eapply holds_nodes_frame; [|exact Hn]. intros k Hk. apply Hfr. by right.
Qed.

(** A change confined to one ring and to fresh cells leaves any other ring
    as it was. *)
Lemma ring_other_frame h h' a b xs ys (fresh : list N) :
  ring h a xs → ring h b ys → a ≠ b →
  (∀ k, k ∈ fresh → h !! k = None) →
  (∀ k, k ∉ fresh ++ b :: ys.*1 → h' !! k = h !! k) →
  ring h' a xs.
Proof.
  intros Ha Hb Hab Hfresh Hfr. apply (ring_frame h); [done|].
  intros k Hk. apply Hfr. intros [Hin|Hin]%elem_of_app.
  - pose proof (ring_fresh _ _ _ _ Ha (Hfresh k Hin)). done.
  - apply elem_of_cons in Hin as [->|Hin], Hk as [?|Hk]; [done| | |].
    + by apply (ring_sentinel_not_node h b a xs ys).
    + subst k. by apply (ring_sentinel_not_node h a b ys xs).
    + by apply (rings_disjoint h a b xs ys k).
Qed.

Lemma ring_node_at h d xs1 x xs2 :
  ring h d (xs1 ++ x :: xs2) →
  h !! x.1 = Some (CNode {| prev := last_ptr d xs1; next := head_ptr xs2 d |} x.2)
  ∧ x.1 ≠ d.
Proof.
  intros [_ Hn Hnd _]. rewrite node_cells_app, holds_app in Hn.
  destruct Hn as [_ Hn]. cbn [node_cells] in Hn. rewrite holds_cons in Hn.
  destruct Hn as [Hx _]. split; [done|].
  apply NoDup_cons in Hnd as [Hd _]. rewrite fmap_app in Hd. cbn in Hd.
  set_solver.
Qed.

Section ops.
Context (A : allocator) (copy_throws : T → option exn).

(** X7.  Deep independence: a push, a pop or a clear of one deque writes
    the cells of its own ring and fresh cells only, so any other deque is
    left as it was. *)
Theorem mutation_is_local h a b xs ys :
  ring h a xs → ring h b ys → a ≠ b →
  (∀ v, match push_back A copy_throws b v h with
        | Ret _ h' | Throw _ h' => ring h' a xs
        | _ => False
        end)
  ∧ (∀ v, match push_front A copy_throws b v h with
          | Ret _ h' | Throw _ h' => ring h' a xs
          | _ => False
          end)
  ∧ (ys ≠ [] → ∃ h', pop_front b h = Ret tt h' ∧ ring h' a xs)
  ∧ (ys ≠ [] → ∃ h', pop_back b h = Ret tt h' ∧ ring h' a xs)
  ∧ (∀ fuel, length ys < fuel → ∃ h', clear fuel b h = Ret tt h' ∧ ring h' a xs).
Proof.
  intros Ha Hb Hab. split_and!.
  - intros v. pose proof (push_back_spec A copy_throws h b ys v Hb) as H.
    destruct (push_back A copy_throws b v h) as [[] h'|e h'| |]; [| |done..].
    + destruct H as (p & Hp & _ & Hfr).
      apply (ring_other_frame h h' a b xs ys [p]); [done|done|done| |].
      * intros k Hk. apply list_elem_of_singleton in Hk. by subst.
      * intros k Hk. apply Hfr. set_solver.
    + by destruct H as [-> _].
  - intros v. pose proof (push_front_spec A copy_throws h b ys v Hb) as H.
    destruct (push_front A copy_throws b v h) as [[] h'|e h'| |]; [| |done..].
    + destruct H as (p & Hp & _ & Hfr).
      apply (ring_other_frame h h' a b xs ys [p]); [done|done|done| |].
      * intros k Hk. apply list_elem_of_singleton in Hk. by subst.
      * intros k Hk. apply Hfr. set_solver.
    + by destruct H as [-> _].
  - intros Hne. destruct ys as [|t ys]; [done|].
    destruct (pop_front_spec _ _ _ _ Hb) as (h' & Hpop & _ & _ & Hfr).
    exists h'. split; [done|].
    apply (ring_other_frame h h' a b xs (t :: ys) []); [done|done|done| |].
    + intros k Hk. by apply elem_of_nil in Hk.
    + intros k Hk. apply Hfr. set_solver.
  - intros Hne. destruct ys as [|t ys _] using rev_ind; [done|].
    destruct (pop_back_spec _ _ _ _ Hb) as (h' & Hpop & _ & _ & Hfr).
    exists h'. split; [done|].
    apply (ring_other_frame h h' a b xs (ys ++ [t]) []); [done|done|done| |].
    + intros k Hk. by apply elem_of_nil in Hk.
    + intros k Hk. apply Hfr. set_solver.
  - intros fuel Hf.
    destruct (clear_spec b ys h fuel Hb Hf) as (h' & Hcl & _ & _ & Hfr).
    exists h'. split; [done|].
    apply (ring_other_frame h h' a b xs ys []); [done|done|done| |].
    + intros k Hk. by apply elem_of_nil in Hk.
    + intros k Hk. apply Hfr. set_solver.
Qed.

End ops.
End copying.

(** *** The iterator protocol *)

Section protocol.
Context {T : Type}.
Abbreviation heap := (gmap N (@cell T)).
Implicit Types (h : heap) (xs ys : list (N * T)) (p q d a b : N) (t x : N * T).

(** The cell the ring has at its sentinel, and what its links are. *)
Lemma ring_sentinel_links h d xs :
  ring h d xs →
  load_next d h = Ret (head_ptr xs d) h ∧ load_prev d h = Ret (last_ptr d xs) h
  ∧ as_node d h = UB.
Proof.
  intros [Hd _ _ _]. unfold load_next, load_prev, load_base, as_node, bind, ret.
  by rewrite Hd.
Qed.

Lemma ring_node_links h d xs1 x xs2 :
  ring h d (xs1 ++ x :: xs2) →
  load_next x.1 h = Ret (head_ptr xs2 d) h
  ∧ load_prev x.1 h = Ret (last_ptr d xs1) h
  ∧ as_node x.1 h = Ret x.1 h
  ∧ load_data x.1 h = Ret x.2 h.
Proof.
  intros Hr. destruct (ring_node_at _ _ _ _ _ Hr) as [Hx _].
  unfold load_next, load_prev, load_base, as_node, load_data, bind, ret.
  by rewrite Hx.
Qed.

(** Every cell of a ring: its [next] is a cell of the ring whose [prev] is
    the cell itself, and the other way round. *)
Lemma ring_next_prev h d xs k :
  ring h d xs → k ∈ d :: xs.*1 →
  ∃ n, load_next k h = Ret n h ∧ load_prev n h = Ret k h ∧ n ∈ d :: xs.*1.
Proof.
  intros Hr [->|Hk]%elem_of_cons.
  - destruct (ring_sentinel_links _ _ _ Hr) as (Hn & Hp & _).
    exists (head_ptr xs d). split; [done|]. destruct xs as [|x xs].
    + cbn. split; [done|by left].
    + cbn [head_ptr]. destruct (ring_node_links h d [] x xs Hr) as (_ & Hpx & _).
      split; [done|]. cbn. set_solver.
  - apply list_elem_of_fmap in Hk as (x & -> & Hx).
    apply list_elem_of_split in Hx as (xs1 & xs2 & ->).
    destruct (ring_node_links _ _ _ _ _ Hr) as (Hn & _ & _).
    exists (head_ptr xs2 d). split; [done|]. destruct xs2 as [|y xs2].
    + cbn. destruct (ring_sentinel_links _ _ _ Hr) as (_ & Hp & _).
      rewrite last_ptr_snoc in Hp. split; [done|by left].
    + cbn [head_ptr].
      replace (xs1 ++ x :: y :: xs2) with ((xs1 ++ [x]) ++ y :: xs2) in Hr |- *
        by by rewrite <- app_assoc.
      destruct (ring_node_links _ _ _ _ _ Hr) as (_ & Hpy & _).
      rewrite last_ptr_snoc in Hpy. split; [done|].
      rewrite fmap_app. cbn. set_solver.
Qed.

Lemma ring_prev_next h d xs k :
  ring h d xs → k ∈ d :: xs.*1 →
  ∃ p, load_prev k h = Ret p h ∧ load_next p h = Ret k h ∧ p ∈ d :: xs.*1.
Proof.
  intros Hr [->|Hk]%elem_of_cons.
  - destruct (ring_sentinel_links _ _ _ Hr) as (Hn & Hp & _).
    exists (last_ptr d xs). split; [done|].
    destruct xs as [|x xs _] using rev_ind.
    + cbn. split; [done|by left].
    + rewrite last_ptr_snoc.
      destruct (ring_node_links h d xs x [] Hr) as (Hnx & _).
      split; [done|]. rewrite fmap_app. cbn. set_solver.
  - apply list_elem_of_fmap in Hk as (x & -> & Hx).
    apply list_elem_of_split in Hx as (xs1 & xs2 & ->).
    destruct (ring_node_links _ _ _ _ _ Hr) as (_ & Hp & _).
    exists (last_ptr d xs1). split; [done|].
    destruct xs1 as [|y xs1 _] using rev_ind.
    + cbn. destruct (ring_sentinel_links _ _ _ Hr) as (Hn & _).
      split; [done|by left].
    + rewrite last_ptr_snoc. rewrite <- app_assoc in Hr |- *. cbn in Hr |- *.
      destruct (ring_node_links _ _ _ _ _ Hr) as (Hny & _).
      split; [done|]. rewrite fmap_app. cbn. set_solver.
Qed.

(** X9. Stepping an iterator forward and then back, or back and then
    forward, returns the iterator it started from, at every position of a
    well-formed deque, [end()] included: [--(++i) == i] and [++(--i) == i];
    either step stays on the deque; and the postfix forms agree: [i++]
    followed by [i--] returns the old position and then the advanced one,
    and leaves [i] where it started. *)
Theorem iterator_steps_inverse h d xs (i : Deque_iterator) :
  ring h d xs → current_ i ∈ d :: xs.*1 →
  (j <- incr i ;; decr j) h = Ret i h
  ∧ (j <- decr i ;; incr j) h = Ret i h
  ∧ (∃ j, incr i h = Ret j h ∧ current_ j ∈ d :: xs.*1)
  ∧ (∃ j, decr i h = Ret j h ∧ current_ j ∈ d :: xs.*1)
  ∧ (∃ j, incr i h = Ret j h
          ∧ (r <- incr_post i ;; s <- decr_post r.2 ;; ret (r.1, s.1, s.2)) h
            = Ret (i, j, i) h).
Proof.
  intros Hr Hi. destruct i as [k]. cbn in Hi.
  destruct (ring_next_prev _ _ _ _ Hr Hi) as (n & Hn & Hpn & Hnin).
  destruct (ring_prev_next _ _ _ _ Hr Hi) as (p & Hp & Hnp & Hpin).
  unfold incr_post, decr_post, incr, decr, bind, ret. cbn.
  rewrite Hn, Hp. cbn. rewrite Hpn, Hnp.
  split_and!; [done|done|by eexists|by eexists|by eexists].
Qed.

(** X10. What the source leaves undefined on an empty deque is undefined in
    the code: [front()], [back()], [pop_front()] and [pop_back()] of an empty
    deque all cast the sentinel to a node; so does dereferencing [end()], of
    any deque. *)
Theorem empty_access_undefined h d xs :
  ring h d xs →
  (e <- end_ d ;; deref e) h = UB
  ∧ (e <- end_ d ;; arrow e) h = UB
  ∧ (xs = [] →
     front d h = UB ∧ back d h = UB ∧ pop_front d h = UB ∧ pop_back d h = UB).
Proof.
  intros Hr. destruct (ring_sentinel_links _ _ _ Hr) as (Hn & Hp & Hc).
  split_and!.
  - unfold end_, deref, bind, ret. cbn. by rewrite Hc.
  - unfold end_, arrow, bind, ret. cbn. by rewrite Hc.
  - intros ->. cbn in Hn, Hp.
    unfold front, back, pop_front, pop_back, head_, tail_, bind.
    by rewrite Hn, Hp, Hc.
Qed.

(** X11. The three emptiness tests of a well-formed deque agree:
    [empty()], [size() == 0] and [begin() == end()] (and the const and
    reverse forms of the last) all answer whether the deque has no node. *)
Theorem emptiness_tests_agree h d xs :
  ring h d xs →
  let b := bool_decide (xs = []) in
  empty d h = Ret b h
  ∧ (n <- Sentinel.size d ;; ret (bool_decide (n = 0%N))) h = Ret b h
  ∧ (i <- begin d ;; e <- end_ d ;; ret (iter_eq i e)) h = Ret b h
  ∧ (i <- cbegin d ;; e <- cend d ;; ret (iter_eq i e)) h = Ret b h
  ∧ (i <- rbegin d ;; e <- rend d ;; ret (riter_eq i e)) h = Ret b h.
Proof.
  intros Hr b. pose proof (empty_spec _ _ _ Hr) as He.
  destruct (ring_sentinel_links _ _ _ Hr) as (Hn & _ & _).
  assert (Hhd : bool_decide (head_ptr xs d = d) = b).
  { subst b. destruct xs as [|x xs]; cbn [head_ptr].
    - by rewrite !bool_decide_eq_true_2.
    - destruct (ring_node_at h d [] x xs Hr) as [_ Hne].
      by rewrite !bool_decide_eq_false_2. }
  assert (Hhd' : bool_decide (d = head_ptr xs d) = b).
  { rewrite <- Hhd. apply bool_decide_ext. naive_solver. }
  split_and!; [done|..].
  - unfold bind, ret. rewrite (size_spec _ _ _ Hr). f_equal. subst b.
    apply bool_decide_ext. destruct xs; cbn [length]; [done|]. split; [lia|done].
  - unfold begin, end_, iter_eq, bind, ret. rewrite Hn. cbn. by rewrite Hhd.
  - unfold cbegin, cend, begin, end_, iter_eq, bind, ret. rewrite Hn. cbn.
    by rewrite Hhd.
  - unfold rbegin, rend, begin, end_, riter_eq, iter_eq, bind, ret. rewrite Hn.
    cbn. by rewrite Hhd'.
Qed.
End protocol.

(** *** Edge cases: self-swap, writes through references *)

Section edge_cases.
Context {T : Type}.
Abbreviation heap := (gmap N (@cell T)).
Implicit Types (h : heap) (xs ys : list (N * T)) (p q d a b : N) (t x : N * T).

(** Stores of the value a cell already holds. *)
Lemma store_base_id h p (c : cell) :
  h !! p = Some c → store_base p (base_of c) h = Ret tt h.
Proof.
  intros Hp. unfold store_base. rewrite Hp. f_equal.
  destruct c; cbn; by rewrite insert_id.
Qed.
Lemma store_prev_id h p q (c : cell) :
  h !! p = Some c → prev (base_of c) = q → store_prev p q h = Ret tt h.
Proof.
  intros Hp <-. unfold store_prev, bind. rewrite (load_base_eq _ _ _ Hp).
  rewrite <- (store_base_id h p c Hp). by destruct c as [[??]?|[??]?].
Qed.
Lemma store_next_id h p q (c : cell) :
  h !! p = Some c → next (base_of c) = q → store_next p q h = Ret tt h.
Proof.
  intros Hp <-. unfold store_next, bind. rewrite (load_base_eq _ _ _ Hp).
  rewrite <- (store_base_id h p c Hp). by destruct c as [[??]?|[??]?].
Qed.
Lemma store_size_id h p (b0 : node_base_) n :
  h !! p = Some (CDeque b0 (Some n)) → store_size p n h = Ret tt h.
Proof. intros Hp. unfold store_size. rewrite Hp. by rewrite insert_id. Qed.

Lemma set_empty__id h d : ring h d [] → set_empty_ d h = Ret tt h.
Proof.
  intros [Hd _ _ _]. cbn in Hd. erewrite set_empty__eq by done.
  by rewrite insert_id.
Qed.

(** The links back to the sentinel from the two ends of the ring. *)
Lemma ring_ends_back h d xs :
  ring h d xs →
  store_prev (head_ptr xs d) d h = Ret tt h
  ∧ store_next (last_ptr d xs) d h = Ret tt h.
Proof.
  intros Hr. split.
  - destruct xs as [|x xs]; cbn [head_ptr].
    + destruct Hr as [Hd _ _ _]. by eapply store_prev_id.
    + destruct (ring_node_at h d [] x xs Hr) as [Hx _].
      by eapply store_prev_id.
  - destruct xs as [|x xs _] using rev_ind.
    + destruct Hr as [Hd _ _ _]. by eapply store_next_id.
    + rewrite last_ptr_snoc. destruct (ring_node_at h d xs x [] Hr) as [Hx _].
      by eapply store_next_id.
Qed.

(** X12. Swapping a well-formed deque with itself, [d.swap(d)] or
    [std::swap(d, d)], changes nothing: the heap afterwards is the heap
    before, whether the deque is empty or not. *)
Theorem swap_self h d xs :
  ring h d xs → swap d d h = Ret tt h ∧ std_swap d d h = Ret tt h.
Proof.
  intros Hr. enough (swap d d h = Ret tt h) by done.
  pose proof (empty_spec _ _ _ Hr) as He.
  destruct (ring_ends_back _ _ _ Hr) as [Hh Hl].
  pose proof Hr as [Hd _ _ _].
  unfold swap. unfold bind at 1. rewrite He.
  destruct xs as [|x xs].
  - rewrite bool_decide_eq_true_2 by done.
    unfold move_from_. unfold bind at 1. rewrite He. cbn.
    by apply set_empty__id.
  - rewrite bool_decide_eq_false_2 by done.
    unfold bind at 1. rewrite He, bool_decide_eq_false_2 by done.
    pose proof (store_base_id _ _ _ Hd) as Hsb. cbn [base_of] in Hsb.
    unfold bind. rewrite (load_base_eq _ _ _ Hd). cbn [base_of]. cbv beta iota.
    rewrite (load_base_eq _ _ _ Hd). cbn [base_of]. cbv beta iota.
    rewrite Hsb. cbv beta iota. rewrite Hsb. cbv beta iota.
    rewrite (load_size_eq _ _ _ _ Hd). cbv beta iota.
    rewrite (load_size_eq _ _ _ _ Hd). cbv beta iota.
    rewrite (store_size_id _ _ _ _ Hd). cbv beta iota.
    rewrite (store_size_id _ _ _ _ Hd). cbv beta iota.
    rewrite (load_next_eq _ _ _ Hd). cbn [base_of prev next]. cbv beta iota.
    rewrite Hh. cbv beta iota.
    rewrite (load_prev_eq _ _ _ Hd). cbn [base_of prev next]. cbv beta iota.
    rewrite Hl. cbv beta iota.
    rewrite (load_next_eq _ _ _ Hd). cbn [base_of prev next]. cbv beta iota.
    rewrite Hh. cbv beta iota.
    rewrite (load_prev_eq _ _ _ Hd). cbn [base_of prev next]. cbv beta iota.
    by rewrite Hl.
Qed.

Lemma last_ptr_fst pp xs : last_ptr pp xs = default pp (last xs.*1).
Proof. unfold last_ptr. rewrite fmap_last. by destruct (last xs). Qed.

(** X15. A write through a reference or an iterator replaces exactly that
    element: [*it = v] at the node [p] of a well-formed deque leaves a
    well-formed deque with the same nodes in which [p] holds [v], and no
    other cell changes; [front() = v] and [back() = v] are the writes at the
    first and the last node. *)
Theorem write_through_reference h d xs1 p (v0 v : T) xs2 :
  ring h d (xs1 ++ (p, v0) :: xs2) →
  ∃ h', assign_through {| current_ := p |} v h = Ret tt h'
        ∧ ring h' d (xs1 ++ (p, v) :: xs2)
        ∧ (∀ k, k ≠ p → h' !! k = h !! k)
        ∧ (xs1 = [] → set_front d v h = Ret tt h')
        ∧ (xs2 = [] → set_back d v h = Ret tt h').
Proof.
  intros Hr. destruct (ring_node_at _ _ _ _ _ Hr) as [Hp Hpd]. cbn in Hp, Hpd.
  set (c := CNode {| prev := last_ptr d xs1; next := head_ptr xs2 d |} v).
  assert (Hst : store_data p v h = Ret tt (<[p := c]> h)).
  { unfold store_data. by rewrite Hp. }
  assert (Has : as_node p h = Ret p h).
  { unfold as_node. by rewrite Hp. }
  exists (<[p := c]> h). split_and!.
  - unfold assign_through, bind. cbn. by rewrite Has.
  - destruct Hr as [Hd Hn Hnd Hv].
    assert (Hfst : (xs1 ++ (p, v) :: xs2).*1 = (xs1 ++ (p, v0) :: xs2).*1).
    { by rewrite !fmap_app. }
    pose proof Hnd as Hnd'.
    rewrite fmap_app in Hnd. cbn in Hnd.
    apply NoDup_cons in Hnd as [Hdn Hnd].
    apply NoDup_app in Hnd as (Hn1 & Hn12 & Hn2).
    apply NoDup_cons in Hn2 as [Hp2 Hn2].
    split.
    + rewrite lookup_insert_ne by done. rewrite Hd.
      by rewrite !length_app, !last_ptr_fst, Hfst, !head_ptr_app.
    + rewrite node_cells_app in Hn |- *. cbn [head_ptr fst] in Hn |- *.
      apply holds_app in Hn as [H1 H2]. apply holds_app. split.
      * eapply holds_nodes_frame; [|exact H1]. intros k Hk.
        rewrite lookup_insert_ne; [done|]. intros <-. apply (Hn12 p Hk). by left.
      * cbn [node_cells] in H2 |- *. apply holds_cons in H2 as [_ H2].
        apply holds_cons. split; [by rewrite lookup_insert_eq|].
        eapply holds_nodes_frame; [|exact H2]. intros k Hk.
        rewrite lookup_insert_ne; [done|]. by intros <-.
    + by rewrite Hfst.
    + by rewrite Hfst.
  - intros k Hk. by rewrite lookup_insert_ne.
  - intros ->. cbn in Hr. destruct Hr as [Hd _ _ _].
    unfold set_front, head_, bind. rewrite (load_next_eq _ _ _ Hd). cbn.
    by rewrite Has.
  - intros ->. destruct Hr as [Hd _ _ _]. rewrite last_ptr_snoc in Hd.
    unfold set_back, tail_, bind. rewrite (load_prev_eq _ _ _ Hd). cbn.
    by rewrite Has.
Qed.
End edge_cases.

(** *** Lifetime: the destructor, constructors that throw, copy assignment *)

Section lifetime.
Context {T : Type}.
Abbreviation heap := (gmap N (@cell T)).
Implicit Types (h : heap) (xs ys : list (N * T)) (p q d a b : N) (t x : N * T).

Lemma Deque_dtor_spec h d xs fuel :
  ring h d xs → length xs < fuel →
  ∃ h', Deque_dtor fuel d h = Ret tt h'
        ∧ (∀ k, k ∈ d :: xs.*1 → h' !! k = None)
        ∧ (∀ k, k ∉ d :: xs.*1 → h' !! k = h !! k).
Proof.
  intros Hr Hf.
  destruct (clear_spec d xs h fuel Hr Hf) as (h1 & Hcl & Hr1 & Hfree & Hfr).
  destruct Hr as [_ _ Hnd _]. apply NoDup_cons in Hnd as [Hd _].
  exists (delete d h1). split_and!.
  - unfold Deque_dtor, bind. rewrite Hcl. unfold release_.
    destruct Hr1 as [Hd1 _ _ _]. by rewrite Hd1.
  - intros k [->|Hk]%elem_of_cons; [by rewrite lookup_delete_eq|].
    rewrite lookup_delete_ne by by intros ->. by apply Hfree.
  - intros k Hk. rewrite lookup_delete_ne by set_solver. by apply Hfr.
Qed.

(** X16. The destructor releases everything the deque owns: run on a
    well-formed deque it returns, and afterwards neither the object nor any
    of its nodes is allocated, while every other cell is as it was. *)
Theorem destructor_releases_all h d xs fuel :
  ring h d xs → length xs < fuel →
  ∃ h', Deque_dtor fuel d h = Ret tt h'
        ∧ (∀ k, k ∈ d :: xs.*1 → h' !! k = None)
        ∧ (∀ k, k ∉ d :: xs.*1 → h' !! k = h !! k).
Proof. apply Deque_dtor_spec. Qed.

Section ops.
Context (A : allocator) (copy_throws : T → option exn).

(** X17. Used as a stack at either end, a deque gives back what was pushed
    and is restored exactly: after [push_back(x); back(); pop_back()], or the
    same at the front, on any well-formed deque the value read is [x] and the
    heap is the heap before; if the push throws, the heap is unchanged as
    well. *)
Theorem stack_round_trip h d xs (x : T) :
  ring h d xs →
  match stack_back A copy_throws d x h with
  | Ret y h' => y = x ∧ h' = h
  | Throw e h' => h' = h ∧ new_node_ A (copy_ctor copy_throws x) h = Throw e h
  | _ => False
  end
  ∧ match stack_front A copy_throws d x h with
    | Ret y h' => y = x ∧ h' = h
    | Throw e h' => h' = h ∧ new_node_ A (copy_ctor copy_throws x) h = Throw e h
    | _ => False
    end.
Proof.
  intros Hr. split.
  - unfold stack_back. unfold bind at 1.
    pose proof (push_back_spec A copy_throws h d xs x Hr) as Hpush.
    destruct (push_back A copy_throws d x h) as [[] h1|e h1| |]; [|done..].
    destruct Hpush as (p & Hp & Hr1 & Hfr1).
    unfold bind at 1. rewrite (back_spec _ _ _ _ Hr1).
    destruct (pop_back_spec _ _ _ _ Hr1) as (h2 & Hpop & Hr2 & Hp2 & Hfr2).
    unfold bind. rewrite Hpop. split; [done|].
    apply map_eq. intros k. cbn [fst] in Hp2.
    destruct (decide (k = p)) as [->|Hkp]; [congruence|].
    destruct (decide (k ∈ d :: xs.*1)) as [Hin|Hout].
    + symmetry. by apply (ring_agree h h2 d xs).
    + rewrite Hfr2; [apply Hfr1; set_solver|].
      rewrite fmap_app. cbn. set_solver.
  - unfold stack_front. unfold bind at 1.
    pose proof (push_front_spec A copy_throws h d xs x Hr) as Hpush.
    destruct (push_front A copy_throws d x h) as [[] h1|e h1| |]; [|done..].
    destruct Hpush as (p & Hp & Hr1 & Hfr1).
    unfold bind at 1. rewrite (front_spec _ _ _ _ Hr1).
    destruct (pop_front_spec _ _ _ _ Hr1) as (h2 & Hpop & Hr2 & Hp2 & Hfr2).
    unfold bind. rewrite Hpop. split; [done|].
    apply map_eq. intros k. cbn [fst] in Hp2.
    destruct (decide (k = p)) as [->|Hkp]; [congruence|].
    destruct (decide (k ∈ d :: xs.*1)) as [Hin|Hout].
    + symmetry. by apply (ring_agree h h2 d xs).
    + rewrite Hfr2; [apply Hfr1; set_solver|]. cbn. set_solver.
Qed.

(** Pushing a list of values, with what it allocates and what it leaves
    alone: the nodes added are fresh, and no cell outside the ring
    changes, whether the pushes all return or one of them throws. *)
Lemma push_back_all_frame d (vs : list T) : ∀ h xs,
  ring h d xs →
  ∃ ys h' (o : option exn),
    push_back_all A copy_throws d vs h
    = match o with None => Ret tt h' | Some e => Throw e h' end
    ∧ ring h' d (xs ++ ys)
    ∧ (∀ k, k ∈ ys.*1 → h !! k = None)
    ∧ (∀ k, k ∉ d :: (xs ++ ys).*1 → h' !! k = h !! k)
    ∧ length ys ≤ length vs
    ∧ match o with
      | None => ys.*2 = vs
      | Some e => e = bad_alloc ∨ ∃ v, v ∈ vs ∧ copy_throws v = Some e
      end.
Proof.
  induction vs as [|v vs IH]; intros h xs Hr.
  - exists [], h, None. rewrite app_nil_r. split_and!; try done.
    intros k Hk. by apply elem_of_nil in Hk.
  - cbn [push_back_all]. unfold bind.
    pose proof (push_back_spec A copy_throws h d xs v Hr) as Hpush.
    destruct (push_back A copy_throws d v h) as [[] h1|e h1| |]; [| |done..].
    + destruct Hpush as (p & Hp & Hr1 & Hfr1).
      destruct (IH h1 _ Hr1) as (ys & h' & o & Hrun & Hr' & Hfresh & Hfr & Hlen & Ho).
      rewrite <- app_assoc in Hr', Hfr. cbn [app] in Hr', Hfr.
      exists ((p, v) :: ys), h', o. split_and!; [done|done| | |cbn; lia|].
      * intros k [->|Hk]%elem_of_cons; [done|].
        rewrite <- Hfr1; [by apply Hfresh|].
        pose proof (ring_fresh _ _ _ _ Hr1 (Hfresh k Hk)) as Hn.
        rewrite fmap_app in Hn. cbn in Hn. set_solver.
      * intros k Hk. rewrite Hfr by done. apply Hfr1.
        rewrite fmap_app in Hk. cbn in Hk. set_solver.
      * destruct o as [e|]; [|cbn; by f_equal].
        destruct Ho as [->|(w & Hw & He)]; [by left|].
        right. exists w. split; [by right|done].
    + destruct Hpush as [-> Hnew].
      exists [], h, (Some e). rewrite app_nil_r. split_and!; try done.
      * intros k Hk. by apply elem_of_nil in Hk.
      * cbn. lia.
      * apply (new_node__throw_cause A copy_throws) in Hnew as [->|He]; [by left|].
        right. exists v. split; [by left|done].
Qed.

(** The copy loop, with what it allocates and what it leaves alone. *)
Lemma copy_loop_frame this other : ∀ xs2 xs1 ys h fuel,
  ring h other (xs1 ++ xs2) → ring h this ys → this ≠ other →
  length xs2 < fuel →
  ∃ ys2 h' (o : option exn),
    for_loop fuel {| current_ := head_ptr xs2 other |}
      {| current_ := other |} (copy_body A copy_throws this) tt h
    = match o with None => Ret tt h' | Some e => Throw e h' end
    ∧ ring h' this (ys ++ ys2)
    ∧ ring h' other (xs1 ++ xs2)
    ∧ (∀ k, k ∈ ys2.*1 → h !! k = None)
    ∧ (∀ k, k ∉ this :: (ys ++ ys2).*1 → h' !! k = h !! k)
    ∧ ys2.*2 `prefix_of` xs2.*2
    ∧ match o with
      | None => ys2.*2 = xs2.*2
      | Some e =>
          length ys2 < length xs2
          ∧ (e = bad_alloc ∨ ∃ v, v ∈ xs2.*2 ∧ copy_throws v = Some e)
      end.
Proof.
  induction xs2 as [|x xs2 IH]; intros xs1 ys h fuel Ho Ht Hne Hf.
  - destruct fuel as [|fuel]; [cbn in Hf; lia|]. cbn.
    unfold iter_ne, iter_eq. cbn. rewrite bool_decide_eq_true_2 by done. cbn.
    exists [], h, None. rewrite (app_nil_r ys). split_and!; try done.
    intros k Hk. by apply elem_of_nil in Hk.
  - destruct fuel as [|fuel]; [cbn in Hf; lia|].
    destruct (ring_node_at _ _ _ _ _ Ho) as [Hx Hxo].
    cbn [for_loop head_ptr]. unfold iter_ne, iter_eq. cbn [current_].
    rewrite bool_decide_eq_false_2 by done. cbn [negb].
    unfold bind at 1. unfold deref, as_node, load_data, bind. cbn [current_].
    rewrite Hx. cbn. rewrite Hx.
    unfold copy_body at 1.
    pose proof (push_back_spec A copy_throws h this ys x.2 Ht) as Hpush.
    destruct (push_back A copy_throws this x.2 h) as [[] h1|e h1| |]; [| |done..].
    + destruct Hpush as (p & Hp & Ht1 & Hfr1).
      assert (ring h1 other (xs1 ++ x :: xs2)) as Ho1.
      { apply (ring_other_frame h h1 other this _ ys [p]); [done|done|done| |].
        - intros k Hk. apply list_elem_of_singleton in Hk. by subst.
        - intros k Hk. apply Hfr1. set_solver. }
      destruct (ring_node_at _ _ _ _ _ Ho1) as [Hx1 _].
      unfold incr, load_next, load_base, bind, ret. cbn [current_].
      rewrite Hx1. cbn [base_of next].
      replace (xs1 ++ x :: xs2) with ((xs1 ++ [x]) ++ xs2) in *
        by by rewrite <- app_assoc.
      destruct (IH (xs1 ++ [x]) (ys ++ [(p, x.2)]) h1 fuel Ho1 Ht1 Hne
                  ltac:(cbn in Hf; lia))
        as (ys2 & h' & o & Hrun & Ht' & Ho' & Hfresh & Hfr & Hpre & Hres).
      rewrite <- app_assoc in Ht', Hfr. cbn [app] in Ht', Hfr.
      exists ((p, x.2) :: ys2), h', o.
      split_and!; [done|done|done| | | |].
      * intros k [->|Hk]%elem_of_cons; [done|].
        rewrite <- Hfr1; [by apply Hfresh|].
        pose proof (ring_fresh _ _ _ _ Ht1 (Hfresh k Hk)) as Hn.
        rewrite fmap_app in Hn. cbn in Hn. set_solver.
      * intros k Hk. rewrite Hfr by done. apply Hfr1.
        rewrite fmap_app in Hk. cbn in Hk. set_solver.
      * cbn. by apply prefix_cons.
      * destruct o as [e|]; [|cbn; by f_equal].
        destruct Hres as [Hlt Hres]. split; [cbn; lia|].
        destruct Hres as [->|(w & Hw & He)]; [by left|].
        right. exists w. split; [by right|done].
    + destruct Hpush as [-> Hnew].
      exists [], h, (Some e). rewrite app_nil_r. split_and!; try done.
      * intros k Hk. by apply elem_of_nil in Hk.
      * apply prefix_nil.
      * cbn. lia.
      * apply (new_node__throw_cause A copy_throws) in Hnew as [->|He]; [by left|].
        right. exists x.2. split; [by left|done].
Qed.

(** A deque that was built at a fresh address from fresh nodes, destroyed:
    the heap is the heap before it was built. *)
Lemma destroy_restores h h0 h1 d ys fuel :
  h !! d = None → (∀ k, k ≠ d → h0 !! k = h !! k) →
  ring h1 d ys → (∀ k, k ∈ ys.*1 → h0 !! k = None) →
  (∀ k, k ∉ d :: ys.*1 → h1 !! k = h0 !! k) → length ys < fuel →
  Deque_dtor fuel d h1 = Ret tt h.
Proof.
  intros Hd Hfr0 Hr1 Hfresh Hfr1 Hf.
  destruct (Deque_dtor_spec h1 d ys fuel Hr1 Hf) as (h2 & Hrun & Hfree & Hfr2).
  rewrite Hrun. f_equal. apply map_eq. intros k.
  destruct (decide (k = d)) as [->|Hkd].
  - rewrite Hd. apply Hfree. by left.
  - destruct (decide (k ∈ ys.*1)) as [Hin|Hout].
    + rewrite Hfree by by right. rewrite <- Hfr0 by done. symmetry. by apply Hfresh.
    + rewrite Hfr2, Hfr1 by set_solver. by apply Hfr0.
Qed.

(** X18. Constructing a deque from an initializer list never leaks.  If
    every push returns, the deque holds the arguments in order, in fresh
    nodes, and nothing else changes; if a push throws, the nodes already
    allocated are deleted and the heap is exactly the heap before the
    constructor was called.  A deque built this way and destroyed at the end
    of its scope leaves the heap as it found it. *)
Theorem init_list_no_leak h d (args : list T) fuel :
  h !! d = None → valid_ptr d → length args < fuel →
  match Deque_init_list_unwinding A copy_throws fuel d args h with
  | Ret _ h' =>
      ∃ ys, ys.*2 = args ∧ ring h' d ys
            ∧ (∀ k, k ∈ d :: ys.*1 → h !! k = None)
            ∧ (∀ k, k ∉ d :: ys.*1 → h' !! k = h !! k)
  | Throw e h' =>
      h' = h ∧ (e = bad_alloc ∨ ∃ v, v ∈ args ∧ copy_throws v = Some e)
  | _ => False
  end
  ∧ match scoped_deque A copy_throws fuel d args h with
    | Ret _ h' | Throw _ h' => h' = h
    | _ => False
    end.
Proof.
  intros Hd Hv Hf.
  destruct (Deque_default_spec h d Hd Hv) as (h0 & Hdef & Hr0 & Hfr0).
  destruct (push_back_all_frame d args h0 [] Hr0)
    as (ys & h1 & o & Hrun & Hr1 & Hfresh & Hfr1 & Hlen & Ho).
  cbn [app] in Hr1, Hfr1.
  assert (Hdtor : Deque_dtor fuel d h1 = Ret tt h).
  { apply (destroy_restores h h0 h1 d ys); [done..|lia]. }
  assert (Hctor : Deque_init_list_unwinding A copy_throws fuel d args h
                  = match o with None => Ret tt h1 | Some e => Throw e h end).
  { unfold Deque_init_list_unwinding, bind. rewrite Hdef. unfold unwind.
    rewrite Hrun. destruct o; [by rewrite Hdtor|done]. }
  split.
  - rewrite Hctor. destruct o as [e|]; [done|].
    exists ys. split_and!; [done|done| |].
    + intros k [->|Hk]%elem_of_cons; [done|].
      rewrite <- Hfr0; [by apply Hfresh|]. intros ->.
      destruct Hr1 as [_ _ Hnd _]. by apply NoDup_cons in Hnd as [? _].
    + intros k Hk. rewrite Hfr1 by done. apply Hfr0. set_solver.
  - unfold scoped_deque, bind. rewrite Hctor. destruct o as [e|]; [done|].
    by rewrite Hdtor.
Qed.

(** A run of pushes that throws: the pushes before the failing one
    returned, and the node of the failing one could not be created in the
    heap they left, which is the heap the run ends with. *)
Lemma push_back_all_throw d (vs : list T) : ∀ h xs e h',
  ring h d xs → push_back_all A copy_throws d vs h = Throw e h' →
  ∃ vs1 v vs2,
    vs = vs1 ++ v :: vs2 ∧ push_back_all A copy_throws d vs1 h = Ret tt h'
    ∧ creation_fails A (copy_ctor copy_throws v) h' e.
Proof.
  induction vs as [|v vs IH]; intros h xs e h' Hr Hrun; [done|].
  cbn [push_back_all] in Hrun. unfold bind in Hrun.
  pose proof (push_back_spec A copy_throws h d xs v Hr) as Hpush.
  destruct (push_back A copy_throws d v h) as [[] h1|e1 h1| |] eqn:Hp; [| |done..].
  - destruct Hpush as (p & _ & Hr1 & _).
    destruct (IH h1 _ e h' Hr1 Hrun) as (vs1 & w & vs2 & -> & Hpre & Hc).
    exists (v :: vs1), w, vs2. split_and!; [done| |done].
    cbn [push_back_all]. unfold bind. by rewrite Hp.
  - destruct Hpush as [-> Hnew]. injection Hrun as <- <-.
    exists [], v, vs. split_and!; [done|done|].
    by apply creation_fails_iff.
Qed.
Lemma push_front_all_throw d (vs : list T) : ∀ h xs e h',
  ring h d xs → push_front_all A copy_throws d vs h = Throw e h' →
  ∃ vs1 v vs2,
    vs = vs1 ++ v :: vs2 ∧ push_front_all A copy_throws d vs1 h = Ret tt h'
    ∧ creation_fails A (copy_ctor copy_throws v) h' e.
Proof.
  induction vs as [|v vs IH]; intros h xs e h' Hr Hrun; [done|].
  cbn [push_front_all] in Hrun. unfold bind in Hrun.
  pose proof (push_front_spec A copy_throws h d xs v Hr) as Hpush.
  destruct (push_front A copy_throws d v h) as [[] h1|e1 h1| |] eqn:Hp; [| |done..].
  - destruct Hpush as (p & _ & Hr1 & _).
    destruct (IH h1 _ e h' Hr1 Hrun) as (vs1 & w & vs2 & -> & Hpre & Hc).
    exists (v :: vs1), w, vs2. split_and!; [done| |done].
    cbn [push_front_all]. unfold bind. by rewrite Hp.
  - destruct Hpush as [-> Hnew]. injection Hrun as <- <-.
    exists [], v, vs. split_and!; [done|done|].
    by apply creation_fails_iff.
Qed.

(** C4.  Starting from a freshly constructed deque, a run of [push_back]
    calls leaves a deque whose forward traversal visits the values in call
    order, a run of [push_front] calls one whose traversal visits them in
    reverse call order, and the initializer-list constructor, which is
    [Deque()] followed by one [push_back] per element, one whose traversal
    visits the elements in order.  Such a run ends otherwise in one way
    only: the pushes before some value returned, and in the heap they left
    there was no storage for its node, or there was and its copy threw; the
    exception is that failure's.  The runs of pushes then stop in that heap;
    the constructor, whose destructor runs, leaves the heap as it found
    it. *)
Theorem push_order h d (vs : list T) fuel :
  h !! d = None → valid_ptr d → length vs < fuel →
  push_outcome A copy_throws (pushes_back A copy_throws d h) d vs vs
  ∧ push_outcome A copy_throws (pushes_front A copy_throws d h) d vs (rev vs)
  ∧ match Deque_init_list_unwinding A copy_throws fuel d vs h with
    | Ret _ h' => visits h' d vs
    | Throw e h' =>
        h' = h
        ∧ ∃ h1, push_fails A copy_throws (pushes_back A copy_throws d h) vs h1 e
    | _ => False
    end.
Proof.
  intros Hd Hv Hf.
  destruct (Deque_default_spec h d Hd Hv) as (h0 & Hdef & Hr0 & Hfr0).
  assert (Hpre : ∀ l, pushes_back A copy_throws d h l
                      = push_back_all A copy_throws d l h0).
  { intros l. unfold pushes_back, bind. by rewrite Hdef. }
  assert (Hpre' : ∀ l, pushes_front A copy_throws d h l
                       = push_front_all A copy_throws d l h0).
  { intros l. unfold pushes_front, bind. by rewrite Hdef. }
  assert (Hback : ∀ e h1, push_back_all A copy_throws d vs h0 = Throw e h1 →
            push_fails A copy_throws (pushes_back A copy_throws d h) vs h1 e).
  { intros e h1 Hrun.
    destruct (push_back_all_throw d vs h0 [] e h1 Hr0 Hrun)
      as (vs1 & v & vs2 & Hvs & Hrun1 & Hc).
    exists vs1, v, vs2. by rewrite Hpre. }
  split_and!.
  - unfold push_outcome. rewrite Hpre.
    pose proof (push_back_all_spec A copy_throws d vs h0 [] Hr0) as Hall.
    destruct (push_back_all A copy_throws d vs h0) as [[] h1|e h1| |] eqn:Hrun;
      [|by apply Hback|done..].
    destruct Hall as (ys & <- & Hr1). by apply ring_visits.
  - unfold push_outcome. rewrite Hpre'.
    pose proof (push_front_all_spec A copy_throws d vs h0 [] Hr0) as Hall.
    destruct (push_front_all A copy_throws d vs h0) as [[] h1|e h1| |] eqn:Hrun;
      [| |done..].
    + destruct Hall as (ys & <- & Hr1). rewrite app_nil_r in Hr1.
      by apply ring_visits.
    + destruct (push_front_all_throw d vs h0 [] e h1 Hr0 Hrun)
        as (vs1 & v & vs2 & Hvs & Hrun1 & Hc).
      exists vs1, v, vs2. by rewrite Hpre'.
  - destruct (push_back_all_frame d vs h0 [] Hr0)
      as (ys & h1 & o & Hrun & Hr1 & Hfresh & Hfr1 & Hlen & Ho).
    cbn [app] in Hr1, Hfr1.
    assert (Hdtor : Deque_dtor fuel d h1 = Ret tt h).
    { apply (destroy_restores h h0 h1 d ys); [done..|lia]. }
    unfold Deque_init_list_unwinding, bind. rewrite Hdef. unfold unwind.
    rewrite Hrun. destruct o as [e|].
    + rewrite Hdtor. split; [done|]. exists h1. by apply Hback.
    + rewrite <- Ho. by apply ring_visits.
Qed.

(** X19. Copy construction never leaks and never disturbs its source.  If
    every copy succeeds, the new deque holds the source's elements in order
    in fresh nodes, and no cell that existed before has changed; if a copy
    throws part-way, the nodes already allocated are deleted and the heap is
    exactly the heap before the constructor was called. *)
Theorem copy_ctor_no_leak h this other xs fuel :
  ring h other xs → h !! this = None → valid_ptr this → length xs < fuel →
  match Deque_copy_unwinding A copy_throws fuel this other h with
  | Ret _ h' =>
      ∃ ys, ys.*2 = xs.*2 ∧ ring h' this ys ∧ ring h' other xs
            ∧ (∀ k, k ∈ this :: ys.*1 → h !! k = None)
            ∧ (∀ k, k ∉ this :: ys.*1 → h' !! k = h !! k)
  | Throw e h' =>
      h' = h ∧ (e = bad_alloc ∨ ∃ v, v ∈ xs.*2 ∧ copy_throws v = Some e)
  | _ => False
  end.
Proof.
  intros Ho Ht Hv Hf.
  assert (this ≠ other) as Hne.
  { intros ->. destruct Ho as [Hd _ _ _]. congruence. }
  destruct (Deque_default_spec h this Ht Hv) as (h0 & Hdef & Ht0 & Hfr0).
  assert (ring h0 other xs) as Ho0.
  { apply (ring_frame h); [done|]. intros k Hk. apply Hfr0. intros ->.
    by apply (ring_fresh _ _ _ _ Ho Ht). }
  destruct (copy_loop_frame this other xs [] [] h0 fuel Ho0 Ht0 Hne Hf)
    as (ys & h1 & o & Hrun & Ht1 & Ho1 & Hfresh & Hfr1 & Hpre & Hres).
  cbn [app] in Ht1, Ho1, Hfr1.
  assert (length ys ≤ length xs) as Hlen.
  { apply prefix_length in Hpre. by rewrite !length_fmap in Hpre. }
  assert (Hdtor : Deque_dtor fuel this h1 = Ret tt h).
  { apply (destroy_restores h h0 h1 this ys); [done..|lia]. }
  unfold Deque_copy_unwinding, bind. rewrite Hdef. unfold unwind.
  unfold range_for, begin, end_, bind, ret.
  pose proof Ho0 as [Hd0 _ _ _].
  rewrite (load_next_eq _ _ _ Hd0). cbn [base_of next].
  change (λ (elt : T) (_ : ()), push_back A copy_throws this elt)
    with (copy_body A copy_throws this).
  rewrite Hrun. destruct o as [e|]; [rewrite Hdtor; by destruct Hres|].
  exists ys. split_and!; [done|done|done| |].
  - intros k [->|Hk]%elem_of_cons; [done|].
    rewrite <- Hfr0; [by apply Hfresh|]. intros ->.
    destruct Ht1 as [_ _ Hnd _]. by apply NoDup_cons in Hnd as [? _].
  - intros k Hk. rewrite Hfr1 by done. apply Hfr0. set_solver.
Qed.

(** X20. Copy assignment between two different deques gives the basic
    guarantee only.  If every copy succeeds the target holds the source's
    elements in order; if a copy throws part-way the target is well formed
    but holds only the elements copied so far, its old elements being gone.
    The source is as it was in either case. *)
Theorem copy_assign_distinct h a b xs ys fuel :
  ring h a xs → ring h b ys → a ≠ b → length xs < fuel → length ys < fuel →
  match copy_assign A copy_throws fuel b a h with
  | Ret _ h' => ∃ zs, zs.*2 = xs.*2 ∧ ring h' b zs ∧ ring h' a xs
  | Throw e h' =>
      (∃ zs, zs.*2 `prefix_of` xs.*2 ∧ zs.*2 ≠ xs.*2
             ∧ ring h' b zs ∧ ring h' a xs)
      ∧ (e = bad_alloc ∨ ∃ v, v ∈ xs.*2 ∧ copy_throws v = Some e)
  | _ => False
  end.
Proof.
  intros Ha Hb Hab Hfa Hfb.
  destruct (clear_spec b ys h fuel Hb Hfb) as (h1 & Hcl & Hb1 & _ & Hfr).
  assert (ring h1 a xs) as Ha1.
  { apply (ring_other_frame h h1 a b xs ys []); [done|done|done| |].
    - intros k Hk. by apply elem_of_nil in Hk.
    - intros k Hk. apply Hfr. set_solver. }
  destruct (copy_loop_frame b a xs [] [] h1 fuel Ha1 Hb1 ltac:(done) Hfa)
    as (zs & h2 & o & Hrun & Hb2 & Ha2 & _ & _ & Hpre & Hres).
  cbn [app] in Hb2, Ha2.
  unfold copy_assign, bind. rewrite Hcl.
  unfold range_for, begin, end_, bind, ret.
  pose proof Ha1 as [Hd1 _ _ _].
  rewrite (load_next_eq _ _ _ Hd1). cbn [base_of next].
  change (λ (elt : T) (_ : ()), push_back A copy_throws b elt)
    with (copy_body A copy_throws b).
  rewrite Hrun. destruct o as [e|]; [|by exists zs].
  destruct Hres as [Hlt Hres]. split; [|done].
  exists zs. split_and!; [done| |done|done].
  intros Heq. apply (f_equal length) in Heq. rewrite !length_fmap in Heq. lia.
Qed.
End ops.
End lifetime.

(** *** Reverse iteration *)

Section reverse.
Context {T : Type}.
Abbreviation heap := (gmap N (@cell T)).
Implicit Types (h : heap) (xs ys : list (N * T)) (p q d a b : N) (t x : N * T).

(** The cell after a prefix [xs1] of the ring links back to the last node
    of the prefix. *)
Lemma ring_prev_of_rest h d xs1 xs2 :
  ring h d (xs1 ++ xs2) →
  load_prev (head_ptr xs2 d) h = Ret (last_ptr d xs1) h.
Proof.
  intros Hr. destruct xs2 as [|y xs2]; cbn [head_ptr].
  - rewrite app_nil_r in Hr. by destruct (ring_sentinel_links _ _ _ Hr) as (_ & ? & _).
  - by destruct (ring_node_links _ _ _ _ _ Hr) as (_ & ? & _).
Qed.

Lemma rfor_loop_nodes h d : ∀ xs1 xs2 fuel (acc : list T),
  ring h d (xs1 ++ xs2) → length xs1 < fuel →
  rfor_loop fuel {| current := {| current_ := head_ptr xs2 d |} |}
    {| current := {| current_ := head_ptr (xs1 ++ xs2) d |} |} collect acc h
  = Ret (acc ++ rev xs1.*2) h.
Proof.
  induction xs1 as [|x xs1 IH] using rev_ind; intros xs2 fuel acc Hr Hf.
  - destruct fuel as [|fuel]; [cbn in Hf; lia|]. cbn.
    unfold riter_ne, riter_eq, iter_eq. cbn.
    rewrite bool_decide_eq_true_2 by done. cbn. by rewrite app_nil_r.
  - destruct fuel as [|fuel]; [cbn in Hf; lia|].
    rewrite length_app in Hf. cbn in Hf.
    pose proof (ring_prev_of_rest _ _ _ _ Hr) as Hprev.
    rewrite last_ptr_snoc in Hprev.
    rewrite <- app_assoc in Hr |- *. cbn [app] in Hr |- *.
    destruct (ring_node_links _ _ _ _ _ Hr) as (_ & _ & Has & Hdata).
    assert (head_ptr xs2 d ≠ head_ptr (xs1 ++ x :: xs2) d) as Hne.
    { destruct Hr as [_ _ Hnd _]. rewrite fmap_app in Hnd. cbn in Hnd.
      rewrite head_ptr_app. cbn [head_ptr].
      apply NoDup_cons in Hnd as [Hd Hnd].
      apply NoDup_app in Hnd as (_ & Hdisj & Hn2).
      apply NoDup_cons in Hn2 as [Hx Hn2].
      assert (head_ptr xs1 x.1 ∈ xs1.*1 ++ [x.1]) as Hin.
      { destruct xs1 as [|z xs1]; cbn; set_solver. }
      assert (head_ptr xs2 d ∈ d :: xs2.*1) as Hin2.
      { destruct xs2 as [|z xs2]; cbn; set_solver. }
      intros Heq. rewrite Heq in Hin2.
      apply elem_of_app in Hin as [Hin|Hin%list_elem_of_singleton].
      - apply elem_of_cons in Hin2 as [Heq2|Hin2].
        + rewrite Heq2 in Hin. set_solver.
        + apply (Hdisj _ Hin). by right.
      - rewrite Hin in Hin2. set_solver. }
    cbn [rfor_loop]. unfold riter_ne, riter_eq, iter_eq. cbn [current current_].
    rewrite bool_decide_eq_false_2 by done. cbn [negb].
    unfold bind at 1. unfold rderef, decr. cbn [current current_].
    unfold bind at 1. unfold bind at 1. rewrite Hprev. unfold ret at 1.
    unfold deref, bind. cbn [current_]. rewrite Has, Hdata.
    unfold collect at 1, ret at 1.
    unfold rincr, decr, bind, ret. cbn [current current_]. rewrite Hprev.
    change x.1 with (head_ptr (x :: xs2) d).
    rewrite (IH (x :: xs2) fuel (acc ++ [x.2]) Hr ltac:(lia)).
    by rewrite fmap_app, rev_app_distr, <- app_assoc.
Qed.

(** X21. Reverse iteration visits the elements back to front: on a
    well-formed deque, the loop from [rbegin()] to [rend()] (or from
    [crbegin()] to [crend()]) returns, with the heap unchanged, the elements
    in the reverse of the order the forward loop from [begin()] to [end()]
    visits them. *)
Theorem reverse_traversal h d xs fuel :
  ring h d xs → length xs < fuel →
  rtraverse fuel d h = Ret (rev xs.*2) h
  ∧ traverse fuel d h = Ret xs.*2 h
  ∧ (first <- crbegin d ;; last <- crend d ;;
     rfor_loop fuel first last collect []) h = Ret (rev xs.*2) h.
Proof.
  intros Hr Hf.
  assert (rtraverse fuel d h = Ret (rev xs.*2) h) as Hrt.
  { unfold rtraverse, rbegin, rend, begin, end_, bind, ret.
    destruct (ring_sentinel_links _ _ _ Hr) as (Hn & _ & _). rewrite Hn.
    pose proof (rfor_loop_nodes h d xs [] fuel []) as Hl.
    rewrite app_nil_r in Hl. cbn [head_ptr] in Hl. by apply Hl. }
  split_and!; [done|by apply traverse_spec|exact Hrt].
Qed.
End reverse.

(** *** The properties at concrete deques *)

Import SentinelExamples.

Ltac concrete_ring :=
  split;
  [ reflexivity
  | repeat constructor
  | apply (bool_decide_unpack _); vm_compute; exact I
  | repeat constructor; vm_compute; reflexivity ].

Lemma heap_empty_ring : ring heap_empty 1 [].
Proof. concrete_ring. Defined.
Lemma heap_one_ring : ring heap_one 1 [(2%N, 7%N)].
Proof. concrete_ring. Defined.
Lemma heap_two_ring_1 : ring heap_two 1 [].
Proof. concrete_ring. Defined.
Lemma heap_two_ring_2 : ring heap_two 2 [(3%N, 9%N)].
Proof. concrete_ring. Defined.

Lemma swap_with_empty_side_witness :
  ring heap_two 1 [] ∧ ring heap_two 2 [(3%N, 9%N)]
  ∧ ∃ h', swap 1 2 heap_two = Ret tt h' ∧ swap 2 1 heap_two = Ret tt h'
          ∧ visits h' 2 []
          ∧ ∀ fuel, traverse fuel 1 h'
                    = if decide (fuel ≤ 1) then OutOfFuel else UB.
Proof.
  split; [exact heap_two_ring_1|]. split; [exact heap_two_ring_2|].
  apply (swap_with_empty_side heap_two 1 2 [(3%N, 9%N)]
           heap_two_ring_1 heap_two_ring_2 ltac:(discriminate)).
Defined.

Lemma swap_breaks_ring_witness :
  ring heap_two 1 [] ∧ ring heap_two 2 [(3%N, 9%N)]
  ∧ ∃ h', swap 1 2 heap_two = Ret tt h'
        ∧ Sentinel.size 1 h' = Ret 1%N h'
        ∧ (∀ fuel vs, traverse fuel 1 h' ≠ Ret vs h')
        ∧ (∀ ys, ¬ ring h' 1 ys)
        ∧ (∃ c, h' !! 3%N = Some c ∧ prev (base_of c) = 2%N ∧ 2%N ≠ 1%N).
Proof.
  split; [exact heap_two_ring_1|]. split; [exact heap_two_ring_2|].
  apply (swap_breaks_ring heap_two 1 2 [(3%N, 9%N)]
           heap_two_ring_1 heap_two_ring_2 ltac:(discriminate)).
Defined.

Lemma push_order_witness :
  (∅ : gmap N (@cell N)) !! 1%N = None ∧ valid_ptr 1
  ∧ length [10; 20; 30]%N < 4
  ∧ push_outcome Arena.roomy no_throw (pushes_back Arena.roomy no_throw 1 ∅) 1
      [10; 20; 30]%N [10; 20; 30]%N
  ∧ push_outcome Arena.roomy no_throw (pushes_front Arena.roomy no_throw 1 ∅) 1
      [10; 20; 30]%N [30; 20; 10]%N
  ∧ match Deque_init_list_unwinding Arena.roomy no_throw 4 1 [10; 20; 30]%N ∅ with
    | Ret _ h' => visits h' 1 [10; 20; 30]%N
    | Throw e h' =>
        h' = ∅
        ∧ ∃ h1, push_fails Arena.roomy no_throw
                  (pushes_back Arena.roomy no_throw 1 ∅) [10; 20; 30]%N h1 e
    | _ => False
    end.
Proof.
  assert (valid_ptr 1) as Hv by (unfold valid_ptr, ptr_bound; lia).
  assert (length [10; 20; 30]%N < 4) as Hf by (cbn; lia).
  split; [reflexivity|]. split; [exact Hv|]. split; [exact Hf|].
  exact (push_order Arena.roomy no_throw ∅ 1 [10; 20; 30]%N 4 eq_refl Hv Hf).
Defined.

(** These runs return: the initializer list 10, 20, 30 is visited in that
    order, and pushed at the front in the reverse order. *)
Example init_list_runs :
  ∃ h', (Deque_init_list_unwinding Arena.roomy no_throw 4 1 [10; 20; 30]%N ;; traverse 4 1) ∅
        = Ret [10; 20; 30]%N h'.
Proof. eexists. vm_compute. reflexivity. Qed.
Example push_front_runs :
  ∃ h', (Deque_default 1 ;; push_front_all Arena.roomy no_throw 1 [10; 20; 30]%N ;;
         traverse 4 1) ∅
        = Ret [30; 20; 10]%N h'.
Proof. eexists. vm_compute. reflexivity. Qed.

Lemma round_trip_cases_witness :
  ring heap_empty 1 []
  ∧ match fifo_round_trip Arena.roomy no_throw 1 7%N heap_empty with
    | Ret y h' => y = 7%N ∧ h' = heap_empty
    | Throw e h' =>
        h' = heap_empty
        ∧ new_node_ Arena.roomy (copy_ctor no_throw 7%N) heap_empty = Throw e heap_empty
    | _ => False
    end
  ∧ match lifo_round_trip Arena.roomy no_throw 1 7%N heap_empty with
    | Ret y h' => y = 7%N ∧ h' = heap_empty
    | Throw e h' =>
        h' = heap_empty
        ∧ new_node_ Arena.roomy (copy_ctor no_throw 7%N) heap_empty = Throw e heap_empty
    | _ => False
    end.
Proof.
  destruct (round_trip_cases Arena.roomy no_throw heap_empty 1 [] 7%N
              heap_empty_ring) as [Hfifo Hlifo].
  split; [exact heap_empty_ring|]. split.
  - destruct (fifo_round_trip Arena.roomy no_throw 1 7%N heap_empty)
      as [y h'|e h'| |]; [exact (proj1 Hfifo eq_refl)|exact Hfifo..].
  - destruct (lifo_round_trip Arena.roomy no_throw 1 7%N heap_empty)
      as [y h'|e h'| |]; [exact (proj1 Hlifo eq_refl)|exact Hlifo..].
Defined.

Example round_trip_runs :
  fifo_round_trip Arena.roomy no_throw 1 7%N heap_empty = Ret 7%N heap_empty
  ∧ lifo_round_trip Arena.roomy no_throw 1 7%N heap_empty = Ret 7%N heap_empty.
Proof. split; vm_compute; reflexivity. Qed.

(** On the deque {7}, [push_back(8); pop_front()] removes 7, not 8, and
    leaves {8}, not {7}. *)
Lemma fifo_round_trip_counterexample :
  ring heap_one 1 [(2%N, 7%N)]
  ∧ ∃ h', fifo_round_trip Arena.roomy no_throw 1 8%N heap_one = Ret 7%N h'
          ∧ 7%N ≠ 8%N
          ∧ h' ≠ heap_one
          ∧ traverse 2 1 h' = Ret [8%N] h'.
Proof.
  split; [exact heap_one_ring|].
  eexists. split; [vm_compute; reflexivity|]. split; [done|]. split.
  - intros Heq. apply (f_equal (λ h, h !! 2%N)) in Heq. vm_compute in Heq.
    discriminate Heq.
  - vm_compute. reflexivity.
Qed.

Lemma fifo_round_trip_nonempty_witness :
  ring heap_one 1 [(2%N, 7%N)]
  ∧ match fifo_round_trip Arena.roomy no_throw 1 8%N heap_one with
    | Ret y h' => y = 7%N ∧ ∃ p, ring h' 1 [(p, 8%N)]
    | Throw e h' =>
        h' = heap_one
        ∧ new_node_ Arena.roomy (copy_ctor no_throw 8%N) heap_one
          = Throw e heap_one
    | _ => False
    end.
Proof.
  split; [exact heap_one_ring|].
  apply (fifo_round_trip_nonempty Arena.roomy no_throw heap_one 1
           (2%N, 7%N) [] 8%N heap_one_ring).
Defined.

Lemma push_strong_guarantee_witness :
  ring heap_empty 1 []
  ∧ strong_guarantee Arena.full (emplace_front Arena.full 1 (inr 7%N)) (inr 7%N) heap_empty
  ∧ strong_guarantee Arena.full (emplace_back Arena.full 1 (inr 7%N)) (inr 7%N) heap_empty
  ∧ strong_guarantee Arena.full (push_front Arena.full no_throw 1 7%N)
      (copy_ctor no_throw 7%N) heap_empty
  ∧ strong_guarantee Arena.full (push_back Arena.full no_throw 1 7%N)
      (copy_ctor no_throw 7%N) heap_empty.
Proof.
  split; [exact heap_empty_ring|].
  apply (push_strong_guarantee Arena.full no_throw heap_empty 1 [] (inr 7%N) 7%N
           heap_empty_ring).
Defined.

(** Both kinds of failure, run: no storage, and a copy constructor that
    throws. *)
Example push_failures_run :
  push_back Arena.full no_throw 1 7%N heap_empty = Throw bad_alloc heap_empty
  ∧ push_front Arena.roomy (λ _, Some (element_exn 3)) 1 7%N heap_one
    = Throw (element_exn 3) heap_one
  ∧ emplace_back Arena.roomy 1 (inl (element_exn 4)) heap_one
    = Throw (element_exn 4) heap_one.
Proof. split_and!; vm_compute; reflexivity. Qed.

Lemma self_copy_assign_witness :
  ring heap_one 1 [(2%N, 7%N)]
  ∧ ∃ h', copy_assign Arena.roomy no_throw 2 1 1 heap_one = Ret tt h'
          ∧ clear 2 1 heap_one = Ret tt h'
          ∧ ring h' 1 []
          ∧ empty 1 h' = Ret true h'.
Proof.
  split; [exact heap_one_ring|].
  apply (self_copy_assign Arena.roomy no_throw heap_one 1 [(2%N, 7%N)] 2 heap_one_ring).
  cbn. lia.
Defined.

(** The scenario a = {1,2}, b = {9}: both sides hold nodes, and
    [swap] exchanges the contents. *)
Example swap_scenario :
  ∃ h', (Deque_init_list_unwinding Arena.roomy no_throw 3 1 [1; 2]%N ;;
         Deque_init_list_unwinding Arena.roomy no_throw 2 10 [9]%N ;;
         swap 1 10 ;;
         a <- traverse 3 1 ;; b <- traverse 3 10 ;; ret (a, b)) ∅
        = Ret ([9]%N, [1; 2]%N) h'.
Proof. eexists. vm_compute. reflexivity. Qed.

Lemma heap_pair_ring_1 : ring heap_pair 1 nodes_12.
Proof. concrete_ring. Defined.
Lemma heap_pair_ring_10 : ring heap_pair 10 nodes_9.
Proof. concrete_ring. Defined.

Lemma swap_exchanges_witness :
  ring heap_pair 1 nodes_12 ∧ ring heap_pair 10 nodes_9
  ∧ ∃ h', swap 1 10 heap_pair = Ret tt h'
          ∧ ring h' 1 nodes_9 ∧ ring h' 10 nodes_12
          ∧ visits h' 1 [9%N] ∧ visits h' 10 [1%N; 2%N].
Proof.
  split; [exact heap_pair_ring_1|]. split; [exact heap_pair_ring_10|].
  apply (swap_exchanges heap_pair 1 10 nodes_12 nodes_9
           heap_pair_ring_1 heap_pair_ring_10); [discriminate|].
  split; discriminate.
Defined.

Lemma swap_twice_witness :
  ring heap_pair 1 nodes_12 ∧ ring heap_pair 10 nodes_9
  ∧ (swap 1 10 ;; swap 1 10) heap_pair = Ret tt heap_pair.
Proof.
  split; [exact heap_pair_ring_1|]. split; [exact heap_pair_ring_10|].
  apply (swap_twice heap_pair 1 10 nodes_12 nodes_9
           heap_pair_ring_1 heap_pair_ring_10); [discriminate|].
  split; discriminate.
Defined.

Lemma front_back_iterators_witness :
  ring heap_pair 1 nodes_12
  ∧ front 1 heap_pair = (i <- begin 1 ;; deref i) heap_pair
  ∧ back 1 heap_pair = (e <- end_ 1 ;; i <- decr e ;; deref i) heap_pair
  ∧ ∃ v w, head nodes_12.*2 = Some v ∧ last nodes_12.*2 = Some w
           ∧ front 1 heap_pair = Ret v heap_pair
           ∧ back 1 heap_pair = Ret w heap_pair.
Proof.
  split; [exact heap_pair_ring_1|].
  apply (front_back_iterators heap_pair 1 nodes_12 heap_pair_ring_1).
  discriminate.
Defined.

Example front_back_run :
  front 1 heap_pair = Ret 1%N heap_pair ∧ back 1 heap_pair = Ret 2%N heap_pair.
Proof. split; vm_compute; reflexivity. Qed.

Lemma clear_empties_witness :
  ring heap_pair 1 nodes_12
  ∧ ∃ h', clear 3 1 heap_pair = Ret tt h'
          ∧ empty 1 h' = Ret true h'
          ∧ Sentinel.size 1 h' = Ret 0%N h'
          ∧ (i <- begin 1 ;; e <- end_ 1 ;; ret (iter_eq i e)) h' = Ret true h'
          ∧ visits h' 1 [].
Proof.
  split; [exact heap_pair_ring_1|].
  apply (clear_empties heap_pair 1 nodes_12 3 heap_pair_ring_1). cbn. lia.
Defined.

Lemma ring_preserved_witness :
  ring heap_pair 1 nodes_12
  ∧ Sentinel.size 1 heap_pair = Ret 2%N heap_pair
  ∧ visits heap_pair 1 [1%N; 2%N]
  ∧ ∃ h', pop_front 1 heap_pair = Ret tt h' ∧ ring h' 1 [(3%N, 2%N)].
Proof.
  destruct (ring_preserved Arena.roomy no_throw heap_pair 1 nodes_12
              heap_pair_ring_1) as (Hs & Hv & _ & _ & _ & _ & Hpop & _).
  split; [exact heap_pair_ring_1|]. split; [exact Hs|]. split; [exact Hv|].
  exact (Hpop (2%N, 1%N) [(3%N, 2%N)] eq_refl).
Defined.

Example copy_runs :
  ∃ h', (Deque_copy_unwinding Arena.roomy no_throw 3 20 1 ;;
         push_back Arena.roomy no_throw 20 5%N ;;
         a <- traverse 4 1 ;; b <- traverse 4 20 ;; ret (a, b)) heap_pair
        = Ret ([1; 2]%N, [1; 2; 5]%N) h'.
Proof. eexists. vm_compute. reflexivity. Qed.

Lemma mutation_is_local_witness :
  ring heap_pair 1 nodes_12 ∧ ring heap_pair 10 nodes_9
  ∧ ∃ h', clear 2 10 heap_pair = Ret tt h' ∧ ring h' 1 nodes_12.
Proof.
  destruct (mutation_is_local Arena.roomy no_throw heap_pair 1 10 nodes_12 nodes_9
              heap_pair_ring_1 heap_pair_ring_10 ltac:(discriminate))
    as (_ & _ & _ & _ & Hcl).
  split; [exact heap_pair_ring_1|]. split; [exact heap_pair_ring_10|].
  apply (Hcl 2). cbn. lia.
Defined.

(** The scenario: start empty; [push_back(1); push_back(2);
    push_front(0)] is traversed as 0, 1, 2; after [pop_back()] as 0, 1, with
    [front() == 0], [back() == 1], [size() == 2]. *)
Example push_pop_scenario :
  ∃ h', (Deque_default 1 ;;
         push_back Arena.roomy no_throw 1 1%N ;;
         push_back Arena.roomy no_throw 1 2%N ;;
         push_front Arena.roomy no_throw 1 0%N ;;
         l1 <- traverse 4 1 ;;
         pop_back 1 ;;
         l2 <- traverse 3 1 ;;
         f <- front 1 ;; b <- back 1 ;; n <- Sentinel.size 1 ;;
         ret (l1, l2, f, b, n)) ∅
        = Ret ([0; 1; 2]%N, [0; 1]%N, 0%N, 1%N, 2%N) h'.
Proof. eexists. vm_compute. reflexivity. Qed.

(** The scenario: [Deque{1,2,3}], then [clear()]: [empty()],
    [size() == 0], [begin() == end()]. *)
Example clear_scenario :
  ∃ h', (Deque_init_list_unwinding Arena.roomy no_throw 4 1 [1; 2; 3]%N ;;
         clear 4 1 ;;
         e <- empty 1 ;; n <- Sentinel.size 1 ;;
         i <- begin 1 ;; j <- end_ 1 ;;
         ret (e, n, iter_eq i j)) ∅
        = Ret (true, 0%N, true) h'.
Proof. eexists. vm_compute. reflexivity. Qed.

Lemma iterator_steps_inverse_witness :
  ring heap_pair 1 nodes_12
  ∧ 3%N ∈ 1%N :: nodes_12.*1
  ∧ (j <- incr {| current_ := 3 |} ;; decr j) heap_pair
    = Ret {| current_ := 3 |} heap_pair
  ∧ (j <- decr {| current_ := 3 |} ;; incr j) heap_pair
    = Ret {| current_ := 3 |} heap_pair.
Proof.
  assert (3%N ∈ 1%N :: nodes_12.*1) as Hin by (cbn; repeat constructor).
  destruct (iterator_steps_inverse heap_pair 1 nodes_12 {| current_ := 3 |}
              heap_pair_ring_1 Hin) as (H1 & H2 & _).
  split; [exact heap_pair_ring_1|]. split; [exact Hin|]. split; [exact H1|exact H2].
Defined.

Lemma empty_access_undefined_witness :
  ring heap_empty 1 []
  ∧ (e <- end_ 1 ;; deref e) heap_empty = UB
  ∧ front 1 heap_empty = UB ∧ back 1 heap_empty = UB
  ∧ pop_front 1 heap_empty = UB ∧ pop_back 1 heap_empty = UB.
Proof.
  destruct (empty_access_undefined heap_empty 1 [] heap_empty_ring)
    as (H1 & _ & H2).
  split; [exact heap_empty_ring|]. split; [exact H1|]. exact (H2 eq_refl).
Defined.

Lemma emptiness_tests_agree_witness :
  ring heap_pair 1 nodes_12
  ∧ empty 1 heap_pair = Ret false heap_pair
  ∧ (i <- begin 1 ;; e <- end_ 1 ;; ret (iter_eq i e)) heap_pair
    = Ret false heap_pair.
Proof.
  destruct (emptiness_tests_agree heap_pair 1 nodes_12 heap_pair_ring_1)
    as (H1 & _ & H2 & _).
  split; [exact heap_pair_ring_1|]. split; [exact H1|exact H2].
Defined.

Lemma swap_self_witness :
  ring heap_pair 1 nodes_12 ∧ swap 1 1 heap_pair = Ret tt heap_pair.
Proof.
  split; [exact heap_pair_ring_1|].
  exact (proj1 (swap_self heap_pair 1 nodes_12 heap_pair_ring_1)).
Defined.

Lemma write_through_reference_witness :
  ring heap_pair 1 ([] ++ (2%N, 1%N) :: [(3%N, 2%N)])
  ∧ ∃ h', assign_through {| current_ := 2 |} 7%N heap_pair = Ret tt h'
          ∧ set_front 1 7%N heap_pair = Ret tt h'
          ∧ ring h' 1 ([] ++ (2%N, 7%N) :: [(3%N, 2%N)]).
Proof.
  destruct (write_through_reference heap_pair 1 [] 2 1%N 7%N [(3%N, 2%N)]
              heap_pair_ring_1) as (h' & Hrun & Hr & _ & Hf & _).
  split; [exact heap_pair_ring_1|]. exists h'.
  split; [exact Hrun|]. split; [exact (Hf eq_refl)|exact Hr].
Defined.

Lemma destructor_releases_all_witness :
  ring heap_pair 1 nodes_12 ∧ length nodes_12 < 3
  ∧ ∃ h', Deque_dtor 3 1 heap_pair = Ret tt h'
          ∧ h' !! 1%N = None ∧ h' !! 2%N = None ∧ h' !! 3%N = None
          ∧ h' !! 10%N = heap_pair !! 10%N.
Proof.
  assert (length nodes_12 < 3) as Hf by (cbn; lia).
  destruct (destructor_releases_all heap_pair 1 nodes_12 3 heap_pair_ring_1 Hf)
    as (h' & Hrun & Hfree & Hfr).
  split; [exact heap_pair_ring_1|]. split; [exact Hf|]. exists h'.
  split; [exact Hrun|].
  split; [apply Hfree; cbn; repeat constructor|].
  split; [apply Hfree; cbn; repeat constructor|].
  split; [apply Hfree; cbn; repeat constructor|].
  apply Hfr. apply (bool_decide_unpack _). vm_compute. exact I.
Defined.

Lemma stack_round_trip_witness :
  ring heap_pair 1 nodes_12
  ∧ match stack_back Arena.roomy no_throw 1 5%N heap_pair with
    | Ret y h' => y = 5%N ∧ h' = heap_pair
    | Throw e h' =>
        h' = heap_pair
        ∧ new_node_ Arena.roomy (copy_ctor no_throw 5%N) heap_pair
          = Throw e heap_pair
    | _ => False
    end.
Proof.
  split; [exact heap_pair_ring_1|].
  exact (proj1 (stack_round_trip Arena.roomy no_throw heap_pair 1 nodes_12 5%N
                  heap_pair_ring_1)).
Defined.

Lemma init_list_no_leak_witness :
  heap_pair !! 20%N = None ∧ valid_ptr 20 ∧ length [4%N; 5%N] < 3
  ∧ match scoped_deque Arena.roomy no_throw 3 20 [4%N; 5%N] heap_pair with
    | Ret _ h' | Throw _ h' => h' = heap_pair
    | _ => False
    end.
Proof.
  assert (valid_ptr 20) as Hv by (unfold valid_ptr, ptr_bound; lia).
  assert (length [4%N; 5%N] < 3) as Hf by (cbn; lia).
  split; [reflexivity|]. split; [exact Hv|]. split; [exact Hf|].
  exact (proj2 (init_list_no_leak Arena.roomy no_throw heap_pair 20 [4%N; 5%N] 3
                  eq_refl Hv Hf)).
Defined.

Lemma copy_ctor_no_leak_witness :
  ring heap_pair 1 nodes_12 ∧ heap_pair !! 20%N = None ∧ valid_ptr 20
  ∧ length nodes_12 < 3
  ∧ match Deque_copy_unwinding Arena.full no_throw 3 20 1 heap_pair with
    | Ret _ h' =>
        ∃ ys, ys.*2 = nodes_12.*2 ∧ ring h' 20 ys ∧ ring h' 1 nodes_12
              ∧ (∀ k, k ∈ 20%N :: ys.*1 → heap_pair !! k = None)
              ∧ (∀ k, k ∉ 20%N :: ys.*1 → h' !! k = heap_pair !! k)
    | Throw e h' =>
        h' = heap_pair
        ∧ (e = bad_alloc ∨ ∃ v, v ∈ nodes_12.*2 ∧ no_throw v = Some e)
    | _ => False
    end.
Proof.
  assert (valid_ptr 20) as Hv by (unfold valid_ptr, ptr_bound; lia).
  assert (length nodes_12 < 3) as Hf by (cbn; lia).
  split; [exact heap_pair_ring_1|]. split; [reflexivity|]. split; [exact Hv|].
  split; [exact Hf|].
  exact (copy_ctor_no_leak Arena.full no_throw heap_pair 20 1 nodes_12 3
           heap_pair_ring_1 eq_refl Hv Hf).
Defined.

Lemma copy_assign_distinct_witness :
  ring heap_pair 1 nodes_12 ∧ ring heap_pair 10 nodes_9 ∧ 1%N ≠ 10%N
  ∧ length nodes_12 < 3 ∧ length nodes_9 < 3
  ∧ match copy_assign Arena.roomy no_throw 3 10 1 heap_pair with
    | Ret _ h' => ∃ zs, zs.*2 = nodes_12.*2 ∧ ring h' 10 zs ∧ ring h' 1 nodes_12
    | Throw e h' =>
        (∃ zs, zs.*2 `prefix_of` nodes_12.*2 ∧ zs.*2 ≠ nodes_12.*2
               ∧ ring h' 10 zs ∧ ring h' 1 nodes_12)
        ∧ (e = bad_alloc ∨ ∃ v, v ∈ nodes_12.*2 ∧ no_throw v = Some e)
    | _ => False
    end.
Proof.
  assert (1%N ≠ 10%N) as Hne by discriminate.
  assert (length nodes_12 < 3) as Hf1 by (cbn; lia).
  assert (length nodes_9 < 3) as Hf2 by (cbn; lia).
  split; [exact heap_pair_ring_1|]. split; [exact heap_pair_ring_10|].
  split; [exact Hne|]. split; [exact Hf1|]. split; [exact Hf2|].
  exact (copy_assign_distinct Arena.roomy no_throw heap_pair 1 10 nodes_12
           nodes_9 3 heap_pair_ring_1 heap_pair_ring_10 Hne Hf1 Hf2).
Defined.

Lemma reverse_traversal_witness :
  ring heap_pair 1 nodes_12 ∧ length nodes_12 < 3
  ∧ rtraverse 3 1 heap_pair = Ret [2%N; 1%N] heap_pair.
Proof.
  assert (length nodes_12 < 3) as Hf by (cbn; lia).
  split; [exact heap_pair_ring_1|]. split; [exact Hf|].
  exact (proj1 (reverse_traversal heap_pair 1 nodes_12 3 heap_pair_ring_1 Hf)).
Defined.

Example copy_assign_runs :
  ∃ h', (copy_assign Arena.roomy no_throw 3 10 1 ;;
         a <- traverse 3 1 ;; b <- traverse 3 10 ;; r <- rtraverse 3 10 ;;
         ret (a, b, r)) heap_pair
        = Ret ([1; 2]%N, [1; 2]%N, [2; 1]%N) h'.
Proof. eexists. vm_compute. reflexivity. Qed.

Example copy_ctor_unwinds :
  Deque_copy_unwinding Arena.full no_throw 3 20 1 heap_pair
  = Throw bad_alloc heap_pair.
Proof. vm_compute. reflexivity. Qed.

End SentinelSpec.

(** * Properties of the environment *)

Module IslppSpec.
Import Islpp.

Section env_facts.
Context {Symbol : Type} `{EqDecision Symbol} {V : Type}.
Abbreviation heap := (gmap N (@node Symbol V)).
Abbreviation bindings := (list (N * (Symbol * V))).
Implicit Types (h : heap) (bs : bindings) (e : env_ptr) (k : Symbol) (p q : N).

Lemma env_cells_fst bs : (env_cells bs).*1 = bs.*1.
Proof. induction bs as [|b bs IH]; [done|]. cbn. by rewrite IH. Qed.

Lemma valid_ptr_not_null p : valid_ptr p → p ≠ nullptr.
Proof. unfold valid_ptr, nullptr. lia. Qed.

Lemma nearest_None k bs : nearest k bs = None ↔ k ∉ keys bs.
Proof.
  induction bs as [|b bs IH]; cbn.
  - split; [intros _; apply not_elem_of_nil|done].
  - unfold keys in *. cbn. rewrite not_elem_of_cons. case_decide; naive_solver.
Qed.

(** The nearest binding is the first one with that key, newest first. *)
Lemma nearest_Some k bs p w :
  nearest k bs = Some (p, w) ↔
  ∃ bs1 bs2, bs = bs1 ++ (p, (k, w)) :: bs2 ∧ k ∉ keys bs1.
Proof.
  induction bs as [|b bs IH]; cbn.
  - split; [done|]. intros (bs1 & bs2 & Heq & _). by destruct bs1.
  - case_decide as Hk.
    + split.
      * intros [= <- <-]. exists [], bs. split; [|apply not_elem_of_nil].
        destruct b as [? [? ?]]. cbn in *. by subst.
      * intros (bs1 & bs2 & Heq & Hnot). destruct bs1 as [|b1 bs1].
        -- by injection Heq as ->.
        -- injection Heq as -> _. unfold keys in Hnot. cbn in Hnot. set_solver.
    + rewrite IH. split.
      * intros (bs1 & bs2 & -> & Hnot). exists (b :: bs1), bs2. split; [done|].
        unfold keys in *. cbn. set_solver.
      * intros (bs1 & bs2 & Heq & Hnot). destruct bs1 as [|b1 bs1].
        -- injection Heq as ->. done.
        -- injection Heq as -> ->. exists bs1, bs2. split; [done|].
           unfold keys in *. cbn in Hnot. set_solver.
Qed.

Lemma nearest_elem k bs p w : nearest k bs = Some (p, w) → p ∈ bs.*1.
Proof.
  intros (bs1 & bs2 & -> & _)%nearest_Some. rewrite fmap_app. cbn. set_solver.
Qed.

(** The loops of [lookup] and [update] find the nearest binding. *)
Lemma lookup_from_spec k : ∀ bs h fuel,
  cells_hold h (env_cells bs) → Forall valid_ptr bs.*1 → length bs < fuel →
  lookup_from fuel (env_head bs) k h
  = match nearest k bs with
    | Some (_, w) => Ret w h
    | None => Throw (binding_not_found k) h
    end.
Proof.
  induction bs as [|b bs IH]; intros h fuel Hc Hv Hf.
  - destruct fuel as [|fuel]; [cbn in Hf; lia|]. cbn. by rewrite decide_True.
  - destruct fuel as [|fuel]; [cbn in Hf; lia|].
    cbn in Hc, Hv, Hf. apply Forall_cons in Hc as [Hb Hc].
    apply Forall_cons in Hv as [Hvb Hv]. cbn in Hb.
    cbn [lookup_from env_head nearest].
    rewrite decide_False by by apply valid_ptr_not_null.
    rewrite Hb. cbn [key value next].
    case_decide; [done|]. apply IH; [done|done|lia].
Qed.

Lemma insert_set_value h p n w :
  h !! p = Some n →
  <[p := {| key := key n; value := w; next := next n |}]> h = set_value p w h.
Proof.
  intros Hp. apply map_eq. intros q. unfold set_value.
  destruct (decide (p = q)) as [<-|Hne].
  - by rewrite lookup_insert_eq, lookup_alter_eq, Hp.
  - by rewrite lookup_insert_ne, lookup_alter_ne.
Qed.

Lemma update_from_spec k w : ∀ bs h fuel,
  cells_hold h (env_cells bs) → Forall valid_ptr bs.*1 → length bs < fuel →
  update_from fuel (env_head bs) k w h
  = match nearest k bs with
    | Some (p, _) => Ret tt (set_value p w h)
    | None => Throw (binding_not_found k) h
    end.
Proof.
  induction bs as [|b bs IH]; intros h fuel Hc Hv Hf.
  - destruct fuel as [|fuel]; [cbn in Hf; lia|]. cbn. by rewrite decide_True.
  - destruct fuel as [|fuel]; [cbn in Hf; lia|].
    cbn in Hc, Hv, Hf. apply Forall_cons in Hc as [Hb Hc].
    apply Forall_cons in Hv as [Hvb Hv]. cbn in Hb.
    cbn [update_from env_head nearest].
    rewrite decide_False by by apply valid_ptr_not_null.
    rewrite Hb. cbn [key value next].
    case_decide.
    + f_equal. by rewrite <- (insert_set_value _ _ _ _ Hb).
    + apply IH; [done|done|lia].
Qed.

Lemma set_nearest_fst k w bs : (set_nearest k w bs).*1 = bs.*1.
Proof.
  induction bs as [|b bs IH]; [done|]. cbn. case_decide; cbn; [done|].
  by rewrite IH.
Qed.
Lemma set_nearest_head k w bs : env_head (set_nearest k w bs) = env_head bs.
Proof. destruct bs as [|b bs]; [done|]. cbn. by case_decide. Qed.

Lemma cells_hold_frame h h' (cs : list (N * node)) :
  (∀ q, q ∈ cs.*1 → h' !! q = h !! q) → cells_hold h cs → cells_hold h' cs.
Proof.
  unfold cells_hold. intros Hfr Hh. apply Forall_forall. intros [q c] Hin.
  rewrite Hfr; [by apply (proj1 (Forall_forall _ _) Hh (q, c))|].
  apply list_elem_of_fmap. by exists (q, c).
Qed.

Lemma cells_hold_set_nearest k w : ∀ bs h p w0,
  cells_hold h (env_cells bs) → NoDup bs.*1 → nearest k bs = Some (p, w0) →
  cells_hold (set_value p w h) (env_cells (set_nearest k w bs)).
Proof.
  induction bs as [|b bs IH]; intros h p w0 Hc Hnd Hnear; [done|].
  cbn in Hc, Hnd, Hnear. apply Forall_cons in Hc as [Hb Hc].
  apply NoDup_cons in Hnd as [Hbn Hnd]. cbn in Hb.
  cbn [set_nearest]. case_decide as Hk.
  - injection Hnear as <- <-. cbn [env_cells fst snd]. apply Forall_cons. split.
    + unfold set_value. cbn [fst snd]. rewrite lookup_alter_eq. by rewrite Hb.
    + eapply cells_hold_frame; [|exact Hc]. intros q Hq.
      rewrite env_cells_fst in Hq. unfold set_value.
      rewrite lookup_alter_ne; [done|]. intros <-. by apply Hbn.
  - pose proof (nearest_elem _ _ _ _ Hnear) as Hp.
    cbn [env_cells]. apply Forall_cons. split.
    + cbn. rewrite set_nearest_head. unfold set_value.
      rewrite lookup_alter_ne; [done|]. intros ->. by apply Hbn.
    + by eapply IH.
Qed.

Lemma env_rep_set_nearest h e bs k w p w0 :
  env_rep h e bs → nearest k bs = Some (p, w0) →
  env_rep (set_value p w h) e (set_nearest k w bs).
Proof.
  intros [Hh Hc Hnd Hv] Hnear. split.
  - by rewrite set_nearest_head.
  - by eapply cells_hold_set_nearest.
  - by rewrite set_nearest_fst.
  - by rewrite set_nearest_fst.
Qed.

Lemma nearest_set_nearest k w bs p w0 :
  nearest k bs = Some (p, w0) → nearest k (set_nearest k w bs) = Some (p, w).
Proof.
  induction bs as [|b bs IH]; [done|]. cbn. case_decide as Hk.
  - intros [= <- <-]. cbn. by rewrite decide_True.
  - intros Hn. cbn. rewrite decide_False by done. by apply IH.
Qed.

Lemma lookup_spec h e bs k fuel :
  env_rep h e bs → length bs < fuel →
  lookup fuel e k h
  = match nearest k bs with
    | Some (_, w) => Ret w h
    | None => Throw (binding_not_found k) h
    end.
Proof.
  intros [Hh Hc _ Hv] Hf. unfold lookup. rewrite Hh. by apply lookup_from_spec.
Qed.

Lemma update_spec h e bs k w fuel :
  env_rep h e bs → length bs < fuel →
  update fuel e k w h
  = match nearest k bs with
    | Some (p, _) => Ret tt (set_value p w h)
    | None => Throw (binding_not_found k) h
    end.
Proof.
  intros [Hh Hc _ Hv] Hf. unfold update. rewrite Hh. by apply update_from_spec.
Qed.

Section extend.
Context (A : allocator).

Lemma env_rep_fresh h e bs p : env_rep h e bs → h !! p = None → p ∉ bs.*1.
Proof.
  intros [_ Hc _ _] Hp Hin. rewrite <- env_cells_fst in Hin.
  apply list_elem_of_fmap in Hin as ([q c] & -> & Hin).
  apply (proj1 (Forall_forall _ _) Hc) in Hin. cbn in *. congruence.
Qed.

Lemma env_rep_insert_fresh h e bs p n :
  env_rep h e bs → h !! p = None → env_rep (<[p := n]> h) e bs.
Proof.
  intros Hr Hp. pose proof (env_rep_fresh _ _ _ _ Hr Hp) as Hfr.
  destruct Hr as [Hh Hc Hnd Hv]. split; [done| |done|done].
  eapply cells_hold_frame; [|exact Hc]. intros q Hq.
  rewrite env_cells_fst in Hq. rewrite lookup_insert_ne; [done|]. intros ->. by apply Hfr.
Qed.

Lemma extend_spec h e bs k v :
  env_rep h e bs →
  match extend A e k v h with
  | Ret e' h' =>
      alloc A (dom h) = Some (head_ e')
      ∧ h !! head_ e' = None
      ∧ h' = <[head_ e' := {| key := k; value := v; next := head_ e |}]> h
      ∧ env_rep h' e bs
      ∧ env_rep h' e' ((head_ e', (k, v)) :: bs)
  | Throw ex h' => ex = bad_alloc ∧ h' = h ∧ alloc A (dom h) = None
  | _ => False
  end.
Proof.
  intros Hr. unfold extend. destruct (alloc A (dom h)) as [p|] eqn:Ha; [|done].
  destruct (alloc_fresh A _ _ Ha) as [Hfr Hvp]. apply not_elem_of_dom in Hfr.
  cbn [head_]. split_and!; [done|done|done|by apply env_rep_insert_fresh|].
  pose proof (env_rep_fresh _ _ _ _ Hr Hfr) as Hnin.
  pose proof (env_rep_insert_fresh _ _ _ _
                {| key := k; value := v; next := head_ e |} Hr Hfr) as Hr'.
  destruct Hr' as [Hh Hc Hnd Hv]. split; cbn.
  - done.
  - apply Forall_cons. split; [|done]. cbn. by rewrite lookup_insert_eq, Hh.
  - by apply NoDup_cons.
  - by apply Forall_cons.
Qed.

(** C8.  On an environment denoting the bindings [bs], newest first:
    [lookup] returns the value of the nearest binding of [k] and throws
    [binding_not_found] exactly when [k] has no binding; [update] assigns the
    value of the nearest binding in place, throws [binding_not_found] exactly
    when there is none and then leaves the heap unchanged; [extend] writes
    only a fresh node whose [next] is the old head, so the old handle still
    denotes [bs] and the new one denotes the new binding followed by the very
    nodes of [bs]; it returns whenever the allocator has a node to give, and
    fails, with [bad_alloc] and the heap unchanged, only when it has none. *)
Theorem env_operations h e bs k v fuel :
  env_rep h e bs → length bs < fuel →
  lookup fuel e k h
  = match nearest k bs with
    | Some (_, w) => Ret w h
    | None => Throw (binding_not_found k) h
    end
  ∧ (lookup fuel e k h = Throw (binding_not_found k) h ↔ k ∉ keys bs)
  ∧ update fuel e k v h
    = match nearest k bs with
      | Some (p, _) => Ret tt (set_value p v h)
      | None => Throw (binding_not_found k) h
      end
  ∧ (update fuel e k v h = Throw (binding_not_found k) h ↔ k ∉ keys bs)
  ∧ (∀ p w, nearest k bs = Some (p, w) →
       env_rep (set_value p v h) e (set_nearest k v bs))
  ∧ match extend A e k v h with
    | Ret e' h' =>
        alloc A (dom h) = Some (head_ e')
        ∧ h !! head_ e' = None
        ∧ h' = <[head_ e' := {| key := k; value := v; next := head_ e |}]> h
        ∧ env_rep h' e bs
        ∧ env_rep h' e' ((head_ e', (k, v)) :: bs)
    | Throw ex h' => ex = bad_alloc ∧ h' = h ∧ alloc A (dom h) = None
    | _ => False
    end.
Proof.
  intros Hr Hf.
  pose proof (lookup_spec h e bs k fuel Hr Hf) as Hl.
  pose proof (update_spec h e bs k v fuel Hr Hf) as Hu.
  split_and!.
  - done.
  - rewrite Hl, <- nearest_None. destruct (nearest k bs) as [[p w]|]; naive_solver.
  - done.
  - rewrite Hu, <- nearest_None. destruct (nearest k bs) as [[p w]|]; naive_solver.
  - intros p w Hn. by eapply env_rep_set_nearest.
  - pose proof (extend_spec h e bs k v Hr) as He.
    by destruct (extend A e k v h) as [e' h'|ex h'| |].
Qed.

(** C10.  With [e2 = e1.extend(k2, v2)], [k ≠ k2] and [k] bound in [e1],
    [e2.update(k, w)] followed by [e1.lookup(k)] returns [w]: the update
    writes the node both handles share.  [extend] alone changes the answer
    of no lookup through [e1]. *)
Theorem update_reaches_shared_tail h e1 bs k2 v2 k w fuel :
  env_rep h e1 bs → length bs + 1 < fuel → k ≠ k2 → is_Some (nearest k bs) →
  match update_through_extension A fuel e1 k2 v2 k w h with
  | Ret r _ => r = w
  | Throw ex h' => ex = bad_alloc ∧ h' = h
  | _ => False
  end
  ∧ match extend A e1 k2 v2 h with
    | Ret _ h' => ∀ k', answer (lookup fuel e1 k' h') = answer (lookup fuel e1 k' h)
    | Throw _ h' => h' = h
    | _ => False
    end.
Proof.
  intros Hr Hf Hk [[q w0] Hn].
  pose proof (extend_spec h e1 bs k2 v2 Hr) as He.
  unfold update_through_extension. unfold bind at 1.
  destruct (extend A e1 k2 v2 h) as [e2 h1|ex h1| |]; [|naive_solver|done..].
  destruct He as (_ & Hfr & -> & Hr1 & Hr2).
  set (h1 := <[head_ e2 := _]> h) in *.
  split.
  - unfold bind at 1.
    rewrite (update_spec h1 e2 _ k w fuel Hr2) by (cbn; lia).
    cbn [nearest fst snd]. rewrite decide_False by done. rewrite Hn.
    unfold bind.
    rewrite (lookup_spec _ e1 (set_nearest k w bs) k fuel).
    + by rewrite (nearest_set_nearest _ _ _ _ _ Hn).
    + by eapply env_rep_set_nearest.
    + rewrite <- (length_fmap fst), set_nearest_fst, length_fmap. lia.
  - intros k'. rewrite (lookup_spec h1 e1 bs k' fuel Hr1) by lia.
    rewrite (lookup_spec h e1 bs k' fuel Hr) by lia.
    by destruct (nearest k' bs) as [[? ?]|].
Qed.

End extend.
End env_facts.

(** *** Round trips, shadowing, and the association list an environment is *)

Section env_more.
Context {Symbol : Type} `{EqDecision Symbol} {V : Type}.
Abbreviation heap := (gmap N (@node Symbol V)).
Abbreviation bindings := (list (N * (Symbol * V))).
Implicit Types (h : heap) (bs : bindings) (e : env_ptr) (k : Symbol) (p q : N).

Lemma nearest_set_nearest_ne k k' (w : V) bs :
  k' ≠ k → nearest k' (set_nearest k w bs) = nearest k' bs.
Proof.
  intros Hne. induction bs as [|b bs IH]; [done|]. cbn.
  destruct (decide (b.2.1 = k)) as [Hk|Hk]; cbn.
  - rewrite !decide_False; [done|congruence|congruence].
  - by rewrite IH.
Qed.

Lemma set_nearest_length k (w : V) bs : length (set_nearest k w bs) = length bs.
Proof.
  rewrite <- (length_fmap fst (set_nearest k w bs)), set_nearest_fst.
  apply length_fmap.
Qed.

Lemma assoc_last_snoc k (l : list (Symbol * V)) kv :
  assoc_last k (l ++ [kv])
  = if decide (kv.1 = k) then Some kv.2 else assoc_last k l.
Proof.
  induction l as [|a l IH]; cbn.
  - by destruct (decide (kv.1 = k)).
  - rewrite IH. by destruct (decide (kv.1 = k)).
Qed.

(** The nearest binding in a chain is the last binding of the association
    list the chain was built from. *)
Lemma nearest_assoc_last k bs :
  snd <$> nearest k bs = assoc_last k (rev bs.*2).
Proof.
  induction bs as [|b bs IH]; [done|]. cbn [nearest fmap list_fmap rev].
  rewrite assoc_last_snoc. destruct (decide (b.2.1 = k)); [done|]. exact IH.
Qed.

(** X22. Update, then lookup: when [k] is bound, [update(k, w)] returns
    having allocated nothing, the same handle then looks [k] up as [w], and
    the answer of a lookup of any other key is what it was. *)
Theorem update_then_lookup h e bs k (w : V) fuel :
  env_rep h e bs → length bs < fuel → k ∈ keys bs →
  ∃ h', update fuel e k w h = Ret tt h'
        ∧ lookup fuel e k h' = Ret w h'
        ∧ dom h' = dom h
        ∧ ∀ k', k' ≠ k →
            answer (lookup fuel e k' h') = answer (lookup fuel e k' h).
Proof.
  intros Hr Hf Hk.
  destruct (nearest k bs) as [[p w0]|] eqn:Hn;
    [|by apply nearest_None in Hn].
  pose proof (env_rep_set_nearest h e bs k w p w0 Hr Hn) as Hr'.
  exists (set_value p w h). split_and!.
  - by rewrite (update_spec h e bs k w fuel Hr Hf), Hn.
  - rewrite (lookup_spec _ e _ k fuel Hr') by by rewrite set_nearest_length.
    by rewrite (nearest_set_nearest k w bs p w0 Hn).
  - unfold set_value. apply dom_alter_L.
  - intros k' Hk'.
    rewrite (lookup_spec _ e _ k' fuel Hr') by by rewrite set_nearest_length.
    rewrite (lookup_spec _ e _ k' fuel Hr) by done.
    rewrite nearest_set_nearest_ne by done.
    by destruct (nearest k' bs) as [[??]|].
Qed.

Section extend.
Context (A : allocator).

(** X23. Extend, then lookup: through the handle [extend(k, v)] returns,
    [k] looks up as [v], whatever [k] was bound to before, and every other
    key answers as it does through the old handle; [extend] fails only with
    [bad_alloc], the heap unchanged. *)
Theorem extend_then_lookup h e bs k (v : V) fuel :
  env_rep h e bs → length bs + 1 < fuel →
  match extend A e k v h with
  | Ret e' h' =>
      lookup fuel e' k h' = Ret v h'
      ∧ ∀ k', k' ≠ k →
          answer (lookup fuel e' k' h') = answer (lookup fuel e k' h)
  | Throw ex h' => ex = bad_alloc ∧ h' = h
  | _ => False
  end.
Proof.
  intros Hr Hf. pose proof (extend_spec A h e bs k v Hr) as He.
  destruct (extend A e k v h) as [e' h'|ex h'| |]; [|naive_solver|done..].
  destruct He as (_ & _ & _ & _ & Hr').
  split.
  - rewrite (lookup_spec _ e' _ k fuel Hr') by (cbn; lia).
    cbn. by rewrite decide_True.
  - intros k' Hk'.
    rewrite (lookup_spec _ e' _ k' fuel Hr') by (cbn; lia).
    rewrite (lookup_spec _ e _ k' fuel Hr) by lia.
    cbn. rewrite decide_False by done.
    by destruct (nearest k' bs) as [[??]|].
Qed.

(** X24. An update of a shadowing binding stays in the extension: with
    [e2 = e1.extend(k, v2)], [e2.update(k, w)] writes the node [extend]
    added, so [e2] then looks [k] up as [w] while every lookup through [e1],
    of [k] as of any other key, answers as before. *)
Theorem update_of_shadowing_binding h e1 bs k (v2 w : V) fuel :
  env_rep h e1 bs → length bs + 1 < fuel →
  match extend A e1 k v2 h with
  | Ret e2 h1 =>
      ∃ h2, update fuel e2 k w h1 = Ret tt h2
            ∧ lookup fuel e2 k h2 = Ret w h2
            ∧ env_rep h2 e1 bs
            ∧ ∀ k', answer (lookup fuel e1 k' h2) = answer (lookup fuel e1 k' h)
  | Throw ex h' => ex = bad_alloc ∧ h' = h
  | _ => False
  end.
Proof.
  intros Hr Hf. pose proof (extend_spec A h e1 bs k v2 Hr) as He.
  destruct (extend A e1 k v2 h) as [e2 h1|ex h1| |]; [|naive_solver|done..].
  destruct He as (_ & Hfr & -> & Hr1 & Hr2).
  set (h1 := <[head_ e2 := _]> h) in *.
  assert (nearest k ((head_ e2, (k, v2)) :: bs) = Some (head_ e2, v2)) as Hn.
  { cbn. by rewrite decide_True. }
  pose proof (env_rep_set_nearest _ _ _ k w _ _ Hr2 Hn) as Hr2'.
  cbn [set_nearest snd fst] in Hr2'. rewrite decide_True in Hr2' by done.
  cbn [fst snd] in Hr2'.
  assert (env_rep (set_value (head_ e2) w h1) e1 bs) as Hr1'.
  { destruct Hr1 as [Hh Hc Hnd Hv]. split; [done| |done|done].
    eapply cells_hold_frame; [|exact Hc]. intros q Hq.
    rewrite env_cells_fst in Hq. unfold set_value.
    rewrite lookup_alter_ne; [done|]. intros <-.
    by apply (env_rep_fresh h e1 bs (head_ e2) Hr Hfr). }
  exists (set_value (head_ e2) w h1). split_and!.
  - rewrite (update_spec h1 e2 _ k w fuel Hr2) by (cbn; lia). by rewrite Hn.
  - rewrite (lookup_spec _ e2 _ k fuel Hr2') by (cbn; lia).
    cbn. by rewrite decide_True.
  - done.
  - intros k'. rewrite (lookup_spec _ e1 _ k' fuel Hr1') by lia.
    rewrite (lookup_spec _ e1 _ k' fuel Hr) by lia.
    by destruct (nearest k' bs) as [[??]|].
Qed.

Lemma extend_all_spec (kvs : list (Symbol * V)) : ∀ h e bs,
  env_rep h e bs →
  match extend_all A e kvs h with
  | Ret e' h' =>
      ∃ bs', bs'.*2 = rev kvs ∧ env_rep h' e' (bs' ++ bs) ∧ env_rep h' e bs
  | Throw ex h' => ex = bad_alloc ∧ env_rep h' e bs
  | _ => False
  end.
Proof.
  induction kvs as [|kv kvs IH]; intros h e bs Hr.
  - cbn. by exists [].
  - cbn [extend_all]. unfold bind.
    pose proof (extend_spec A h e bs kv.1 kv.2 Hr) as He.
    destruct (extend A e kv.1 kv.2 h) as [e1 h1|ex h1| |]; [| |done..].
    + destruct He as (_ & Hfr & Hh1 & Hr1 & Hr1').
      specialize (IH h1 e1 _ Hr1').
      destruct (extend_all A e1 kvs h1) as [e2 h2|ex h2| |]; [| |done..].
      * destruct IH as (bs' & Hbs' & Hr2 & Hr2').
        exists (bs' ++ [(head_ e1, (kv.1, kv.2))]). split_and!.
        -- rewrite fmap_app, Hbs'. cbn. by destruct kv.
        -- by rewrite <- app_assoc.
        -- destruct Hr2' as [_ Hc _ _]. destruct Hr as [Hh _ Hnd Hv].
           split; [done| |done|done]. cbn [env_cells] in Hc.
           by apply Forall_cons in Hc as [_ Hc].
      * destruct IH as [-> Hr2']. split; [done|].
        destruct Hr2' as [_ Hc _ _]. destruct Hr as [Hh _ Hnd Hv].
        split; [done| |done|done]. cbn [env_cells] in Hc.
        by apply Forall_cons in Hc as [_ Hc].
    + destruct He as (-> & -> & _). done.
Qed.

(** X25. An environment built from the empty one by a run of [extend]s
    behaves as the association list of the bindings made: a lookup returns
    the value of the latest binding of the key and throws
    [binding_not_found] when the key was never bound; on the empty
    environment every lookup and every update throws.  Building fails only
    with [bad_alloc]. *)
Theorem built_env_is_assoc_list h (kvs : list (Symbol * V)) fuel :
  length kvs < fuel →
  match extend_all A empty_env kvs h with
  | Ret e h' =>
      ∀ k, lookup fuel e k h'
           = match assoc_last k kvs with
             | Some v => Ret v h'
             | None => Throw (binding_not_found k) h'
             end
  | Throw ex _ => ex = bad_alloc
  | _ => False
  end
  ∧ ∀ k (w : V),
      lookup fuel empty_env k h = Throw (binding_not_found k) h
      ∧ update fuel empty_env k w h = Throw (binding_not_found k) h.
Proof.
  intros Hf.
  assert (env_rep h empty_env []) as Hr0.
  { split; [done|constructor|constructor|constructor]. }
  split.
  - pose proof (extend_all_spec kvs h empty_env [] Hr0) as Hall.
    destruct (extend_all A empty_env kvs h) as [e h'|ex h'| |];
      [|by destruct Hall|done..].
    destruct Hall as (bs' & Hbs' & Hr & _). rewrite app_nil_r in Hr.
    intros k. rewrite (lookup_spec _ e _ k fuel Hr).
    + pose proof (nearest_assoc_last k bs') as Hn.
      rewrite Hbs', rev_involutive in Hn. rewrite <- Hn.
      by destruct (nearest k bs') as [[??]|].
    + rewrite <- (length_fmap snd bs'), Hbs', length_rev. done.
  - intros k w. split.
    + by rewrite (lookup_spec h empty_env [] k fuel Hr0) by (cbn; lia).
    + by rewrite (update_spec h empty_env [] k w fuel Hr0) by (cbn; lia).
Qed.
End extend.
End env_more.
(** *** The properties at a concrete environment *)

Import IslppExamples.

Lemma env_xy_rep : env_rep env_heap env_xy bindings_xy.
Proof.
  split.
  - reflexivity.
  - repeat constructor.
  - apply (bool_decide_unpack _). vm_compute. exact I.
  - repeat constructor; vm_compute; reflexivity.
Defined.

Lemma env_operations_witness :
  env_rep env_heap env_xy bindings_xy
  ∧ lookup 3 env_xy "y" env_heap = Ret 2%N env_heap
  ∧ update 3 env_xy "y" 5%N env_heap = Ret tt (set_value 1 5%N env_heap)
  ∧ env_rep (set_value 1 5%N env_heap) env_xy [(2%N, ("x", 1%N)); (1%N, ("y", 5%N))]
  ∧ match extend Arena.roomy env_xy "y" 5%N env_heap with
    | Ret e' h' =>
        alloc Arena.roomy (dom env_heap) = Some (head_ e')
        ∧ env_heap !! head_ e' = None
        ∧ h' = <[head_ e' := {| key := "y"; value := 5%N; next := 2%N |}]> env_heap
        ∧ env_rep h' env_xy bindings_xy
        ∧ env_rep h' e' ((head_ e', ("y", 5%N)) :: bindings_xy)
    | Throw ex h' =>
        ex = bad_alloc ∧ h' = env_heap ∧ alloc Arena.roomy (dom env_heap) = None
    | _ => False
    end.
Proof.
  destruct (env_operations Arena.roomy env_heap env_xy bindings_xy "y" 5%N 3
              env_xy_rep ltac:(cbn; lia)) as (Hl & _ & Hu & _ & Hr & He).
  split; [exact env_xy_rep|]. split; [exact Hl|]. split; [exact Hu|].
  split; [exact (Hr 1%N 2%N eq_refl)|exact He].
Defined.

(** A key that is not bound: both operations throw and leave the heap. *)
Example unbound_key_runs :
  lookup 3 env_xy "z" env_heap = Throw (binding_not_found "z") env_heap
  ∧ update 3 env_xy "z" 5%N env_heap = Throw (binding_not_found "z") env_heap.
Proof. split; vm_compute; reflexivity. Qed.

Lemma update_reaches_shared_tail_witness :
  env_rep env_heap env_xy bindings_xy
  ∧ match update_through_extension Arena.roomy 4 env_xy "z" 0%N "y" 5%N env_heap with
    | Ret r _ => r = 5%N
    | Throw ex h' => ex = bad_alloc ∧ h' = env_heap
    | _ => False
    end
  ∧ match extend Arena.roomy env_xy "z" 0%N env_heap with
    | Ret _ h' =>
        ∀ k', answer (lookup 4 env_xy k' h') = answer (lookup 4 env_xy k' env_heap)
    | Throw _ h' => h' = env_heap
    | _ => False
    end.
Proof.
  split; [exact env_xy_rep|].
  apply (update_reaches_shared_tail Arena.roomy env_heap env_xy bindings_xy
           "z" 0%N "y" 5%N 4 env_xy_rep).
  - cbn. lia.
  - discriminate.
  - cbn. eauto.
Defined.

Example update_through_extension_runs :
  ∃ h', update_through_extension Arena.roomy 4 env_xy "z" 0%N "y" 5%N env_heap
        = Ret 5%N h'.
Proof. eexists. vm_compute. reflexivity. Qed.


Lemma update_then_lookup_witness :
  env_rep env_heap env_xy bindings_xy ∧ length bindings_xy < 3
  ∧ "y" ∈ keys bindings_xy
  ∧ ∃ h', update 3 env_xy "y" 5%N env_heap = Ret tt h'
          ∧ lookup 3 env_xy "y" h' = Ret 5%N h'
          ∧ answer (lookup 3 env_xy "x" h') = answer (lookup 3 env_xy "x" env_heap).
Proof.
  assert (length bindings_xy < 3) as Hf by (cbn; lia).
  assert ("y" ∈ keys bindings_xy) as Hk by (cbn; repeat constructor).
  destruct (update_then_lookup env_heap env_xy bindings_xy "y" 5%N 3
              env_xy_rep Hf Hk) as (h' & Hu & Hl & _ & Hother).
  split; [exact env_xy_rep|]. split; [exact Hf|]. split; [exact Hk|].
  exists h'. split; [exact Hu|]. split; [exact Hl|].
  apply Hother. discriminate.
Defined.

Lemma extend_then_lookup_witness :
  env_rep env_heap env_xy bindings_xy ∧ length bindings_xy + 1 < 4
  ∧ match extend Arena.roomy env_xy "y" 5%N env_heap with
    | Ret e' h' =>
        lookup 4 e' "y" h' = Ret 5%N h'
        ∧ ∀ k', k' ≠ "y" →
            answer (lookup 4 e' k' h') = answer (lookup 4 env_xy k' env_heap)
    | Throw ex h' => ex = bad_alloc ∧ h' = env_heap
    | _ => False
    end.
Proof.
  assert (length bindings_xy + 1 < 4) as Hf by (cbn; lia).
  split; [exact env_xy_rep|]. split; [exact Hf|].
  exact (extend_then_lookup Arena.roomy env_heap env_xy bindings_xy "y" 5%N 4
           env_xy_rep Hf).
Defined.

Lemma update_of_shadowing_binding_witness :
  env_rep env_heap env_xy bindings_xy ∧ length bindings_xy + 1 < 4
  ∧ match extend Arena.roomy env_xy "y" 0%N env_heap with
    | Ret e2 h1 =>
        ∃ h2, update 4 e2 "y" 5%N h1 = Ret tt h2
              ∧ lookup 4 e2 "y" h2 = Ret 5%N h2
              ∧ env_rep h2 env_xy bindings_xy
              ∧ ∀ k', answer (lookup 4 env_xy k' h2)
                      = answer (lookup 4 env_xy k' env_heap)
    | Throw ex h' => ex = bad_alloc ∧ h' = env_heap
    | _ => False
    end.
Proof.
  assert (length bindings_xy + 1 < 4) as Hf by (cbn; lia).
  split; [exact env_xy_rep|]. split; [exact Hf|].
  exact (update_of_shadowing_binding Arena.roomy env_heap env_xy bindings_xy
           "y" 0%N 5%N 4 env_xy_rep Hf).
Defined.

Lemma built_env_is_assoc_list_witness :
  length [("x", 1%N); ("y", 2%N); ("x", 3%N)] < 4
  ∧ match extend_all Arena.roomy empty_env [("x", 1%N); ("y", 2%N); ("x", 3%N)]
            (∅ : gmap N (@node string N)) with
    | Ret e h' =>
        lookup 4 e "x" h' = Ret 3%N h' ∧ lookup 4 e "y" h' = Ret 2%N h'
        ∧ lookup 4 e "z" h' = Throw (binding_not_found "z") h'
    | Throw ex _ => ex = bad_alloc
    | _ => False
    end.
Proof.
  assert (length [("x", 1%N); ("y", 2%N); ("x", 3%N)] < 4) as Hf by (cbn; lia).
  split; [exact Hf|].
  pose proof (proj1 (built_env_is_assoc_list Arena.roomy ∅
                       [("x", 1%N); ("y", 2%N); ("x", 3%N)] 4 Hf)) as H.
  destruct (extend_all Arena.roomy empty_env _ ∅) as [e h'|ex h'| |];
    [|exact H..].
  split; [exact (H "x")|]. split; [exact (H "y")|exact (H "z")].
Defined.

Example shadowing_runs :
  ∃ h', (e2 <- extend Arena.roomy env_xy "y" 0%N ;;
         update 4 e2 "y" 5%N ;;
         a <- lookup 4 e2 "y" ;; b <- lookup 4 env_xy "y" ;; ret (a, b)) env_heap
        = Ret (5%N, 2%N) h'.
Proof. eexists. vm_compute. reflexivity. Qed.

End IslppSpec.
